(** * The concurrent hash table of [hashtable/hashtable.go]

  A shallow embedding of the generic hash table ([HashTable[K, V]]) and of
  its operations [New], [hash], [Put], [Get], [Delete], [tryResize] and
  [Size], followed by the properties of the table that the specification
  states.

  Conventions of the embedding.
  - Go's [int] is the 64-bit two's-complement integer of the gc compiler
    on amd64/arm64; it is a [Z] and every arithmetic result is passed
    through [Int64.wrap].  [atomic.Int64] is the same.
  - [uint32] is a [Z] reduced modulo [2^32].
  - [float64] is IEEE-754 binary64, taken from the Standard Library's
    executable specification [SpecFloat] ([prec = 53], [emax = 1024]).
  - A call is a function from the state of the table (and the log of the
    synchronisation events so far) to an [outcome]: a result with the new
    state, a run-time panic, or a retry loop that ran out of iterations.
  - The two mutexes and the two atomics are not fields of the state: every
    call on them is written to the event log, in program order.  The
    executions described here are those of one goroutine running calls
    one after the other, so every lock is free when it is requested.  The
    one exception is the section on calls that overlap, where a call of
    [Put] is split at the return of [hash] and calls of other goroutines
    run in between. *)

From Stdlib Require Import ZArith Lia SpecFloat.
From Stdlib Require Import Strings.Byte Strings.String Numbers.DecimalString.
From stdpp Require Import base tactics option numbers list strings.

Local Open Scope Z_scope.

(** ** Machine integers *)

Module Int64.

Definition modulus : Z := 2 ^ 64.
Definition max_int : Z := 2 ^ 63 - 1.
Definition min_int : Z := - 2 ^ 63.

(** The value an [int] (or [int64]) holds after an arithmetic operation
    whose mathematical result is [z]. *)
Definition wrap (z : Z) : Z := (z + 2 ^ 63) mod modulus - 2 ^ 63.

Definition in_range (z : Z) : Prop := min_int <= z <= max_int.

End Int64.

(** ** [hash/fnv]: the 32-bit FNV-1a hash *)

Module Fnv.

Definition offset32 : Z := 2166136261.
Definition prime32 : Z := 16777619.

(** One step of [sum32a.Write]: xor the byte in, multiply by the prime,
    keep 32 bits. *)
Definition step (h : Z) (b : byte) : Z :=
  (Z.lxor h (Z.of_N (Byte.to_N b)) * prime32) mod 2 ^ 32.

(** [h := fnv.New32a(); h.Write(bs); h.Sum32()] *)
Definition sum32a (bs : list byte) : Z := fold_left step bs offset32.

End Fnv.

(** ** [float64] and the load-factor tests *)

Module Float64.

Definition prec : Z := 53.
Definition emax : Z := 1024.

(** The conversion [float64(n)] of an integer: round to nearest, ties to
    even. *)
Definition of_int (n : Z) : spec_float := binary_normalize prec emax n 0 false.

Definition div (x y : spec_float) : spec_float := SFdiv prec emax x y.

(** The constant [0.75], that is [3 * 2^51 * 2^-53]. *)
Definition threshold : spec_float := S754_finite false 6755399441055744 (-53).

(** [float64(n)/float64(d) > 0.75] *)
Definition load_gt (n d : Z) : bool := SFltb threshold (div (of_int n) (of_int d)).

(** [float64(n)/float64(d) <= 0.75] *)
Definition load_le (n d : Z) : bool := SFleb (div (of_int n) (of_int d)) threshold.

End Float64.

(** ** [fmt.Sprintf("%v", key)] and zero values *)

(** The bytes of [fmt.Sprintf("%v", key)], for a key type [K]. *)
Class Format (K : Type) := format : K -> list byte.

(** The zero value of a type ([var result V]). *)
Class Zero (V : Type) := zero : V.

(** [%v] of a string is the string itself. *)
#[export] Instance format_string : Format string := list_byte_of_string.

(** [%v] of an [int] is its decimal numeral, with a leading [-] when it is
    negative. *)
#[export] Instance format_int : Format Z :=
  fun n => list_byte_of_string (NilZero.string_of_int (Z.to_int n)).

#[export] Instance zero_string : Zero string := EmptyString.
#[export] Instance zero_int : Zero Z := 0.

(** ** Data model *)

(** [entry[K, V]], [bucket[K, V]] and [HashTable[K, V]].  A bucket is reached
  through a pointer stored in the bucket array; no bucket is ever stored
  at two places, so the array of pointers is the list of the buckets
  themselves. *)
Record entry (K V : Type) := Entry { key : K; value : V }.
Record bucket (K V : Type) := Bucket { entries : list (entry K V) }.
Record HashTable (K V : Type) := Table {
buckets : list (bucket K V);
size : Z;
bucketSize : Z;
resizing : bool
}.

Arguments Entry {K V} _ _.
Arguments key {K V} _.
Arguments value {K V} _.
Arguments Bucket {K V} _.
Arguments entries {K V} _.
Arguments Table {K V} _ _ _ _.
Arguments buckets {K V} _.
Arguments size {K V} _.
Arguments bucketSize {K V} _.
Arguments resizing {K V} _.

(** Run-time panics the operations can raise. *)
Inductive panic := IntegerDivideByZero | IndexOutOfRange | MakeSliceLenOutOfRange.

(** Which bucket array a bucket lock belongs to: the one the table holds, or
  the one [tryResize] is filling. *)
Inductive array := Current | Fresh.

(** Fields of the table read or written without an atomic. *)
Inductive field := FBuckets | FBucketSize.

(** Synchronisation events, in the order the goroutine performs them. *)
Inductive event :=
| MuRLock | MuRUnlock | MuLock | MuUnlock
| BucketLock (a : array) (i : Z) | BucketUnlock (a : array) (i : Z)
| BucketRLock (i : Z) | BucketRUnlock (i : Z)
| SizeAdd (d : Z) | SizeLoad
| ResizingCAS (swapped : bool) | ResizingStore (b : bool)
| Read (f : field) | Write (f : field).

(** What a call does: it returns [a] in a new state, panics, or its retry
  loop is still retrying when the iterations granted to it are used up. *)
Inductive outcome (S A : Type) :=
| Done (a : A) (s : S) (l : list event)
| Panicked (p : panic)
| OutOfFuel.

Arguments Done {S A} _ _ _.
Arguments Panicked {S A} _.
Arguments OutOfFuel {S A}.

(** ** The monad of table operations *)

Module Op.
Section Op.
Context {S : Type}.

Definition M (A : Type) : Type := S -> list event -> outcome S A.

Definition ret {A} (a : A) : M A := fun s l => Done a s l.

Definition bind {A B} (m : M A) (f : A -> M B) : M B :=
  fun s l =>
    match m s l with
    | Done a s' l' => f a s' l'
    | Panicked p => Panicked p
    | OutOfFuel => OutOfFuel
    end.

Definition raise {A} (p : panic) : M A := fun _ _ => Panicked p.
Definition out_of_fuel {A} : M A := fun _ _ => OutOfFuel.
Definition emit (e : event) : M unit := fun s l => Done tt s (l ++ [e]).
Definition gets {A} (f : S -> A) : M A := fun s l => Done (f s) s l.
Definition modify (f : S -> S) : M unit := fun s l => Done tt (f s) l.

(** [a % b] on [int]: truncated remainder, a panic when [b] is zero. *)
Definition rem (a b : Z) : M Z :=
  if b =? 0 then raise IntegerDivideByZero else ret (Z.rem a b).

(** [xs[i]] for an [int] index: a panic outside [0 <= i < len(xs)]. *)
Definition index {A} (xs : list A) (i : Z) : M A :=
  if i <? 0 then raise IndexOutOfRange
  else match xs !! Z.to_nat i with
       | Some x => ret x
       | None => raise IndexOutOfRange
       end.

(** [for i, a := range xs { acc = f(i, a, acc) }], counting from [i]. *)
Fixpoint for_range {A B} (f : Z -> A -> B -> M B) (i : Z) (xs : list A) (acc : B)
  : M B :=
  match xs with
  | [] => ret acc
  | a :: xs' => bind (f i a acc) (for_range f (i + 1) xs')
  end.

End Op.
End Op.

Notation "x <- m ;; k" := (Op.bind m (fun x => k))
(at level 100, m at next level, right associativity,
 format "'[v' x  <-  m  ;;  '/' k ']'").
Notation "m ;;; k" := (Op.bind m (fun _ : unit => k))
(at level 100, right associativity).

(** ** The operations *)

Section HashTable.
(** Keys are compared with [==].  The key types considered are those on
    which [==] is a decidable equality (no floating-point NaN, no interface
    holding a value that cannot be compared), which is what the
    specification requires of keys. *)
Context {K V : Type} `{EqDecision K} `{Format K} `{Zero V}.

(** How many more times a retry loop may go round before the model gives
    up on it. *)
Variable retries : nat.

Abbreviation table := (HashTable K V).
Abbreviation M := (@Op.M table).

(** *** Scans of a bucket's entries *)

(** The [for i := range bucket.entries] loop of [Put]: the value of the
    first entry whose key is [k] is overwritten; [None] when there is no
    such entry ([updated] stays false). *)
Fixpoint update (k : K) (v : V) (es : list (entry K V)) : option (list (entry K V)) :=
  match es with
  | [] => None
  | e :: es' =>
      if decide (key e = k) then Some (Entry (key e) v :: es')
      else cons e <$> update k v es'
  end.

(** The loop of [Get]: the value of the first entry whose key is [k]. *)
Fixpoint find (k : K) (es : list (entry K V)) : option V :=
  match es with
  | [] => None
  | e :: es' => if decide (key e = k) then Some (value e) else find k es'
  end.

(** The loop of [Delete]: [append(entries[:i], entries[i+1:]...)] at the
    first [i] whose key is [k]; [None] when there is none. *)
Fixpoint remove (k : K) (es : list (entry K V)) : option (list (entry K V)) :=
  match es with
  | [] => None
  | e :: es' =>
      if decide (key e = k) then Some es'
      else cons e <$> remove k es'
  end.

(** *** Accesses to the fields *)

Definition load_bucketSize : M Z :=
  Op.emit (Read FBucketSize) ;;; Op.gets bucketSize.

Definition load_buckets : M (list (bucket K V)) :=
  Op.emit (Read FBuckets) ;;; Op.gets buckets.

Definition store_bucketSize (n : Z) : M unit :=
  Op.emit (Write FBucketSize) ;;;
  Op.modify (fun t => Table (buckets t) (size t) n (resizing t)).

Definition store_buckets (bs : list (bucket K V)) : M unit :=
  Op.emit (Write FBuckets) ;;;
  Op.modify (fun t => Table bs (size t) (bucketSize t) (resizing t)).

(** [bucket.entries = es] for the bucket that [ht.buckets[i]] points to. *)
Definition store_entries (i : Z) (es : list (entry K V)) : M unit :=
  Op.modify (fun t =>
    Table (<[Z.to_nat i := Bucket es]> (buckets t)) (size t) (bucketSize t) (resizing t)).

(** [ht.size.Add(d)], which returns the new value. *)
Definition size_add (d : Z) : M Z :=
  Op.emit (SizeAdd d) ;;;
  Op.modify (fun t =>
    Table (buckets t) (Int64.wrap (size t + d)) (bucketSize t) (resizing t)) ;;;
  Op.gets size.

Definition size_load : M Z := Op.emit SizeLoad ;;; Op.gets size.

(** [ht.resizing.CompareAndSwap(false, true)] *)
Definition resizing_cas : M bool :=
  was <- Op.gets resizing ;;
  if was then Op.emit (ResizingCAS false) ;;; Op.ret false
  else
    Op.emit (ResizingCAS true) ;;;
    Op.modify (fun t => Table (buckets t) (size t) (bucketSize t) true) ;;;
    Op.ret true.

Definition resizing_store (b : bool) : M unit :=
  Op.emit (ResizingStore b) ;;;
  Op.modify (fun t => Table (buckets t) (size t) (bucketSize t) b).

(** *** [New] *)

(** [make([]*bucket[K, V], n)] followed by the loop that points every
    element to a bucket with no entries.  A negative length is a panic.
    The limit the run-time puts on the length for lack of memory is not
    modelled: the model returns wherever the program does. *)
Definition make_buckets (n : Z) : M (list (bucket K V)) :=
  if n <? 0 then Op.raise MakeSliceLenOutOfRange
  else Op.ret (replicate (Z.to_nat n) (Bucket [])).

Definition New (initialSize : Z) : table :=
  let initialSize := if initialSize <? 1 then 16 else initialSize in
  Table (replicate (Z.to_nat initialSize) (Bucket [])) 0 initialSize false.

(** *** [hash] *)

(** [int(h.Sum32())] for the FNV-1a sum of the formatted key. *)
Definition sum (k : K) : Z := Fnv.sum32a (format k).

Definition hash (k : K) : M Z :=
  let h := sum k in
  Op.emit MuRLock ;;;
  bucketSize <- load_bucketSize ;;
  Op.emit MuRUnlock ;;;
  Op.rem h bucketSize.

(** *** [tryResize] *)

(** The body of the inner loop: one entry is appended to its bucket of the
    new array. *)
Definition place (newSize : Z) (e : entry K V) (newBuckets : list (bucket K V))
  : M (list (bucket K V)) :=
  newIndex <- Op.rem (sum (key e)) newSize ;;
  newBucket <- Op.index newBuckets newIndex ;;
  Op.emit (BucketLock Fresh newIndex) ;;;
  Op.emit (BucketUnlock Fresh newIndex) ;;;
  Op.ret (<[Z.to_nat newIndex := Bucket (entries newBucket ++ [e])]> newBuckets).

(** The body of the outer loop: the entries of one old bucket are copied
    under its lock and then placed one by one. *)
Definition migrate_bucket (newSize : Z) (i : Z) (oldBucket : bucket K V)
    (newBuckets : list (bucket K V)) : M (list (bucket K V)) :=
  Op.emit (BucketLock Current i) ;;;
  Op.emit (BucketUnlock Current i) ;;;
  Op.for_range (fun _ => place newSize) 0 (entries oldBucket) newBuckets.

Definition tryResize : M unit :=
  swapped <- resizing_cas ;;
  if negb swapped then Op.ret tt
  else
    Op.emit MuLock ;;;
    (currentSize <- size_load ;;
     bucketSize <- load_bucketSize ;;
     if Float64.load_le currentSize bucketSize then Op.ret tt
     else
       bucketSize <- load_bucketSize ;;
       let newSize := Int64.wrap (bucketSize * 2) in
       newBuckets <- make_buckets newSize ;;
       old <- load_buckets ;;
       newBuckets <- Op.for_range (migrate_bucket newSize) 0 old newBuckets ;;
       store_buckets newBuckets ;;;
       store_bucketSize newSize) ;;;
    (* the deferred function *)
    Op.emit MuUnlock ;;;
    resizing_store false.

(** *** [Put], [Get], [Delete], [Size] *)

(** The body of the loop of [Put] after [index := ht.hash(key)]; [retry] is
    what [continue] leads to. *)
Definition Put_at (index : Z) (k : K) (v : V) (retry : M unit) : M unit :=
  bs <- load_buckets ;;
  if Z.of_nat (length bs) <=? index then retry (* continue *)
  else
    bs <- load_buckets ;;
    bucket <- Op.index bs index ;;
    Op.emit (BucketLock Current index) ;;;
    match update k v (entries bucket) with
    | Some es =>
        store_entries index es ;;;
        Op.emit (BucketUnlock Current index)
    | None =>
        store_entries index (entries bucket ++ [Entry k v]) ;;;
        Op.emit (BucketUnlock Current index) ;;;
        newSize <- size_add 1 ;;
        bucketSize <- load_bucketSize ;;
        if Float64.load_gt newSize bucketSize then tryResize else Op.ret tt
    end.

Fixpoint Put_loop (fuel : nat) (k : K) (v : V) : M unit :=
  match fuel with
  | O => Op.out_of_fuel
  | S fuel =>
      index <- hash k ;;
      Put_at index k v (Put_loop fuel k v)
  end.

Definition Put (k : K) (v : V) : M unit := Put_loop (S retries) k v.

Fixpoint Get_loop (fuel : nat) (k : K) : M (V * bool) :=
  match fuel with
  | O => Op.out_of_fuel
  | S fuel =>
      index <- hash k ;;
      bs <- load_buckets ;;
      if Z.of_nat (length bs) <=? index then Get_loop fuel k (* continue *)
      else
        bs <- load_buckets ;;
        bucket <- Op.index bs index ;;
        Op.emit (BucketRLock index) ;;;
        let r := find k (entries bucket) in
        Op.emit (BucketRUnlock index) ;;;
        match r with
        | Some v => Op.ret (v, true)
        | None => Op.ret (zero, false)
        end
  end.

Definition Get (k : K) : M (V * bool) := Get_loop (S retries) k.

Fixpoint Delete_loop (fuel : nat) (k : K) : M bool :=
  match fuel with
  | O => Op.out_of_fuel
  | S fuel =>
      index <- hash k ;;
      bs <- load_buckets ;;
      if Z.of_nat (length bs) <=? index then Delete_loop fuel k (* continue *)
      else
        bs <- load_buckets ;;
        bucket <- Op.index bs index ;;
        Op.emit (BucketLock Current index) ;;;
        match remove k (entries bucket) with
        | Some es =>
            store_entries index es ;;;
            _ <- size_add (-1) ;;
            Op.emit (BucketUnlock Current index) ;;;
            Op.ret true
        | None =>
            Op.emit (BucketUnlock Current index) ;;;
            Op.ret false
        end
  end.

Definition Delete (k : K) : M bool := Delete_loop (S retries) k.

Definition Size : M Z := size_load.

(** *** Views of a table *)

(** The bucket index of a key in an array of [n] buckets. *)
Definition slot (k : K) (n : Z) : Z := Z.rem (sum k) n.

(** All entries, bucket after bucket. *)
Definition flat (bs : list (bucket K V)) : list (entry K V) :=
  concat (entries <$> bs).

Definition keys (t : table) : list K := key <$> flat (buckets t).

(** The value stored for a key, if any: the abstract map of the table. *)
Definition stored (t : table) (k : K) : option V := find k (flat (buckets t)).

(** The entries of the bucket a key hashes to. *)
Definition home (t : table) (k : K) : list (entry K V) :=
  match buckets t !! Z.to_nat (slot k (bucketSize t)) with
  | Some b => entries b
  | None => []
  end.

(** Every entry is in the bucket its key hashes to, in an array of [n]
    buckets. *)
Definition homed (bs : list (bucket K V)) (n : Z) : Prop :=
  forall i b e,
    bs !! i = Some b -> e ∈ entries b -> slot (key e) n = Z.of_nat i.

(** The representation invariant between calls. *)
Record inv (t : table) : Prop := Inv {
  inv_bucketSize : 1 <= bucketSize t <= Int64.max_int;
  inv_length : Z.of_nat (length (buckets t)) = bucketSize t;
  inv_homed : homed (buckets t) (bucketSize t);
  inv_nodup : NoDup (keys t);
  inv_size : Int64.in_range (size t);
  inv_idle : resizing t = false
}.

(** The size counter is the number of entries. *)
Definition counted (t : table) : Prop :=
  size t = Z.of_nat (length (flat (buckets t))).

(** States a single goroutine can bring a new table to.  The argument of
    [New] is an [int]. *)
Inductive reachable : table -> Prop :=
  | reach_New n : Int64.in_range n -> reachable (New n)
  | reach_Put t k v l t' l' :
      reachable t -> Put k v t l = Done tt t' l' -> reachable t'
  | reach_Get t k r l t' l' :
      reachable t -> Get k t l = Done r t' l' -> reachable t'
  | reach_Delete t k r l t' l' :
      reachable t -> Delete k t l = Done r t' l' -> reachable t'
  | reach_Size t n l t' l' :
      reachable t -> Size t l = Done n t' l' -> reachable t'.

(** *** Events of a call *)

(** What every [Put], [Get] and [Delete] does before it locks a bucket:
    [hash] reads the bucket count between [ht.mu.RLock()] and
    [ht.mu.RUnlock()]; the bucket array is then read twice, for
    [len(ht.buckets)] and for [ht.buckets[index]]. *)
Definition route : list event :=
  [MuRLock; Read FBucketSize; MuRUnlock; Read FBuckets; Read FBuckets].

(** *** Sequences of calls *)

Inductive call := CallPut (k : K) (v : V) | CallDelete (k : K).
Inductive reply := PutDone | Deleted (removed : bool).

Definition called (c : call) : K :=
  match c with CallPut k _ => k | CallDelete k => k end.

Definition step (c : call) : M reply :=
  match c with
  | CallPut k v => Put k v ;;; Op.ret PutDone
  | CallDelete k => removed <- Delete k ;; Op.ret (Deleted removed)
  end.

(** The calls are made one after the other; the result is the transcript
    of the calls with what each returned. *)
Fixpoint run (cs : list call) : M (list (call * reply)) :=
  match cs with
  | [] => Op.ret []
  | c :: cs' =>
      r <- step c ;;
      tr <- run cs' ;;
      Op.ret ((c, r) :: tr)
  end.

(** The ledger of a transcript: for every key, how many of its Puts were
    inserts and how many of its Deletes were successful.  A Put is an insert
    (a first Put) when the inserts of its key so far do not outnumber its
    successful Deletes; a Delete is successful when it returned [true]. *)
Definition ledger : Type := K -> nat * nat.

Definition count_insert (f : ledger) (k : K) : ledger :=
  fun k' => if decide (k' = k) then (S (f k').1, (f k').2) else f k'.

Definition count_delete (f : ledger) (k : K) : ledger :=
  fun k' => if decide (k' = k) then ((f k').1, S (f k').2) else f k'.

Definition tally_step (f : ledger) (cr : call * reply) : ledger :=
  match cr with
  | (CallPut k _, _) =>
      if decide ((f k).2 < (f k).1)%nat then f else count_insert f k
  | (CallDelete k, Deleted true) => count_delete f k
  | (CallDelete k, _) => f
  end.

Definition tally (tr : list (call * reply)) : ledger :=
  fold_left tally_step tr (fun _ => (0%nat, 0%nat)).

(** A ledger describes a table when exactly the keys of the table have one
    more insert than successful Deletes, and the others as many. *)
Definition agrees (f : ledger) (t : table) : Prop :=
  forall k, (f k).1 = if decide (k ∈ keys t) then S (f k).2 else (f k).2.

(** The distinct keys whose inserts outnumber their successful Deletes. *)
Definition live (tr : list (call * reply)) : list K :=
  filter (fun k => ((tally tr k).2 < (tally tr k).1)%nat)
         (remove_dups (called ∘ fst <$> tr)).

(** The key-value map a sequence of calls describes: a Put binds its key
    to its value, a Delete unbinds its key. *)
Definition apply_call (m : K -> option V) (c : call) : K -> option V :=
  match c with
  | CallPut k v => fun k' => if decide (k' = k) then Some v else m k'
  | CallDelete k => fun k' => if decide (k' = k) then None else m k'
  end.

Definition model (cs : list call) : K -> option V :=
  fold_left apply_call cs (fun _ => None).

End HashTable.

(** ** The lock discipline of the specification *)

(** [guarded held evs]: in the events [evs], every read of the bucket array
    or of the bucket count, and every lock or unlock of a bucket of the
    current array, happens while the goroutine holds [ht.mu] (shared or
    exclusive); [held] tells whether it holds it at the start. *)
Fixpoint guarded (held : bool) (evs : list event) : bool :=
  match evs with
  | [] => true
  | MuRLock :: evs' | MuLock :: evs' => guarded true evs'
  | MuRUnlock :: evs' | MuUnlock :: evs' => guarded false evs'
  | Read _ :: evs'
  | BucketLock Current _ :: evs' | BucketUnlock Current _ :: evs'
  | BucketRLock _ :: evs' | BucketRUnlock _ :: evs' => held && guarded held evs'
  | _ :: evs' => guarded held evs'
  end.

(** ** Keys of type [any] *)

(** Two of the dynamic types a key of interface type can hold.  [%v]
    prints the integer [1] and the string ["1"] alike. *)
Inductive any := AnyInt (n : Z) | AnyString (s : string).

#[export] Instance any_eq_dec : EqDecision any.
Proof. solve_decision. Defined.

#[export] Instance format_any : Format any :=
  fun a => match a with AnyInt n => format n | AnyString s => format s end.

(** ** The scenarios of the specification *)

(** What a call returned, if it returned. *)
Definition returned {S A : Type} (o : outcome S A) : option A :=
  match o with Done a _ _ => Some a | _ => None end.

(** The state a call left, or [s] if it did not return. *)
Definition final {S A : Type} (s : S) (o : outcome S A) : S :=
  match o with Done _ s' _ => s' | _ => s end.

(** Scenario A: integer keys 0..9 with the values "v0".."v9". *)
Definition scenarioA : list (@call Z string) :=
  [CallPut 0 "v0"; CallPut 1 "v1"; CallPut 2 "v2"; CallPut 3 "v3"; CallPut 4 "v4";
   CallPut 5 "v5"; CallPut 6 "v6"; CallPut 7 "v7"; CallPut 8 "v8"; CallPut 9 "v9"]%string.

Definition scenarioA_values : list (option (string * bool)) :=
  [Some ("v0", true); Some ("v1", true); Some ("v2", true); Some ("v3", true);
   Some ("v4", true); Some ("v5", true); Some ("v6", true); Some ("v7", true);
   Some ("v8", true); Some ("v9", true)]%string.

(** The table of scenario A after the ten calls (no retry is needed). *)
Definition tableA : HashTable Z string :=
  final (New 4) (run 0 scenarioA (New 4) []).

(** Calls with string keys: two Puts, a Put of a key already there, and the
    two Deletes of scenario D. *)
Definition scenarioD : list (@call string Z) :=
  [CallPut "a" 1; CallPut "b" 5; CallPut "a" 2; CallDelete "b"; CallDelete "b"]%string.

(** The table of scenario A after its first three calls: three entries in
    four buckets. *)
Definition tableA3 : HashTable Z string :=
  final (New 4) (run 0 (take 3 scenarioA) (New 4) []).

(** ** Sessions of one caller *)

Section Sessions.
Context {K V : Type} `{EqDecision K} `{Format K} `{Zero V}.
Variable retries : nat.

(** The four exported methods, as a caller uses them, and what each
    returns. *)
Inductive request :=
| ReqPut (k : K) (v : V) | ReqGet (k : K) | ReqDelete (k : K) | ReqSize.

Inductive response :=
| ResPut | ResGet (v : V) (found : bool) | ResDelete (deleted : bool) | ResSize (n : Z).

Definition serve (q : request) : @Op.M (HashTable K V) response :=
  match q with
  | ReqPut k v => Put retries k v ;;; Op.ret ResPut
  | ReqGet k => r <- Get retries k ;; Op.ret (ResGet r.1 r.2)
  | ReqDelete k => deleted <- Delete retries k ;; Op.ret (ResDelete deleted)
  | ReqSize => n <- Size ;; Op.ret (ResSize n)
  end.

(** The requests are served one after the other. *)
Fixpoint session (qs : list request) : @Op.M (HashTable K V) (list response) :=
  match qs with
  | [] => Op.ret []
  | q :: qs' =>
      r <- serve q ;;
      rs <- session qs' ;;
      Op.ret (r :: rs)
  end.

(** The reference the table is compared with: a list of pairs with at most
    one pair for a key. *)
Fixpoint assoc (k : K) (m : list (K * V)) : option V :=
  match m with
  | [] => None
  | (k', v) :: m' => if decide (k' = k) then Some v else assoc k m'
  end.

Definition unbind (k : K) (m : list (K * V)) : list (K * V) :=
  filter (fun kv => kv.1 <> k) m.

Definition ref_serve (q : request) (m : list (K * V)) : response * list (K * V) :=
  match q with
  | ReqPut k v => (ResPut, (k, v) :: unbind k m)
  | ReqGet k =>
      (match assoc k m with Some v => ResGet v true | None => ResGet zero false end, m)
  | ReqDelete k => (ResDelete (bool_decide (is_Some (assoc k m))), unbind k m)
  | ReqSize => (ResSize (Z.of_nat (length m)), m)
  end.

Fixpoint ref_session (qs : list request) (m : list (K * V)) : list response :=
  match qs with
  | [] => []
  | q :: qs' => (ref_serve q m).1 :: ref_session qs' (ref_serve q m).2
  end.

(** The reference list holds what the table holds. *)
Definition represents (m : list (K * V)) (t : HashTable K V) : Prop :=
  NoDup m.*1 /\ forall k, stored t k = assoc k m.

(** Two tables give the same answer to [Get(k)]. *)
Definition same_Get (t t' : HashTable K V) (k : K) : Prop :=
  exists r l l',
    Get retries k t [] = Done r t l /\ Get retries k t' [] = Done r t' l'.

End Sessions.

(** ** Locks held by a goroutine *)

(** [ht.mu] and the [mu] of a bucket of the current or of the new array, and
    the two ways a [sync.RWMutex] is held. *)
Inductive lock := TableMu | BucketMu (a : array) (i : Z).
Inductive mode := Shared | Exclusive.

#[export] Instance array_eq_dec : EqDecision array.
Proof. solve_decision. Defined.

#[export] Instance lock_eq_dec : EqDecision lock.
Proof. solve_decision. Defined.

#[export] Instance mode_eq_dec : EqDecision mode.
Proof. solve_decision. Defined.

Definition acquired (e : event) : option (lock * mode) :=
  match e with
  | MuRLock => Some (TableMu, Shared)
  | MuLock => Some (TableMu, Exclusive)
  | BucketLock a i => Some (BucketMu a i, Exclusive)
  | BucketRLock i => Some (BucketMu Current i, Shared)
  | _ => None
  end.

Definition released (e : event) : option (lock * mode) :=
  match e with
  | MuRUnlock => Some (TableMu, Shared)
  | MuUnlock => Some (TableMu, Exclusive)
  | BucketUnlock a i => Some (BucketMu a i, Exclusive)
  | BucketRUnlock i => Some (BucketMu Current i, Shared)
  | _ => None
  end.

Definition is_bucket (l : lock) : bool :=
  match l with BucketMu _ _ => true | TableMu => false end.

(** [held_after held evs]: the locks the goroutine holds after the events
    [evs], the latest first, when it held [held] before them.  The result
    is [None] when the events take a lock while the goroutine holds a
    bucket lock or that very lock (a [sync.RWMutex] is not reentrant), or
    release anything but the lock taken last, in the mode it was taken. *)
Fixpoint held_after (held : list (lock * mode)) (evs : list event)
  : option (list (lock * mode)) :=
  match evs with
  | [] => Some held
  | e :: evs' =>
      match acquired e, released e with
      | Some lm, _ =>
          if forallb (fun h => negb (is_bucket h.1) && negb (bool_decide (h.1 = lm.1))) held
          then held_after (lm :: held) evs'
          else None
      | None, Some lm =>
          match held with
          | h :: held' => if decide (h = lm) then held_after held' evs' else None
          | [] => None
          end
      | None, None => held_after held evs'
      end
  end.

(** Events that leave the locks as they find them, when no bucket lock is
    held before them: what they take they release. *)
Definition balanced (evs : list event) : Prop :=
  forall held,
    forallb (fun h => negb (is_bucket h.1)) held = true ->
    held_after held evs = Some held.

(** ** More scenarios *)

(** The events a call logged, if it returned. *)
Definition events {S A : Type} (o : outcome S A) : list event :=
  match o with Done _ _ l => l | _ => [] end.

(** The table of scenario A after its first four calls: the fourth doubled
    the four buckets. *)
Definition tableA4 : HashTable Z string :=
  final tableA3 (Put 0 3 "v3"%string tableA3 []).

(** The calls of [TestBasicOperations], which makes them on [New(16)]. *)
Definition basicOperations : list (@request string Z) :=
  [ReqPut "one" 1; ReqPut "two" 2; ReqPut "three" 3; ReqSize;
   ReqGet "one"; ReqGet "nonexistent"; ReqPut "one" 100; ReqGet "one";
   ReqDelete "two"; ReqGet "two"; ReqDelete "nonexistent"]%string.

(** ** The events of a resize and of a [Put] *)

Section CallEvents.
Context {K V : Type} `{EqDecision K} `{Format K}.

(** The inner loop of [tryResize] over the copied entries of one old
    bucket: each entry's new bucket is locked and unlocked. *)
Fixpoint place_events (newSize : Z) (es : list (entry K V)) : list event :=
  match es with
  | [] => []
  | e :: es' =>
      [BucketLock Fresh (slot (key e) newSize); BucketUnlock Fresh (slot (key e) newSize)]
      ++ place_events newSize es'
  end.

(** The outer loop, from old bucket [i] on: the old bucket is locked and
    unlocked for the copy, then its entries are placed. *)
Fixpoint migrate_events (newSize : Z) (i : Z) (old : list (bucket K V)) : list event :=
  match old with
  | [] => []
  | b :: old' =>
      [BucketLock Current i; BucketUnlock Current i]
      ++ place_events newSize (entries b)
      ++ migrate_events newSize (i + 1) old'
  end.

(** What [tryResize] does on the locks, the atomics and the fields when it
    wins the flag. *)
Definition tryResize_events (t : HashTable K V) : list event :=
  [ResizingCAS true; MuLock; SizeLoad; Read FBucketSize]
  ++ (if Float64.load_le (size t) (bucketSize t) then []
      else [Read FBucketSize; Read FBuckets]
           ++ migrate_events (Int64.wrap (bucketSize t * 2)) 0 (buckets t)
           ++ [Write FBuckets; Write FBucketSize])
  ++ [MuUnlock; ResizingStore false].

(** What [Delete(k)] does after [route]. *)
Definition Delete_events (k : K) (t : HashTable K V) : list event :=
  [BucketLock Current (slot k (bucketSize t))]
  ++ (if decide (k ∈ keys t) then [SizeAdd (-1)] else [])
  ++ [BucketUnlock Current (slot k (bucketSize t))].

(** The table [Put(k, v)] of a new key has made when it has appended the
    entry and added one to the size counter. *)
Definition appended (k : K) (v : V) (t : HashTable K V) : HashTable K V :=
  Table (<[Z.to_nat (slot k (bucketSize t)) := Bucket (home t k ++ [Entry k v])]> (buckets t))
        (Int64.wrap (size t + 1)) (bucketSize t) (resizing t).

(** What [Put(k, v)] does after [route]. *)
Definition Put_events (k : K) (v : V) (t : HashTable K V) : list event :=
  [BucketLock Current (slot k (bucketSize t)); BucketUnlock Current (slot k (bucketSize t))]
  ++ (if decide (k ∈ keys t) then []
      else [SizeAdd 1; Read FBucketSize]
           ++ (if Float64.load_gt (Int64.wrap (size t + 1)) (bucketSize t)
               then tryResize_events (appended k v t) else [])).

(** The events in which [ht.mu] is taken or released in shared mode. *)
Definition shared_mu (e : event) : bool :=
  match e with MuRLock | MuRUnlock => true | _ => false end.

End CallEvents.
(** * Facts *)

(** ** Machine integers and hashing *)

Lemma Int64_wrap_in_range z : Int64.in_range (Int64.wrap z).
Proof.
  unfold Int64.in_range, Int64.wrap, Int64.min_int, Int64.max_int, Int64.modulus.
  pose proof (Z.mod_pos_bound (z + 2 ^ 63) (2 ^ 64)). lia.
Qed.

Lemma Int64_wrap_small z : Int64.in_range z -> Int64.wrap z = z.
Proof.
  unfold Int64.in_range, Int64.wrap, Int64.min_int, Int64.max_int, Int64.modulus.
  intros Hz. rewrite Z.mod_small by lia. lia.
Qed.

(** Doubling a positive [int] that does not fit any more gives a negative
    one. *)
Lemma Int64_wrap_double_neg z :
  0 < z -> z <= Int64.max_int -> Int64.max_int < z * 2 -> Int64.wrap (z * 2) < 0.
Proof.
  unfold Int64.wrap, Int64.max_int, Int64.modulus. intros Hpos Hz Hbig.
  replace (z * 2 + 2 ^ 63) with ((z * 2 - 2 ^ 63) + 1 * 2 ^ 64) by lia.
  rewrite Z.mod_add by lia. rewrite Z.mod_small by lia. lia.
Qed.

Lemma Fnv_step_range h b : 0 <= Fnv.step h b < 2 ^ 32.
Proof. unfold Fnv.step. apply Z.mod_pos_bound. lia. Qed.

Lemma Fnv_fold_step_range bs h :
  0 <= h < 2 ^ 32 -> 0 <= fold_left Fnv.step bs h < 2 ^ 32.
Proof.
  revert h. induction bs as [|b bs IH]; intros h Hh; simpl; [exact Hh|].
  apply IH, Fnv_step_range.
Qed.

Lemma Fnv_sum32a_range bs : 0 <= Fnv.sum32a bs < 2 ^ 32.
Proof. apply Fnv_fold_step_range. unfold Fnv.offset32. lia. Qed.

(** ** Scans of a bucket *)

Section Scans.
Context {K V : Type} `{EqDecision K}.
Implicit Types (k : K) (v : V) (e : entry K V) (es : list (entry K V)).

Lemma entry_eta e : Entry (key e) (value e) = e.
Proof. by destruct e. Qed.

Lemma find_None k es : find k es = None <-> k ∉ key <$> es.
Proof.
  induction es as [|e es IH]; simpl.
  - split; [intros _; apply not_elem_of_nil | done].
  - rewrite not_elem_of_cons. destruct (decide (key e = k)) as [->|Hne].
    + split; [done | intros [? _]; done].
    + rewrite IH. split; [intros ?; split; [congruence | done] | intros [_ ?]; done].
Qed.

Lemma find_Some_elem k v es : find k es = Some v -> Entry k v ∈ es.
Proof.
  induction es as [|e es IH]; simpl; [done|].
  destruct (decide (key e = k)) as [<-|Hne].
  - intros [= <-]. rewrite entry_eta. apply list_elem_of_here.
  - intros Hf. apply list_elem_of_further, IH, Hf.
Qed.

Lemma find_is_Some k es : is_Some (find k es) <-> k ∈ key <$> es.
Proof.
  rewrite <- not_eq_None_Some, find_None.
  split; [apply dec_stable | intros ? ?; done].
Qed.

Lemma find_app k es1 es2 :
  find k (es1 ++ es2) =
  match find k es1 with Some v => Some v | None => find k es2 end.
Proof.
  induction es1 as [|e es1 IH]; simpl; [done|].
  destruct (decide (key e = k)); [done | apply IH].
Qed.

Lemma find_elem k v es :
  NoDup (key <$> es) -> Entry k v ∈ es -> find k es = Some v.
Proof.
  induction es as [|e es IH]; simpl; intros Hnd Hin.
  - by apply elem_of_nil in Hin.
  - apply NoDup_cons in Hnd as [Hnotin Hnd].
    apply elem_of_cons in Hin as [<-|Hin]; simpl.
    + by rewrite decide_True.
    + rewrite decide_False; [by apply IH|].
      intros Heq. apply Hnotin. rewrite Heq.
      by apply (list_elem_of_fmap_2 key _ (Entry k v)).
Qed.

(** Under distinct keys the scan does not depend on the order of the
    entries. *)
Lemma find_perm k es es' :
  NoDup (key <$> es) -> es ≡ₚ es' -> find k es' = find k es.
Proof.
  intros Hnd Hp.
  assert (Hnd' : NoDup (key <$> es')) by (by rewrite <- Hp).
  destruct (find k es) as [v|] eqn:Hf.
  - apply find_elem; [done|]. rewrite <- Hp. by apply find_Some_elem.
  - apply find_None. rewrite <- Hp. by apply find_None.
Qed.

Lemma update_None k v es : update k v es = None <-> find k es = None.
Proof.
  induction es as [|e es IH]; simpl; [done|].
  destruct (decide (key e = k)); [done|].
  rewrite fmap_None. apply IH.
Qed.

Lemma update_Some k v es es' :
  update k v es = Some es' ->
  exists pre e post,
    es = pre ++ e :: post /\ key e = k /\ es' = pre ++ Entry k v :: post.
Proof.
  revert es'. induction es as [|e es IH]; simpl; intros es'; [done|].
  destruct (decide (key e = k)) as [Hk|Hne].
  - intros [= <-]. exists [], e, es. by rewrite Hk.
  - intros Hu. apply fmap_Some in Hu as (es'' & Hu & ->).
    destruct (IH _ Hu) as (pre & e' & post & -> & Hk & ->).
    by exists (e :: pre), e', post.
Qed.

Lemma remove_None k es : remove k es = None <-> find k es = None.
Proof.
  induction es as [|e es IH]; simpl; [done|].
  destruct (decide (key e = k)); [done|].
  rewrite fmap_None. apply IH.
Qed.

Lemma remove_Some k es es' :
  remove k es = Some es' ->
  exists pre e post, es = pre ++ e :: post /\ key e = k /\ es' = pre ++ post.
Proof.
  revert es'. induction es as [|e es IH]; simpl; intros es'; [done|].
  destruct (decide (key e = k)) as [Hk|Hne].
  - intros [= <-]. by exists [], e, es.
  - intros Hu. apply fmap_Some in Hu as (es'' & Hu & ->).
    destruct (IH _ Hu) as (pre & e' & post & -> & Hk & ->).
    by exists (e :: pre), e', post.
Qed.

End Scans.

(** ** Buckets and the entries of a table *)

Section Buckets.
Context {K V : Type} `{EqDecision K} `{Format K}.
Implicit Types (k : K) (v : V) (e : entry K V) (es : list (entry K V)).
Implicit Types (b : bucket K V) (bs : list (bucket K V)) (t : HashTable K V).

Lemma slot_range k n : 1 <= n -> 0 <= slot k n < n.
Proof.
  intros Hn. unfold slot, sum. apply Z.rem_bound_pos; [|lia].
  apply Fnv_sum32a_range.
Qed.

Lemma flat_app bs1 bs2 : flat (bs1 ++ bs2) = flat bs1 ++ flat bs2.
Proof. unfold flat. by rewrite fmap_app, concat_app. Qed.

Lemma flat_cons b bs : flat (b :: bs) = entries b ++ flat bs.
Proof. done. Qed.

Lemma flat_split bs i b :
  bs !! i = Some b ->
  flat bs = flat (take i bs) ++ entries b ++ flat (drop (S i) bs).
Proof.
  intros Hi. rewrite <- (take_drop_middle bs i b Hi) at 1.
  by rewrite flat_app, flat_cons.
Qed.

Lemma flat_insert bs i b b' :
  bs !! i = Some b ->
  flat (<[i:=b']> bs) = flat (take i bs) ++ entries b' ++ flat (drop (S i) bs).
Proof.
  intros Hi. rewrite insert_take_drop by (by eapply lookup_lt_Some).
  by rewrite flat_app, flat_cons.
Qed.

Lemma flat_elem e bs :
  e ∈ flat bs <-> exists i b, bs !! i = Some b /\ e ∈ entries b.
Proof.
  induction bs as [|b0 bs IH].
  - split; [by intros ?%elem_of_nil | by intros (i & b & ? & _)].
  - rewrite flat_cons, elem_of_app, IH. split.
    + intros [He|(i & b & Hi & He)]; [by exists 0%nat, b0 | by exists (S i), b].
    + intros ([|i] & b & Hi & He); simpl in Hi; [left; congruence | right; eauto].
Qed.

Lemma flat_replicate_nil n : flat (replicate n (@Bucket K V [])) = [].
Proof. induction n as [|n IH]; [done|]. by rewrite replicate_S, flat_cons, IH. Qed.

(** A key is found nowhere but in the bucket it hashes to. *)
Lemma homed_elsewhere bs n i b k :
  homed bs n -> bs !! i = Some b -> slot k n = Z.of_nat i ->
  (k ∉ key <$> flat (take i bs)) /\ (k ∉ key <$> flat (drop (S i) bs)).
Proof.
  intros Hh Hi Hk. split; intros Hin.
  - apply list_elem_of_fmap in Hin as (e & -> & He).
    apply flat_elem in He as (j & b' & Hj & He).
    assert (j < i)%nat.
    { apply lookup_lt_Some in Hj. rewrite length_take in Hj. lia. }
    rewrite lookup_take_lt in Hj by done.
    pose proof (Hh _ _ _ Hj He). lia.
  - apply list_elem_of_fmap in Hin as (e & -> & He).
    apply flat_elem in He as (j & b' & Hj & He).
    rewrite lookup_drop in Hj.
    pose proof (Hh _ _ _ Hj He). lia.
Qed.

Lemma home_lookup t k :
  inv t -> exists b,
    buckets t !! Z.to_nat (slot k (bucketSize t)) = Some b /\ home t k = entries b.
Proof.
  intros Ht. pose proof (slot_range k _ (proj1 (inv_bucketSize _ Ht))) as Hr.
  destruct (lookup_lt_is_Some_2 (buckets t) (Z.to_nat (slot k (bucketSize t)))) as [b Hb].
  { pose proof (inv_length _ Ht). lia. }
  exists b. split; [done|]. unfold home. by rewrite Hb.
Qed.

Lemma stored_home t k : inv t -> stored t k = find k (home t k).
Proof.
  intros Ht. destruct (home_lookup t k Ht) as (b & Hb & ->).
  pose proof (slot_range k _ (proj1 (inv_bucketSize _ Ht))) as Hr.
  destruct (homed_elsewhere _ _ _ _ k (inv_homed _ Ht) Hb) as [Hpre Hpost]; [lia|].
  unfold stored. rewrite (flat_split _ _ _ Hb), !find_app.
  apply find_None in Hpre, Hpost. rewrite Hpre, Hpost.
  by destruct (find k (entries b)).
Qed.

Lemma stored_is_Some t k : is_Some (stored t k) <-> k ∈ keys t.
Proof. apply find_is_Some. Qed.

Lemma stored_None t k : stored t k = None <-> k ∉ keys t.
Proof. apply find_None. Qed.

End Buckets.

(** ** What the calls compute *)

Ltac op_cbn :=
  unfold load_buckets, load_bucketSize, store_entries, store_buckets,
         store_bucketSize, size_add, size_load, resizing_cas, resizing_store;
  unfold Op.bind, Op.emit, Op.ret, Op.gets, Op.modify, Op.raise;
  cbn [buckets size bucketSize resizing negb].

Ltac log_norm := rewrite <- ?app_assoc; cbn [app].

Section Calls.
Context {K V : Type} `{EqDecision K} `{Format K} `{Zero V}.
Variable retries : nat.
Implicit Types (k : K) (v : V) (e : entry K V) (es : list (entry K V)).
Implicit Types (b : bucket K V) (bs : list (bucket K V)) (t : HashTable K V).
Implicit Types (l : list event).

Lemma hash_run k t l :
  bucketSize t <> 0 ->
  hash k t l = Done (slot k (bucketSize t)) t (l ++ [MuRLock; Read FBucketSize; MuRUnlock]).
Proof.
  intros Hn. unfold hash. op_cbn. unfold Op.rem.
  apply Z.eqb_neq in Hn. rewrite Hn. by log_norm.
Qed.

(** The first part of every loop body: the index is computed and the bucket
    read. *)
Ltac enter_bucket Ht k Hb :=
  let Hr := fresh "Hr" in
  let Hlen := fresh "Hlen" in
  pose proof (slot_range k _ (proj1 (inv_bucketSize _ Ht))) as Hr;
  pose proof (inv_length _ Ht) as Hlen;
  op_cbn; rewrite hash_run by lia; op_cbn;
  rewrite (proj2 (Z.leb_gt _ _)) by lia; op_cbn; unfold Op.index;
  rewrite (proj2 (Z.ltb_ge _ _)) by lia; rewrite Hb; op_cbn.

Lemma Get_run k t l :
  inv t ->
  Get retries k t l =
  Done (match find k (home t k) with Some v => (v, true) | None => (zero, false) end)
       t (l ++ route ++ [BucketRLock (slot k (bucketSize t));
                         BucketRUnlock (slot k (bucketSize t))]).
Proof.
  intros Ht. destruct (home_lookup t k Ht) as (b & Hb & ->).
  unfold Get. cbn [Get_loop]. enter_bucket Ht k Hb.
  unfold route. log_norm. by destruct (find k (entries b)).
Qed.

Lemma Delete_run k t l :
  inv t ->
  Delete retries k t l =
  match remove k (home t k) with
  | Some es =>
      Done true
        (Table (<[Z.to_nat (slot k (bucketSize t)) := Bucket es]> (buckets t))
               (Int64.wrap (size t + -1)) (bucketSize t) (resizing t))
        (l ++ route ++ [BucketLock Current (slot k (bucketSize t)); SizeAdd (-1);
                        BucketUnlock Current (slot k (bucketSize t))])
  | None =>
      Done false t
        (l ++ route ++ [BucketLock Current (slot k (bucketSize t));
                        BucketUnlock Current (slot k (bucketSize t))])
  end.
Proof.
  intros Ht. destruct (home_lookup t k Ht) as (b & Hb & ->).
  unfold Delete. cbn [Delete_loop]. enter_bucket Ht k Hb.
  unfold route. destruct (remove k (entries b)); op_cbn; by log_norm.
Qed.

(** [Put] up to the point where it may ask for a resize. *)
Lemma Put_run k v t l :
  inv t ->
  Put retries k v t l =
  match update k v (home t k) with
  | Some es =>
      Done tt
        (Table (<[Z.to_nat (slot k (bucketSize t)) := Bucket es]> (buckets t))
               (size t) (bucketSize t) (resizing t))
        (l ++ route ++ [BucketLock Current (slot k (bucketSize t));
                        BucketUnlock Current (slot k (bucketSize t))])
  | None =>
      let t1 :=
        Table (<[Z.to_nat (slot k (bucketSize t)) := Bucket (home t k ++ [Entry k v])]>
                 (buckets t))
              (Int64.wrap (size t + 1)) (bucketSize t) (resizing t) in
      let l1 :=
        l ++ route ++ [BucketLock Current (slot k (bucketSize t));
                       BucketUnlock Current (slot k (bucketSize t));
                       SizeAdd 1; Read FBucketSize] in
      if Float64.load_gt (size t1) (bucketSize t) then tryResize t1 l1
      else Done tt t1 l1
  end.
Proof.
  intros Ht. destruct (home_lookup t k Ht) as (b & Hb & ->).
  unfold Put. cbn [Put_loop]. unfold Put_at. enter_bucket Ht k Hb.
  unfold route. destruct (update k v (entries b)); op_cbn; log_norm; [by log_norm|].
  by destruct (Float64.load_gt _ _); log_norm.
Qed.

(** *** The migration *)

(** A loop whose body leaves the table alone and only adds events. *)
Lemma for_range_keeps {A B} (f : Z -> A -> B -> Op.M B) (P : list A -> B -> Prop) :
  (forall i a seen acc t l, P seen acc ->
     exists acc' evs, f i a acc t l = Done acc' t (l ++ evs) /\ P (seen ++ [a]) acc') ->
  forall xs i seen acc t l, P seen acc ->
    exists acc' evs,
      Op.for_range f i xs acc t l = Done acc' t (l ++ evs) /\ P (seen ++ xs) acc'.
Proof.
  intros Hf xs. induction xs as [|a xs IH]; intros i seen acc t l HP.
  - exists acc, []. by rewrite !app_nil_r.
  - destruct (Hf i a seen acc t l HP) as (acc1 & evs1 & Hrun1 & HP1).
    destruct (IH (i + 1) _ _ t (l ++ evs1) HP1) as (acc2 & evs2 & Hrun2 & HP2).
    exists acc2, (evs1 ++ evs2). cbn [Op.for_range]. unfold Op.bind.
    rewrite Hrun1, Hrun2. by rewrite <- !app_assoc in *.
Qed.

Lemma homed_insert bs n i es :
  homed bs n -> (forall e, e ∈ es -> slot (key e) n = Z.of_nat i) ->
  homed (<[i := Bucket es]> bs) n.
Proof.
  intros Hh Hes j b' e' Hj He'.
  destruct (decide (i = j)) as [<-|Hne].
  - assert (i < length bs)%nat as Hlt.
    { apply lookup_lt_Some in Hj. by rewrite length_insert in Hj. }
    rewrite list_lookup_insert_eq in Hj by done.
    injection Hj as <-. by apply Hes.
  - rewrite list_lookup_insert_ne in Hj by done. by eapply Hh.
Qed.

Lemma flat_insert_snoc bs i b e :
  bs !! i = Some b -> flat (<[i := Bucket (entries b ++ [e])]> bs) ≡ₚ flat bs ++ [e].
Proof.
  intros Hi. rewrite (flat_insert _ _ _ _ Hi), (flat_split _ _ _ Hi). cbn.
  rewrite <- !app_assoc. do 2 f_equiv. apply Permutation_app_comm.
Qed.

Lemma place_keeps n e nb src t l :
  1 <= n ->
  Z.of_nat (length nb) = n /\ homed nb n /\ flat nb ≡ₚ src ->
  exists nb' evs,
    place n e nb t l = Done nb' t (l ++ evs) /\
    (Z.of_nat (length nb') = n /\ homed nb' n /\ flat nb' ≡ₚ src ++ [e]).
Proof.
  intros Hn (Hlen & Hh & Hp).
  pose proof (slot_range (key e) n Hn) as Hr.
  destruct (lookup_lt_is_Some_2 nb (Z.to_nat (slot (key e) n))) as [b Hb]; [lia|].
  eexists _, _. split.
  - unfold place. op_cbn. unfold Op.rem. rewrite (proj2 (Z.eqb_neq _ _)) by lia.
    op_cbn. unfold Op.index. fold (slot (key e) n).
    rewrite (proj2 (Z.ltb_ge _ _)) by lia. rewrite Hb. op_cbn.
    by log_norm.
  - split; [by rewrite length_insert|]. split.
    + apply homed_insert; [done|]. intros e' [He'|He']%elem_of_app.
      * rewrite (Hh _ _ _ Hb He'). lia.
      * apply list_elem_of_singleton in He' as ->. lia.
    + by rewrite flat_insert_snoc, Hp.
Qed.

Lemma migrate_bucket_keeps n i ob nb src t l :
  1 <= n ->
  Z.of_nat (length nb) = n /\ homed nb n /\ flat nb ≡ₚ src ->
  exists nb' evs,
    migrate_bucket n i ob nb t l = Done nb' t (l ++ evs) /\
    (Z.of_nat (length nb') = n /\ homed nb' n /\ flat nb' ≡ₚ src ++ entries ob).
Proof.
  intros Hn Hnb.
  destruct (for_range_keeps (fun _ => place n)
              (fun seen acc =>
                 Z.of_nat (length acc) = n /\ homed acc n /\ flat acc ≡ₚ src ++ seen))
    with (xs := entries ob) (i := 0) (seen := @nil (entry K V)) (acc := nb) (t := t)
         (l := l ++ [BucketLock Current i; BucketUnlock Current i])
    as (nb' & evs & Hrun & Hnb').
  - intros j a seen acc t0 l0 Hacc.
    destruct (place_keeps n a acc (src ++ seen) t0 l0 Hn Hacc) as (acc' & evs & ? & ?).
    exists acc', evs. by rewrite (assoc_L (++)).
  - by rewrite app_nil_r.
  - exists nb', ([BucketLock Current i; BucketUnlock Current i] ++ evs). split; [|done].
    unfold migrate_bucket. op_cbn. log_norm. by rewrite <- app_assoc in Hrun.
Qed.

Lemma migrate_keeps n old t l :
  1 <= n ->
  exists nb' evs,
    Op.for_range (migrate_bucket n) 0 old (replicate (Z.to_nat n) (Bucket [])) t l
      = Done nb' t (l ++ evs) /\
    (Z.of_nat (length nb') = n /\ homed nb' n /\ flat nb' ≡ₚ flat old).
Proof.
  intros Hn.
  destruct (for_range_keeps (migrate_bucket n)
              (fun seen acc =>
                 Z.of_nat (length acc) = n /\ homed acc n /\ flat acc ≡ₚ flat seen))
    with (xs := old) (i := 0) (seen := @nil (bucket K V))
         (acc := replicate (Z.to_nat n) (@Bucket K V [])) (t := t) (l := l)
    as (nb' & evs & Hrun & Hnb').
  - intros j ob seen acc t0 l0 Hacc.
    destruct (migrate_bucket_keeps n j ob acc (flat seen) t0 l0 Hn Hacc)
      as (acc' & evs & ? & ?).
    exists acc', evs. rewrite flat_app, flat_cons.
    change (flat (@nil (bucket K V))) with (@nil (entry K V)). by rewrite app_nil_r.
  - split; [rewrite length_replicate; lia|]. split.
    + intros i b e Hi He. apply lookup_replicate in Hi as [-> _].
      by apply elem_of_nil in He.
    + by rewrite flat_replicate_nil.
  - by exists nb', evs.
Qed.

(** *** [tryResize] *)

Lemma tryResize_idle t l :
  inv t -> Float64.load_le (size t) (bucketSize t) = true ->
  tryResize t l =
  Done tt t (l ++ [ResizingCAS true; MuLock; SizeLoad; Read FBucketSize;
                   MuUnlock; ResizingStore false]).
Proof.
  intros Ht Hle. pose proof (inv_idle _ Ht) as Hidle.
  destruct t as [bs sz n r]. cbn in *. subst r.
  unfold tryResize. op_cbn. rewrite Hle. op_cbn. by log_norm.
Qed.

Lemma tryResize_overflow t l :
  inv t -> Float64.load_le (size t) (bucketSize t) = false ->
  Int64.max_int < bucketSize t * 2 ->
  tryResize t l = Panicked MakeSliceLenOutOfRange.
Proof.
  intros Ht Hle Hbig. pose proof (inv_idle _ Ht) as Hidle.
  pose proof (inv_bucketSize _ Ht) as Hn.
  destruct t as [bs sz n r]. cbn in *. subst r.
  unfold tryResize. op_cbn. rewrite Hle. op_cbn. unfold make_buckets.
  rewrite (proj2 (Z.ltb_lt _ _)) by (apply Int64_wrap_double_neg; lia).
  done.
Qed.

Lemma tryResize_grow t l :
  inv t -> Float64.load_le (size t) (bucketSize t) = false ->
  bucketSize t * 2 <= Int64.max_int ->
  exists nb evs,
    tryResize t l = Done tt (Table nb (size t) (bucketSize t * 2) false) (l ++ evs) /\
    Z.of_nat (length nb) = bucketSize t * 2 /\
    homed nb (bucketSize t * 2) /\
    flat nb ≡ₚ flat (buckets t).
Proof.
  intros Ht Hle Hfit. pose proof (inv_idle _ Ht) as Hidle.
  pose proof (inv_bucketSize _ Ht) as Hn.
  destruct t as [bs sz n r]. cbn in *. subst r.
  assert (Hw : Int64.wrap (n * 2) = n * 2).
  { apply Int64_wrap_small. unfold Int64.in_range, Int64.min_int, Int64.max_int in *. lia. }
  destruct (migrate_keeps (n * 2) bs (Table bs sz n true)
              (l ++ [ResizingCAS true; MuLock; SizeLoad; Read FBucketSize;
                     Read FBucketSize; Read FBuckets]))
    as (nb & evs & Hrun & Hnb); [lia|].
  exists nb, ([ResizingCAS true; MuLock; SizeLoad; Read FBucketSize;
               Read FBucketSize; Read FBuckets]
              ++ evs ++ [Write FBuckets; Write FBucketSize; MuUnlock; ResizingStore false]).
  split; [|done].
  unfold tryResize. op_cbn. rewrite Hle. op_cbn. unfold make_buckets. rewrite Hw.
  rewrite (proj2 (Z.ltb_ge _ _)) by lia. op_cbn. log_norm.
  rewrite Hrun. op_cbn. by log_norm.
Qed.

End Calls.

(** ** Scans, continued: what [update] and [remove] keep *)

Section ScansMore.
Context {K V : Type} `{EqDecision K}.
Implicit Types (k : K) (v : V) (e : entry K V) (es : list (entry K V)).

Lemma update_keys k v es es' : update k v es = Some es' -> key <$> es' = key <$> es.
Proof.
  intros (pre & e & post & -> & <- & ->)%update_Some.
  by rewrite !fmap_app, !fmap_cons.
Qed.

Lemma update_find_same k v es es' : update k v es = Some es' -> find k es' = Some v.
Proof.
  revert es'. induction es as [|e es IH]; intros es'; cbn; [done|].
  destruct (decide (key e = k)) as [Hk|Hne].
  - intros [= <-]. cbn. by rewrite decide_True.
  - intros (es'' & Hu & ->)%fmap_Some. cbn. rewrite decide_False by done. by apply IH.
Qed.

Lemma update_find_other k k' v es es' :
  update k v es = Some es' -> k' <> k -> find k' es' = find k' es.
Proof.
  intros (pre & e & post & -> & <- & ->)%update_Some Hne.
  rewrite !find_app. cbn. by rewrite !decide_False by done.
Qed.

Lemma remove_perm k es es' :
  remove k es = Some es' -> exists e, key e = k /\ es ≡ₚ e :: es'.
Proof.
  intros (pre & e & post & -> & <- & ->)%remove_Some.
  exists e. split; [done|]. by rewrite Permutation_middle.
Qed.

Lemma remove_find_other k k' es es' :
  remove k es = Some es' -> k' <> k -> find k' es' = find k' es.
Proof.
  intros (pre & e & post & -> & <- & ->)%remove_Some Hne.
  rewrite !find_app. cbn. by rewrite decide_False by done.
Qed.

End ScansMore.

(** ** The effect of the calls on a table that satisfies the invariant *)

Section Effects.
Context {K V : Type} `{EqDecision K} `{Format K} `{Zero V}.
Variable retries : nat.
Implicit Types (k : K) (v : V) (e : entry K V) (es : list (entry K V)).
Implicit Types (b : bucket K V) (bs : list (bucket K V)) (t : HashTable K V).
Implicit Types (l : list event).

Lemma keys_flat_split bs i b :
  bs !! i = Some b ->
  key <$> flat bs =
  (key <$> flat (take i bs)) ++ (key <$> entries b) ++ (key <$> flat (drop (S i) bs)).
Proof. intros Hi. by rewrite (flat_split _ _ _ Hi), !fmap_app. Qed.

Lemma keys_flat_insert bs i b b' :
  bs !! i = Some b ->
  key <$> flat (<[i:=b']> bs) =
  (key <$> flat (take i bs)) ++ (key <$> entries b') ++ (key <$> flat (drop (S i) bs)).
Proof. intros Hi. by rewrite (flat_insert _ _ _ _ Hi), !fmap_app. Qed.

Lemma inv_store_entries t i es sz :
  inv t ->
  (forall e, e ∈ es -> slot (key e) (bucketSize t) = Z.of_nat i) ->
  NoDup (key <$> flat (<[i := Bucket es]> (buckets t))) ->
  Int64.in_range sz ->
  inv (Table (<[i := Bucket es]> (buckets t)) sz (bucketSize t) (resizing t)).
Proof.
  intros [Hn Hlen Hh Hnd Hsz Hidle] Hes Hnd' Hsz'. split; cbn; try done.
  - by rewrite length_insert.
  - by apply homed_insert.
Qed.

Lemma stored_store_entries t i b es sz k :
  inv t ->
  inv (Table (<[i := Bucket es]> (buckets t)) sz (bucketSize t) (resizing t)) ->
  buckets t !! i = Some b ->
  stored (Table (<[i := Bucket es]> (buckets t)) sz (bucketSize t) (resizing t)) k =
  if decide (Z.to_nat (slot k (bucketSize t)) = i) then find k es else stored t k.
Proof.
  intros Ht Ht' Hb. rewrite (stored_home _ _ Ht'), (stored_home _ _ Ht).
  unfold home. cbn. destruct (decide _) as [->|Hne].
  - rewrite list_lookup_insert_eq by (by eapply lookup_lt_Some). done.
  - by rewrite list_lookup_insert_ne by done.
Qed.

(** *** [Get] *)

Lemma Get_stored k t l :
  inv t ->
  Get retries k t l =
  Done (match stored t k with Some v => (v, true) | None => (zero, false) end)
       t (l ++ route ++ [BucketRLock (slot k (bucketSize t));
                         BucketRUnlock (slot k (bucketSize t))]).
Proof. intros Ht. rewrite (stored_home _ _ Ht). by apply Get_run. Qed.

(** *** [Put] of a key that is in the table *)

Lemma Put_present k v t l :
  inv t -> k ∈ keys t ->
  exists t',
    Put retries k v t l =
      Done tt t' (l ++ route ++ [BucketLock Current (slot k (bucketSize t));
                                 BucketUnlock Current (slot k (bucketSize t))]) /\
    inv t' /\
    (fun b => key <$> entries b) <$> buckets t' = (fun b => key <$> entries b) <$> buckets t /\
    stored t' k = Some v /\
    (forall k', k' <> k -> stored t' k' = stored t k') /\
    size t' = size t /\ bucketSize t' = bucketSize t.
Proof.
  intros Ht Hin. destruct (home_lookup t k Ht) as (b & Hb & Hhome).
  pose proof (slot_range k _ (proj1 (inv_bucketSize _ Ht))) as Hr.
  apply stored_is_Some in Hin as [v0 Hv0].
  rewrite (stored_home _ _ Ht), Hhome in Hv0.
  destruct (update k v (entries b)) as [es'|] eqn:Hu;
    [|apply update_None in Hu; congruence].
  pose proof (update_keys _ _ _ _ Hu) as Hkeys.
  assert (Ht' : inv (Table (<[Z.to_nat (slot k (bucketSize t)) := Bucket es']> (buckets t))
                           (size t) (bucketSize t) (resizing t))).
  { apply inv_store_entries; [done| |..].
    - intros e He. apply (list_elem_of_fmap_2 key) in He. rewrite Hkeys in He.
      apply list_elem_of_fmap in He as (e0 & -> & He0).
      by apply (inv_homed _ Ht _ _ _ Hb).
    - rewrite (keys_flat_insert _ _ _ _ Hb). cbn. rewrite Hkeys.
      rewrite <- (keys_flat_split _ _ _ Hb). apply (inv_nodup _ Ht).
    - apply (inv_size _ Ht). }
  eexists. split; [rewrite (Put_run _ _ _ _ _ Ht), Hhome, Hu; reflexivity|].
  split; [done|]. cbn [buckets size bucketSize]. split; [|split; [|split; [|done]]].
  - rewrite list_fmap_insert. apply list_insert_id.
    rewrite list_lookup_fmap, Hb. cbn. by rewrite Hkeys.
  - rewrite (stored_store_entries _ _ _ _ _ _ Ht Ht' Hb), decide_True by done.
    by eapply update_find_same.
  - intros k' Hne. rewrite (stored_store_entries _ _ _ _ _ _ Ht Ht' Hb).
    destruct (decide _) as [Heq|]; [|done].
    rewrite (update_find_other _ _ _ _ _ Hu Hne), (stored_home _ _ Ht).
    unfold home. by rewrite Heq, Hb.
Qed.

(** *** [Delete] *)

Lemma Delete_absent k t l :
  inv t -> k ∉ keys t ->
  Delete retries k t l =
  Done false t (l ++ route ++ [BucketLock Current (slot k (bucketSize t));
                               BucketUnlock Current (slot k (bucketSize t))]).
Proof.
  intros Ht Hnin. rewrite (Delete_run _ _ _ _ Ht).
  apply stored_None in Hnin. rewrite (stored_home _ _ Ht) in Hnin.
  apply remove_None in Hnin. by rewrite Hnin.
Qed.

Lemma Delete_present k t l :
  inv t -> k ∈ keys t ->
  exists t' e,
    Delete retries k t l =
      Done true t' (l ++ route ++ [BucketLock Current (slot k (bucketSize t));
                                   SizeAdd (-1);
                                   BucketUnlock Current (slot k (bucketSize t))]) /\
    inv t' /\ key e = k /\
    flat (buckets t) ≡ₚ e :: flat (buckets t') /\
    stored t' k = None /\
    (forall k', k' <> k -> stored t' k' = stored t k') /\
    size t' = Int64.wrap (size t + -1) /\ bucketSize t' = bucketSize t.
Proof.
  intros Ht Hin. destruct (home_lookup t k Ht) as (b & Hb & Hhome).
  pose proof (slot_range k _ (proj1 (inv_bucketSize _ Ht))) as Hr.
  apply stored_is_Some in Hin as [v0 Hv0].
  rewrite (stored_home _ _ Ht), Hhome in Hv0.
  destruct (remove k (entries b)) as [es'|] eqn:Hrm;
    [|apply remove_None in Hrm; congruence].
  destruct (remove_perm _ _ _ Hrm) as (e & Hke & Hperm).
  assert (Hflat : flat (buckets t) ≡ₚ
            e :: flat (<[Z.to_nat (slot k (bucketSize t)) := Bucket es']> (buckets t))).
  { rewrite (flat_insert _ _ _ _ Hb), (flat_split _ _ _ Hb). cbn.
    rewrite Hperm. cbn. by rewrite <- Permutation_middle. }
  pose proof (inv_nodup _ Ht) as Hnd. unfold keys in Hnd.
  rewrite Hflat, fmap_cons, Hke in Hnd. apply NoDup_cons in Hnd as [Hk Hnd].
  assert (Ht' : inv (Table (<[Z.to_nat (slot k (bucketSize t)) := Bucket es']> (buckets t))
                           (Int64.wrap (size t + -1)) (bucketSize t) (resizing t))).
  { apply inv_store_entries; [done| |done|apply Int64_wrap_in_range].
    intros e' He'. apply (inv_homed _ Ht _ _ _ Hb). rewrite Hperm. by right. }
  eexists _, e. split; [rewrite (Delete_run _ _ _ _ Ht), Hhome, Hrm; reflexivity|].
  split; [done|]. cbn [buckets size bucketSize].
  split; [done|]. split; [done|]. split; [by apply stored_None|]. split; [|done].
  intros k' Hne. rewrite (stored_store_entries _ _ _ _ _ _ Ht Ht' Hb).
  destruct (decide _) as [Heq|]; [|done].
  rewrite (remove_find_other _ _ _ _ Hrm Hne), (stored_home _ _ Ht).
  unfold home. by rewrite Heq, Hb.
Qed.

(** *** [Put] of a key that is not in the table *)

Lemma stored_perm_cons k v k' t t' :
  NoDup (k :: keys t) ->
  flat (buckets t') ≡ₚ Entry k v :: flat (buckets t) ->
  stored t' k' = if decide (k' = k) then Some v else stored t k'.
Proof.
  intros Hnd Hp. unfold stored.
  rewrite (find_perm k' (Entry k v :: flat (buckets t))); [|done|done].
  cbn. destruct (decide (k = k')), (decide (k' = k)); congruence.
Qed.

(** The table after the entry is appended and the counter incremented. *)
Lemma append_inv k v t :
  inv t -> k ∉ keys t ->
  let t1 :=
    Table (<[Z.to_nat (slot k (bucketSize t)) := Bucket (home t k ++ [Entry k v])]>
             (buckets t))
          (Int64.wrap (size t + 1)) (bucketSize t) (resizing t) in
  inv t1 /\ flat (buckets t1) ≡ₚ Entry k v :: flat (buckets t).
Proof.
  intros Ht Hnin t1. destruct (home_lookup t k Ht) as (b & Hb & Hhome).
  pose proof (slot_range k _ (proj1 (inv_bucketSize _ Ht))) as Hr.
  assert (Hflat1 : flat (buckets t1) ≡ₚ Entry k v :: flat (buckets t)).
  { unfold t1. cbn [buckets]. rewrite Hhome, (flat_insert_snoc _ _ _ _ Hb).
    by rewrite Permutation_app_comm. }
  split; [|done].
  apply inv_store_entries; [done| | |apply Int64_wrap_in_range].
  - rewrite Hhome. intros e [He|He]%elem_of_app.
    + by apply (inv_homed _ Ht _ _ _ Hb).
    + apply list_elem_of_singleton in He as ->. cbn. lia.
  - change (NoDup (key <$> flat (buckets t1))). rewrite Hflat1.
    apply NoDup_cons. split; [done|apply (inv_nodup _ Ht)].
Qed.

Lemma Put_absent k v t l :
  inv t -> k ∉ keys t ->
  (Put retries k v t l = Panicked MakeSliceLenOutOfRange /\
   Int64.max_int < bucketSize t * 2)
  \/
  exists t' evs,
    Put retries k v t l =
      Done tt t' (l ++ route ++ [BucketLock Current (slot k (bucketSize t));
                                 BucketUnlock Current (slot k (bucketSize t));
                                 SizeAdd 1; Read FBucketSize] ++ evs) /\
    inv t' /\
    flat (buckets t') ≡ₚ Entry k v :: flat (buckets t) /\
    (forall k', stored t' k' = if decide (k' = k) then Some v else stored t k') /\
    size t' = Int64.wrap (size t + 1) /\
    (bucketSize t' = bucketSize t \/
     bucketSize t' = bucketSize t * 2 /\
     Float64.load_le (Int64.wrap (size t + 1)) (bucketSize t) = false).
Proof.
  intros Ht Hnin. pose proof (inv_bucketSize _ Ht) as Hn.
  assert (Hu : update k v (home t k) = None).
  { apply update_None. rewrite <- (stored_home _ _ Ht). by apply stored_None. }
  destruct (append_inv k v t Ht Hnin) as [Ht1 Hflat1].
  rewrite (Put_run _ _ _ _ _ Ht), Hu. cbn zeta.
  set (t1 := Table _ _ _ _) in *.
  assert (Hnd1 : NoDup (k :: keys t)) by (apply NoDup_cons; split; [done|apply (inv_nodup _ Ht)]).
  change (size t1) with (Int64.wrap (size t + 1)).
  destruct (Float64.load_gt _ _).
  2:{ right. exists t1, []. split; [by rewrite app_nil_r|]. split; [done|].
      split; [done|]. split; [|split; [done|by left]].
      intros k'. by apply stored_perm_cons. }
  destruct (Float64.load_le (size t1) (bucketSize t1)) eqn:Hle.
  { right. exists t1, [ResizingCAS true; MuLock; SizeLoad; Read FBucketSize;
                       MuUnlock; ResizingStore false].
    split; [rewrite (tryResize_idle _ _ Ht1 Hle); by log_norm|]. split; [done|].
    split; [done|]. split; [|split; [done|by left]].
    intros k'. by apply stored_perm_cons. }
  destruct (Z.le_gt_cases (bucketSize t1 * 2) Int64.max_int) as [Hfit|Hbig].
  2:{ left. split; [|exact Hbig]. by apply tryResize_overflow. }
  right. destruct (tryResize_grow t1
    (l ++ route ++ [BucketLock Current (slot k (bucketSize t));
                    BucketUnlock Current (slot k (bucketSize t));
                    SizeAdd 1; Read FBucketSize]) Ht1 Hle Hfit)
    as (nb & evs & Hrun & Hlen & Hh & Hp).
  exists (Table nb (size t1) (bucketSize t1 * 2) false), evs.
  split; [rewrite Hrun; by log_norm|].
  assert (Hflat2 : flat nb ≡ₚ Entry k v :: flat (buckets t)) by (by rewrite Hp).
  split.
  { split; cbn [buckets size bucketSize resizing]; try done.
    - unfold t1 in Hfit |- *. cbn [bucketSize] in Hfit |- *. lia.
    - unfold keys. cbn [buckets]. by rewrite Hflat2.
    - apply Int64_wrap_in_range. }
  split; [done|]. split; [|split; [done|by right]].
  intros k'. by apply stored_perm_cons.
Qed.

End Effects.

(** ** The invariant holds in every reachable state *)

Section Invariant.
Context {K V : Type} `{EqDecision K} `{Format K} `{Zero V}.
Variable retries : nat.
Implicit Types (k : K) (v : V) (e : entry K V) (es : list (entry K V)).
Implicit Types (b : bucket K V) (bs : list (bucket K V)) (t : HashTable K V).
Implicit Types (l : list event).

Lemma New_bucketSize n :
  bucketSize (@New K V n) = if n <? 1 then 16 else n.
Proof. done. Qed.

Lemma New_inv n : n <= Int64.max_int -> inv (@New K V n).
Proof.
  intros Hn. unfold New. split; cbn [buckets size bucketSize resizing].
  - destruct (Z.ltb_spec n 1); unfold Int64.max_int in *; lia.
  - rewrite length_replicate. destruct (Z.ltb_spec n 1); lia.
  - intros i b e Hi He. apply lookup_replicate in Hi as [-> _].
    by apply elem_of_nil in He.
  - unfold keys. cbn [buckets]. rewrite flat_replicate_nil. apply NoDup_nil_2.
  - unfold Int64.in_range, Int64.min_int, Int64.max_int. lia.
  - done.
Qed.

Lemma New_keys n : keys (@New K V n) = [].
Proof. unfold keys, New. cbn [buckets]. by rewrite flat_replicate_nil. Qed.

Lemma New_counted n : counted (@New K V n).
Proof. unfold counted, New. cbn [buckets size]. by rewrite flat_replicate_nil. Qed.

Lemma keys_concat bs :
  key <$> flat bs = concat ((fun b => key <$> entries b) <$> bs).
Proof.
  induction bs as [|b0 bs IH]; [done|].
  rewrite flat_cons, fmap_app, IH. done.
Qed.

(** [Put] returns unless the table can no longer be doubled. *)
Lemma Put_cases k v t l :
  inv t ->
  (Put retries k v t l = Panicked MakeSliceLenOutOfRange /\
   Int64.max_int < bucketSize t * 2 /\ k ∉ keys t)
  \/
  exists t' evs,
    Put retries k v t l = Done tt t' (l ++ evs) /\
    inv t' /\
    (forall k', stored t' k' = if decide (k' = k) then Some v else stored t k') /\
    keys t' ≡ₚ (if decide (k ∈ keys t) then keys t else k :: keys t) /\
    size t' = (if decide (k ∈ keys t) then size t else Int64.wrap (size t + 1)) /\
    (bucketSize t' = bucketSize t \/
     bucketSize t' = bucketSize t * 2 /\
     Float64.load_le (Int64.wrap (size t + 1)) (bucketSize t) = false).
Proof.
  intros Ht. destruct (decide (k ∈ keys t)) as [Hin|Hnin].
  - right. destruct (Put_present retries k v t l Ht Hin)
      as (t' & Hrun & Ht' & Hkeys & Hk & Hother & Hsz & Hn).
    exists t', (route ++ [BucketLock Current (slot k (bucketSize t));
                          BucketUnlock Current (slot k (bucketSize t))]).
    split; [done|]. split; [done|]. split; [|split; [|split; [done|by left]]].
    + intros k'. destruct (decide (k' = k)) as [->|Hne]; [done|by apply Hother].
    + unfold keys. by rewrite !keys_concat, Hkeys.
  - destruct (Put_absent retries k v t l Ht Hnin)
      as [[Hrun Hbig]|(t' & evs & Hrun & Ht' & Hflat & Hst & Hsz & Hn)]; [by left|].
    right. eexists t', _. split; [done|]. split; [done|]. split; [done|].
    split; [|done]. unfold keys. by rewrite Hflat.
Qed.

Lemma Put_inv k v t l t' l' :
  inv t -> Put retries k v t l = Done tt t' l' -> inv t'.
Proof.
  intros Ht Hrun.
  destruct (Put_cases k v t l Ht) as [[Hp _]|(t2 & evs & Hd & Ht2 & _)]; congruence.
Qed.

Lemma Delete_cases k t l :
  inv t ->
  exists t' evs,
    Delete retries k t l = Done (bool_decide (k ∈ keys t)) t' (l ++ evs) /\
    inv t' /\
    (forall k', stored t' k' = if decide (k' = k) then None else stored t k') /\
    keys t ≡ₚ (if decide (k ∈ keys t) then k :: keys t' else keys t') /\
    size t' = (if decide (k ∈ keys t) then Int64.wrap (size t + -1) else size t) /\
    bucketSize t' = bucketSize t.
Proof.
  intros Ht. destruct (decide (k ∈ keys t)) as [Hin|Hnin].
  - destruct (Delete_present retries k t l Ht Hin)
      as (t' & e & Hrun & Ht' & Hke & Hflat & Hk & Hother & Hsz & Hn).
    eexists t', _. rewrite bool_decide_eq_true_2 by done.
    split; [done|]. split; [done|]. split; [|split; [|done]].
    + intros k'. destruct (decide (k' = k)) as [->|Hne]; [done|by apply Hother].
    + unfold keys. by rewrite Hflat, fmap_cons, Hke.
  - eexists t, _. rewrite bool_decide_eq_false_2 by done.
    split; [by apply Delete_absent|]. split; [done|]. split; [|done].
    intros k'. destruct (decide (k' = k)) as [->|Hne]; [by apply stored_None|done].
Qed.

Lemma Delete_inv k t l r t' l' :
  inv t -> Delete retries k t l = Done r t' l' -> inv t'.
Proof.
  intros Ht Hrun.
  destruct (Delete_cases k t l Ht) as (t2 & evs & Hd & Ht2 & _). congruence.
Qed.

Lemma reachable_inv t : reachable retries t -> inv t.
Proof.
  induction 1 as [n Hn|t k v l t' l' _ IH Hrun|t k r l t' l' _ IH Hrun
                 |t k r l t' l' _ IH Hrun|t n l t' l' _ IH Hrun].
  - apply New_inv, Hn.
  - by eapply Put_inv.
  - rewrite (Get_stored retries _ _ _ IH) in Hrun. congruence.
  - by eapply Delete_inv.
  - unfold Size, size_load, Op.bind, Op.emit, Op.gets in Hrun. congruence.
Qed.

End Invariant.

(** ** Sequences of calls *)

Section Runs.
Context {K V : Type} `{EqDecision K} `{Format K} `{Zero V}.
Variable retries : nat.
Implicit Types (k : K) (v : V) (t : HashTable K V) (l : list event).
Implicit Types (c : @call K V) (cs : list (@call K V)) (f : @ledger K).

Lemma counted_keys t : counted t <-> size t = Z.of_nat (length (keys t)).
Proof. unfold counted, keys. by rewrite length_fmap. Qed.

Lemma Size_run t l : Size t l = Done (size t) t (l ++ [SizeLoad]).
Proof. done. Qed.

Lemma step_cases c t l f :
  inv t -> counted t -> agrees f t -> size t < Int64.max_int ->
  (step retries c t l = Panicked MakeSliceLenOutOfRange /\
   Int64.max_int < bucketSize t * 2) \/
  exists r t' evs,
    step retries c t l = Done r t' (l ++ evs) /\
    inv t' /\ counted t' /\ agrees (tally_step f (c, r)) t' /\
    size t' <= size t + 1 /\
    (forall k, stored t' k = apply_call (stored t) c k) /\
    (forall k, k ∈ keys t' -> k ∈ keys t \/ k = called c) /\
    (bucketSize t' = bucketSize t \/
     bucketSize t' = bucketSize t * 2 /\
     Float64.load_le (size t + 1) (bucketSize t) = false).
Proof.
  intros Ht Hc Hf Hsz. apply counted_keys in Hc.
  assert (Hw : Int64.wrap (size t + 1) = size t + 1).
  { apply Int64_wrap_small. unfold Int64.in_range, Int64.min_int. lia. }
  destruct c as [k v|k]; cbn [step].
  - destruct (Put_cases retries k v t l Ht)
      as [(Hp & Hbig & _)|(t' & evs & Hrun & Ht' & Hst & Hkeys & Hsize & Hbs)].
    { left. unfold Op.bind. by rewrite Hp. }
    rewrite Hw in Hbs.
    right. exists PutDone, t', evs. unfold Op.bind. rewrite Hrun.
    split; [done|]. split; [done|].
    assert (Hk := Hf k). cbn [tally_step].
    destruct (decide (k ∈ keys t)) as [Hin|Hnin].
    + split; [apply counted_keys; by rewrite Hkeys, Hsize|].
      split; [|split; [lia|split; [done|split; [|done]]]].
      * rewrite decide_True by lia. intros k'. rewrite (Hf k').
        destruct (decide (k' ∈ keys t)), (decide (k' ∈ keys t')) as [Hin'|Hnin'];
          try done; rewrite Hkeys in *; done.
      * intros k'. rewrite Hkeys. by left.
    + split; [apply counted_keys; rewrite Hkeys, Hsize, Hw; cbn [length]; lia|].
      split; [|split; [lia|split; [done|split; [|done]]]].
      * rewrite decide_False by lia. intros k'. unfold count_insert.
        assert (Hiff : k' ∈ keys t' <-> k' = k \/ k' ∈ keys t)
          by (rewrite Hkeys; apply elem_of_cons).
        destruct (decide (k' = k)) as [->|Hne]; cbn.
        -- rewrite decide_True by (apply Hiff; by left). by rewrite Hk.
        -- rewrite (Hf k').
           destruct (decide (k' ∈ keys t)), (decide (k' ∈ keys t'));
             try done; exfalso; tauto.
      * intros k'. rewrite Hkeys. intros [->|?]%elem_of_cons; [by right|by left].
  - destruct (Delete_cases retries k t l Ht)
      as (t' & evs & Hrun & Ht' & Hst & Hkeys & Hsize & Hbs).
    right. exists (Deleted (bool_decide (k ∈ keys t))), t', evs.
    unfold Op.bind. rewrite Hrun. split; [done|]. split; [done|].
    assert (Hk := Hf k). cbn [tally_step].
    destruct (decide (k ∈ keys t)) as [Hin|Hnin].
    + rewrite bool_decide_eq_true_2 by done.
      assert (Hlen : length (keys t) = S (length (keys t'))) by (by rewrite Hkeys).
      assert (Hw' : Int64.wrap (size t + -1) = size t - 1).
      { apply Int64_wrap_small. unfold Int64.in_range, Int64.min_int. lia. }
      split; [apply counted_keys; lia|].
      split; [|split; [lia|split; [done|split; [|by left]]]].
      * pose proof (inv_nodup _ Ht) as Hnd. rewrite Hkeys in Hnd.
        apply NoDup_cons in Hnd as [Hk' _].
        intros k'. unfold count_delete.
        assert (Hiff : k' ∈ keys t <-> k' = k \/ k' ∈ keys t')
          by (rewrite Hkeys; apply elem_of_cons).
        destruct (decide (k' = k)) as [->|Hne]; cbn.
        -- rewrite decide_False by done. lia.
        -- rewrite (Hf k').
           destruct (decide (k' ∈ keys t)), (decide (k' ∈ keys t'));
             try done; exfalso; tauto.
      * intros k' Hk'. left. rewrite Hkeys. by right.
    + rewrite bool_decide_eq_false_2 by done.
      split; [apply counted_keys; rewrite <- Hkeys; lia|].
      split; [|split; [lia|split; [done|split; [|by left]]]].
      * intros k'. rewrite (Hf k').
        destruct (decide (k' ∈ keys t)), (decide (k' ∈ keys t'));
          try done; rewrite Hkeys in *; done.
      * intros k'. rewrite <- Hkeys. by left.
Qed.

Lemma run_cases cs t l f :
  inv t -> counted t -> agrees f t ->
  size t + Z.of_nat (length cs) <= Int64.max_int ->
  run retries cs t l = Panicked MakeSliceLenOutOfRange \/
  exists tr t' evs,
    run retries cs t l = Done tr t' (l ++ evs) /\
    inv t' /\ counted t' /\ agrees (fold_left tally_step tr f) t' /\
    fst <$> tr = cs /\
    (forall k, stored t' k = fold_left apply_call cs (stored t) k) /\
    (forall k, k ∈ keys t' -> k ∈ keys t \/ k ∈ called <$> cs).
Proof.
  revert t l f. induction cs as [|c cs IH]; intros t l f Ht Hc Hf Hsz.
  - right. exists [], t, []. rewrite app_nil_r.
    split; [done|]. split; [done|]. split; [done|]. split; [done|].
    split; [done|]. split; [done|]. intros k ?. by left.
  - cbn [length] in Hsz.
    destruct (step_cases c t l f Ht Hc Hf)
      as [[Hp _]|(r & t1 & evs1 & Hrun1 & Ht1 & Hc1 & Hf1 & Hsz1 & Hst1 & Hk1 & _)]; [lia| |].
    { left. cbn [run]. unfold Op.bind. by rewrite Hp. }
    destruct (IH t1 (l ++ evs1) _ Ht1 Hc1 Hf1)
      as [Hp|(tr & t2 & evs2 & Hrun2 & Ht2 & Hc2 & Hf2 & Htr & Hst2 & Hk2)]; [lia| |].
    { left. cbn [run]. unfold Op.bind. by rewrite Hrun1, Hp. }
    right. exists ((c, r) :: tr), t2, (evs1 ++ evs2).
    cbn [run]. unfold Op.bind, Op.ret. rewrite Hrun1, Hrun2, <- app_assoc.
    split; [done|]. split; [done|]. split; [done|]. split; [done|].
    split; [by rewrite fmap_cons, Htr|]. split.
    + intros k. rewrite Hst2. cbn [fold_left].
      clear -Hst1. revert k. generalize dependent (stored t1).
      generalize (apply_call (stored t) c).
      induction cs as [|c' cs IH]; intros m m' Hm k; cbn; [done|].
      apply IH. intros k'. destruct c'; cbn; by rewrite Hm.
    + intros k Hk. rewrite fmap_cons, elem_of_cons.
      destruct (Hk2 k Hk) as [Hk'|?]; [|tauto].
      destruct (Hk1 k Hk'); tauto.
Qed.

Lemma run_reachable cs t l tr t' l' :
  reachable retries t -> run retries cs t l = Done tr t' l' -> reachable retries t'.
Proof.
  revert t l tr. induction cs as [|c cs IH]; intros t l tr Ht Hrun.
  - cbn in Hrun. unfold Op.ret in Hrun. by injection Hrun as _ <- _.
  - cbn [run] in Hrun. unfold Op.bind in Hrun.
    destruct (step retries c t l) as [r t1 l1|?|] eqn:Hstep; [|done..].
    destruct (run retries cs t1 l1) as [tr' t2 l2|?|] eqn:Hrest; [|done..].
    unfold Op.ret in Hrun. injection Hrun as _ <- <-.
    apply (IH t1 l1 tr'); [|done]. clear Hrest IH.
    destruct c as [k v|k]; cbn [step] in Hstep; unfold Op.bind, Op.ret in Hstep.
    + destruct (Put retries k v t l) as [[] t1' l1'|?|] eqn:Hput; [|done..].
      injection Hstep as _ <- _. by eapply reach_Put.
    + destruct (Delete retries k t l) as [b t1' l1'|?|] eqn:Hdel; [|done..].
      injection Hstep as _ <- _. by eapply reach_Delete.
Qed.

End Runs.

(** ** The two load-factor tests *)

Lemma SFcompare_antisym x y :
  SFcompare y x = option_map CompOpp (SFcompare x y).
Proof.
  destruct x as [sx|sx| |sx mx ex], y as [sy|sy| |sy my ey]; cbn;
    try done; try (by destruct sx); try (by destruct sy);
    try (by destruct sx, sy).
  destruct sx, sy; try done; f_equal;
    rewrite (Z.compare_antisym ex ey); destruct (ex ?= ey); cbn; try done;
    change (Pos.compare_cont Eq my mx) with (my ?= mx)%positive;
    change (Pos.compare_cont Eq mx my) with (mx ?= my)%positive;
    rewrite (Pos.compare_antisym mx my); by destruct (mx ?= my)%positive.
Qed.

(** When the test of [Put] ([> 0.75]) succeeds, the test of [tryResize]
    ([<= 0.75]) on the same numbers fails. *)
Lemma load_gt_not_le n d :
  Float64.load_gt n d = true -> Float64.load_le n d = false.
Proof.
  unfold Float64.load_gt, Float64.load_le, SFltb, SFleb.
  rewrite (SFcompare_antisym Float64.threshold).
  by destruct (SFcompare Float64.threshold _) as [[]|].
Qed.

(** ** [tryResize] and runs, without the size counter *)

Section Resize.
Context {K V : Type} `{EqDecision K} `{Format K} `{Zero V}.
Variable retries : nat.
Implicit Types (k : K) (v : V) (t : HashTable K V) (l : list event).
Implicit Types (c : @call K V) (cs : list (@call K V)).


Lemma tryResize_cases t l :
  inv t ->
  (tryResize t l = Panicked MakeSliceLenOutOfRange /\
   Int64.max_int < bucketSize t * 2 /\
   Float64.load_le (size t) (bucketSize t) = false)
  \/
  exists t' evs,
    tryResize t l = Done tt t' (l ++ evs) /\
    inv t' /\
    flat (buckets t') ≡ₚ flat (buckets t) /\
    size t' = size t /\
    bucketSize t' =
      (if Float64.load_le (size t) (bucketSize t) then bucketSize t
       else bucketSize t * 2).
Proof.
  intros Ht. destruct (Float64.load_le (size t) (bucketSize t)) eqn:Hle.
  - right. eexists t, _. split; [by apply tryResize_idle|]. done.
  - destruct (Z.le_gt_cases (bucketSize t * 2) Int64.max_int) as [Hfit|Hbig].
    + right. destruct (tryResize_grow t l Ht Hle Hfit) as (nb & evs & Hrun & Hlen & Hh & Hp).
      eexists _, evs. split; [exact Hrun|].
      cbn [buckets size bucketSize]. split; [|done].
      pose proof (inv_bucketSize _ Ht). split; cbn [buckets size bucketSize resizing]; try done.
      * lia.
      * unfold keys. cbn [buckets]. rewrite Hp. apply (inv_nodup _ Ht).
      * apply (inv_size _ Ht).
    + left. split; [by apply tryResize_overflow|done].
Qed.


Lemma fold_apply_call_ext cs (m m' : K -> option V) :
  (forall k, m k = m' k) ->
  forall k, fold_left apply_call cs m k = fold_left apply_call cs m' k.
Proof.
  revert m m'. induction cs as [|c cs IH]; intros m m' Hm k; cbn; [done|].
  apply IH. intros k'. destruct c; cbn; by rewrite Hm.
Qed.



End Resize.

(** ** binary64: the load-factor tests in exact arithmetic *)

Section Float64Facts.

Local Abbreviation fexp := (SpecFloat.fexp Float64.prec Float64.emax).
Local Abbreviation round_aux := (binary_round_aux Float64.prec Float64.emax).

Lemma digits2_pos_size p : digits2_pos p = Pos.size p.
Proof. induction p as [p IH|p IH|]; cbn; congruence. Qed.

Lemma digits_bounds p :
  2 ^ (Zpos (digits2_pos p) - 1) <= Zpos p < 2 ^ Zpos (digits2_pos p).
Proof.
  rewrite digits2_pos_size.
  pose proof (Pos.size_gt p) as Hgt. pose proof (Pos.size_le p) as Hle.
  assert (Hgt' : Zpos p < 2 ^ Zpos (Pos.size p)).
  { change 2 with (Zpos 2). rewrite <- Pos2Z.inj_pow. by apply Pos2Z.pos_lt_pos. }
  assert (Hle' : 2 ^ Zpos (Pos.size p) <= 2 * Zpos p).
  { change 2 with (Zpos 2) at 1. rewrite <- Pos2Z.inj_pow. by apply Pos2Z.pos_le_pos. }
  split; [|done].
  replace (Zpos (Pos.size p)) with (Zpos (Pos.size p) - 1 + 1) in Hle' by lia.
  rewrite Z.pow_add_r in Hle' by lia. lia.
Qed.

Lemma digits_unique p k :
  2 ^ (k - 1) <= Zpos p < 2 ^ k -> Zpos (digits2_pos p) = k.
Proof.
  intros [Hlo Hhi]. pose proof (digits_bounds p) as [Hlo' Hhi'].
  generalize dependent (Zpos (digits2_pos p)). intros s Hlo' Hhi'.
  assert (0 < k).
  { destruct (Z.lt_trichotomy 0 k) as [?|[<-|?]]; [done|cbn in Hhi; lia|].
    rewrite Z.pow_neg_r in Hhi by lia. lia. }
  assert (0 < s).
  { destruct (Z.lt_trichotomy 0 s) as [?|[<-|?]]; [done|cbn in Hhi'; lia|].
    rewrite Z.pow_neg_r in Hhi' by lia. lia. }
  destruct (Z.lt_trichotomy s k) as [Hlt|[Heq|Hgt]]; [|done|].
  - assert (2 ^ s <= 2 ^ (k - 1)) by (apply Z.pow_le_mono_r; lia). lia.
  - assert (2 ^ k <= 2 ^ (s - 1)) by (apply Z.pow_le_mono_r; lia). lia.
Qed.

Lemma fexp_linear e : -1021 <= e -> fexp e = e - 53.
Proof. intros He. unfold SpecFloat.fexp, emin, Float64.prec, Float64.emax. lia. Qed.

(** Rounding a mantissa of 53 bits that is exact changes nothing. *)
Lemma round_aux_exact s m e :
  Zpos (digits2_pos m) = 53 -> -1074 <= e <= 971 ->
  round_aux s (Zpos m) e loc_Exact = S754_finite s m e.
Proof.
  intros Hd He. unfold binary_round_aux, shr_fexp. cbn [Zdigits2 shr_record_of_loc].
  rewrite Hd, fexp_linear by lia. replace (53 + e - 53 - e) with 0 by lia.
  cbn [shr loc_of_shr_record round_nearest_even shr_m Zdigits2].
  rewrite Hd, fexp_linear by lia. replace (53 + e - 53 - e) with 0 by lia.
  cbn [shr shr_m]. unfold Float64.emax, Float64.prec.
  by rewrite (proj2 (Z.leb_le _ _)) by lia.
Qed.

Lemma iter_xO p d : Zpos (Pos.iter xO p d) = Zpos p * 2 ^ Zpos d.
Proof.
  induction d as [|d IH] using Pos.peano_ind.
  - cbn. lia.
  - rewrite Pos.iter_succ, Pos2Z.inj_succ, Z.pow_succ_r by lia.
    rewrite Pos2Z.inj_xO, IH. lia.
Qed.

(** [float64(n)] for [1 <= n < 2^53] is [n], with a mantissa of 53 bits. *)
Lemma of_int_normal n k :
  1 <= k <= 53 -> 2 ^ (k - 1) <= n < 2 ^ k ->
  exists m,
    Float64.of_int n = S754_finite false m (k - 53) /\
    Zpos m = n * 2 ^ (53 - k) /\ Zpos (digits2_pos m) = 53.
Proof.
  intros Hk Hn. assert (0 < 2 ^ (k - 1)) by (apply Z.pow_pos_nonneg; lia).
  destruct n as [|p|p]; [lia| |lia].
  pose proof (digits_unique p k Hn) as Hd.
  unfold Float64.of_int, binary_normalize, binary_round.
  rewrite Hd, Z.add_0_r, fexp_linear by lia. unfold shl_align.
  destruct (k - 53 - 0) as [|q|q] eqn:Hsh; [|lia|].
  - assert (Hk53 : k = 53) by lia. exists p.
    rewrite round_aux_exact by (congruence || lia). rewrite Hk53.
    split; [done|]. split; [cbn; lia|congruence].
  - exists (Pos.iter xO p q).
    assert (Hq : Zpos q = 53 - k) by lia.
    assert (Hm : Zpos (Pos.iter xO p q) = Zpos p * 2 ^ (53 - k)) by (by rewrite iter_xO, Hq).
    assert (Hdm : Zpos (digits2_pos (Pos.iter xO p q)) = 53).
    { apply digits_unique. rewrite Hm. destruct Hn as [Hlo Hhi].
      assert (E1 : 2 ^ (53 - 1) = 2 ^ (k - 1) * 2 ^ (53 - k)).
      { rewrite <- Z.pow_add_r by lia. f_equal. lia. }
      assert (E2 : 2 ^ 53 = 2 ^ k * 2 ^ (53 - k)).
      { rewrite <- Z.pow_add_r by lia. f_equal. lia. }
      rewrite E1, E2.
      assert (0 < 2 ^ (53 - k)) by (apply Z.pow_pos_nonneg; lia). nia. }
    rewrite round_aux_exact by (done || lia). done.
Qed.

(** Where the remainder of a division stands relative to half the
    divisor. *)
Lemma new_location_spec B R :
  0 <= R ->
  new_location B R = if R =? 0 then loc_Exact else loc_Inexact (2 * R ?= B).
Proof.
  intros HR. unfold new_location, new_location_even, new_location_odd.
  destruct (Z.even B) eqn:Hev; [done|].
  destruct (R =? 0); [done|]. f_equal.
  assert (Hodd : Z.odd B = true) by (by rewrite <- Z.negb_even, Hev).
  apply Z.odd_spec in Hodd as [c ->].
  destruct (Z.compare_spec (2 * R + 1) (2 * c + 1)), (Z.compare_spec (2 * R) (2 * c + 1));
    (done || lia).
Qed.

Lemma loc_of_record_of_loc m loc :
  loc_of_shr_record (shr_record_of_loc m loc) = loc.
Proof. by destruct loc as [|[]]. Qed.

Lemma round_nearest_even_range m loc :
  m <= round_nearest_even m loc <= m + 1.
Proof. destruct loc as [|[]]; cbn; try destruct (Z.even m); lia. Qed.

Lemma Zdigits2_unique Q k : 2 ^ (k - 1) <= Q < 2 ^ k -> 0 < Q -> Zdigits2 Q = k.
Proof. intros HQ Hpos. destruct Q as [|q|q]; [lia| |lia]. by apply digits_unique. Qed.

(** The last steps of rounding: a mantissa of 53 bits is kept, the
    mantissa [2^53] becomes [2^52] with the next exponent. *)
Lemma round_aux_finish s Q' e :
  2 ^ 52 <= Q' <= 2 ^ 53 -> -1074 <= e <= 970 ->
  (let '(mrs, e') := shr_fexp Float64.prec Float64.emax Q' e loc_Exact in
   match shr_m mrs with
   | Z0 => S754_zero s
   | Zpos m => if e' <=? Float64.emax - Float64.prec then S754_finite s m e'
               else S754_infinity s
   | Zneg _ => S754_nan
   end) =
  if Q' <? 2 ^ 53 then S754_finite s (Z.to_pos Q') e
  else S754_finite s (Z.to_pos (2 ^ 52)) (e + 1).
Proof.
  intros HQ He. unfold shr_fexp.
  destruct (Z.ltb_spec Q' (2 ^ 53)) as [Hlt|Hge].
  - rewrite (Zdigits2_unique Q' 53) by lia. rewrite fexp_linear by lia.
    replace (53 + e - 53 - e) with 0 by lia. cbn [shr shr_record_of_loc shr_m].
    destruct Q' as [|q|q]; [lia| |lia]. unfold Float64.emax, Float64.prec.
    by rewrite (proj2 (Z.leb_le _ _)) by lia.
  - assert (Q' = 2 ^ 53) as -> by lia.
    rewrite (Zdigits2_unique (2 ^ 53) 54) by lia. rewrite fexp_linear by lia.
    replace (54 + e - 53 - e) with 1 by lia. cbn [shr shr_record_of_loc].
    cbn -[Z.add Z.leb Z.sub]. unfold Float64.emax, Float64.prec.
    by rewrite (proj2 (Z.leb_le _ _)) by lia.
Qed.

Lemma round_aux_53 Q e loc :
  2 ^ 52 <= Q < 2 ^ 53 -> -1074 <= e <= 900 ->
  round_aux false Q e loc =
  let Q' := round_nearest_even Q loc in
  if Q' <? 2 ^ 53 then S754_finite false (Z.to_pos Q') e
  else S754_finite false (Z.to_pos (2 ^ 52)) (e + 1).
Proof.
  intros HQ He. unfold binary_round_aux. unfold shr_fexp at 1.
  rewrite (Zdigits2_unique Q 53) by lia. rewrite fexp_linear by lia.
  replace (53 + e - 53 - e) with 0 by lia. cbn [shr].
  rewrite loc_of_record_of_loc.
  replace (shr_m (shr_record_of_loc Q loc)) with Q by (by destruct loc as [|[]]).
  pose proof (round_nearest_even_range Q loc).
  cbn zeta. apply round_aux_finish; lia.
Qed.

Lemma shr_1_m Q loc : 0 < Q -> shr_m (shr_1 (shr_record_of_loc Q loc)) = Q / 2.
Proof.
  intros HQ. destruct Q as [|q|q]; [lia| |lia].
  destruct loc as [|[]], q as [q|q|]; cbn [shr_1 shr_record_of_loc shr_m orb];
    first [by rewrite Pos2Z.inj_xI, Z.mul_comm, Z.div_add_l by lia
          |by rewrite Pos2Z.inj_xO, Z.mul_comm, Z.div_mul by lia
          |done].
Qed.

Lemma round_aux_54 Q e loc :
  2 ^ 53 <= Q < 2 ^ 54 -> -1074 <= e <= 900 ->
  round_aux false Q e loc =
  let mrs := shr_1 (shr_record_of_loc Q loc) in
  let Q' := round_nearest_even (shr_m mrs) (loc_of_shr_record mrs) in
  if Q' <? 2 ^ 53 then S754_finite false (Z.to_pos Q') (e + 1)
  else S754_finite false (Z.to_pos (2 ^ 52)) (e + 1 + 1).
Proof.
  intros HQ He. unfold binary_round_aux. unfold shr_fexp at 1.
  rewrite (Zdigits2_unique Q 54) by lia. rewrite fexp_linear by lia.
  replace (54 + e - 53 - e) with 1 by lia. cbn [shr iter_pos].
  set (mrs := shr_1 (shr_record_of_loc Q loc)).
  assert (Hm : shr_m mrs = Q / 2) by (apply shr_1_m; lia).
  pose proof (round_nearest_even_range (shr_m mrs) (loc_of_shr_record mrs)).
  assert (2 ^ 52 <= Q / 2 < 2 ^ 53).
  { split; [apply Z.div_le_lower_bound; lia|apply Z.div_lt_upper_bound; lia]. }
  cbn zeta. apply round_aux_finish; lia.
Qed.

(** *** Rounding to nearest even and the comparison with an even integer *)

(** Decides [(p <? q) = (u <? w)] where [u] and [w] are [p] and [q] scaled
    by the divisor [B] and moved by less than [B]; [x] and [y] are the
    integers whose products with [B] occur. *)
Ltac cmp_via x y B :=
  pose proof (fun H => Z.mul_le_mono_nonneg_r x y B ltac:(lia) H);
  pose proof (fun H => Z.mul_le_mono_nonneg_r y x B ltac:(lia) H);
  pose proof (fun H => Z.mul_le_mono_nonneg_r (x + 1) y B ltac:(lia) H);
  pose proof (fun H => Z.mul_le_mono_nonneg_r (y + 1) x B ltac:(lia) H);
  match goal with
  | |- (?p <? ?q) = (?u <? ?w) =>
      destruct (Z.ltb_spec p q), (Z.ltb_spec u w); [done|exfalso; lia|exfalso; lia|done]
  end.

Lemma parity_cases z :
  (exists b, z = 2 * b /\ Z.even z = true) \/
  (exists b, z = 2 * b + 1 /\ Z.even z = false).
Proof.
  destruct (Z.even z) eqn:Hz.
  - left. apply Z.even_spec in Hz as [b Hb]. eauto.
  - right. assert (Hodd : Z.odd z = true) by (by rewrite <- Z.negb_even, Hz).
    apply Z.odd_spec in Hodd as [b Hb]. eauto.
Qed.

Lemma round_gt_even T Q B R :
  Z.even T = true -> 0 < B -> 0 <= R < B ->
  (T <? round_nearest_even Q (new_location B R)) =
  ((2 * T + 1) * B <? 2 * (Q * B + R)).
Proof.
  intros HT HB HR. apply Z.even_spec in HT as [a ->].
  rewrite new_location_spec by lia.
  destruct (parity_cases Q) as [(b & -> & HQ)|(b & -> & HQ)];
    (destruct (Z.eqb_spec R 0) as [->|HR0];
     [|destruct (Z.compare_spec (2 * R) B) as [Heq|Hlt|Hgt]]);
    cbn [round_nearest_even]; rewrite ?HQ; cmp_via a b B.
Qed.

(** The same after one more bit of the quotient is shifted out. *)
Lemma round_shifted_gt_even T Q B R :
  Z.even T = true -> 0 < B -> 0 <= R < B -> 0 < Q ->
  let mrs := shr_1 (shr_record_of_loc Q (new_location B R)) in
  (T <? round_nearest_even (shr_m mrs) (loc_of_shr_record mrs)) =
  ((2 * T + 1) * (2 * B) <? 2 * (Q * B + R)).
Proof.
  intros HT HB HR HQ mrs. apply Z.even_spec in HT as [a ->].
  unfold mrs. rewrite new_location_spec by lia.
  destruct Q as [|q|q]; [lia| |lia].
  destruct (Z.eqb_spec R 0) as [->|HR0]; [|destruct (Z.compare_spec (2 * R) B)];
    destruct q as [q|q|];
    cbn [shr_1 shr_record_of_loc shr_m loc_of_shr_record orb round_nearest_even];
    try rewrite (Pos2Z.inj_xI q); try rewrite (Pos2Z.inj_xO q);
    first [ cmp_via (2 * a) (Zpos q) B
          | destruct (parity_cases (Zpos q)) as [(b & Hb & ->)|(b & Hb & ->)];
            rewrite Hb; cmp_via a b B
          | cbn [Z.even]; cmp_via a 0 B ].
Qed.

(** *** The quotient and the comparison with 0.75 *)

(** The mantissa of [0.75]. *)
Local Abbreviation T := 6755399441055744.

Lemma div_normal m1 e1 m2 e2 :
  Zpos (digits2_pos m1) = 53 -> Zpos (digits2_pos m2) = 53 ->
  -900 <= e1 - e2 <= 900 ->
  Float64.div (S754_finite false m1 e1) (S754_finite false m2 e2) =
  round_aux false (Zpos m1 * 2 ^ 53 / Zpos m2) (e1 - e2 - 53)
            (new_location (Zpos m2) ((Zpos m1 * 2 ^ 53) mod Zpos m2)).
Proof.
  intros Hd1 Hd2 He. unfold Float64.div, SFdiv, SFdiv_core_binary.
  cbn [Zdigits2 xorb]. rewrite Hd1, Hd2.
  replace (53 + e1 - (53 + e2)) with (e1 - e2) by lia.
  rewrite fexp_linear by lia.
  rewrite Z.min_l by lia. replace (e1 - e2 - (e1 - e2 - 53)) with 53 by lia.
  rewrite Z.shiftl_mul_pow2 by lia.
  unfold Z.div, Z.modulo.
  by destruct (Z.div_eucl (Zpos m1 * 2 ^ 53) (Zpos m2)).
Qed.

Lemma gt_threshold m e :
  SFltb Float64.threshold (S754_finite false m e) =
  (-53 <? e) || ((e =? -53) && (T <? Zpos m)).
Proof.
  unfold SFltb, SFcompare, Float64.threshold.
  destruct (Z.compare_spec (-53) e) as [<-|Hlt|Hgt].
  - rewrite Z.ltb_irrefl, Z.eqb_refl. cbn [orb andb].
    change (Pos.compare_cont Eq 6755399441055744 m) with (T ?= Zpos m).
    destruct (Z.compare_spec T (Zpos m)), (Z.ltb_spec T (Zpos m)); (done || lia).
  - by rewrite (proj2 (Z.ltb_lt _ _)) by lia.
  - rewrite (proj2 (Z.ltb_ge _ _)) by lia.
    by rewrite (proj2 (Z.eqb_neq _ _)) by lia.
Qed.

Lemma le_threshold m e :
  SFleb (S754_finite false m e) Float64.threshold =
  negb (SFltb Float64.threshold (S754_finite false m e)).
Proof.
  unfold SFleb, SFltb. rewrite (SFcompare_antisym Float64.threshold).
  by destruct (SFcompare Float64.threshold _) as [[]|] eqn:Hc.
Qed.

Lemma ltb_scale P x y : 0 < P -> (x * P <? y * P) = (x <? y).
Proof.
  intros HP. destruct (Z.ltb_spec x y) as [H|H].
  - apply Z.ltb_lt. by apply Z.mul_lt_mono_pos_r.
  - apply Z.ltb_ge. apply Z.mul_le_mono_nonneg_r; lia.
Qed.

(** The number of binary digits of a positive integer. *)
Lemma digits_of n b :
  0 < n < 2 ^ b ->
  1 <= Z.log2 n + 1 <= b /\ 2 ^ (Z.log2 n + 1 - 1) <= n < 2 ^ (Z.log2 n + 1).
Proof.
  intros [Hpos Hb]. pose proof (Z.log2_nonneg n).
  assert (0 < b).
  { destruct (Z.lt_trichotomy 0 b) as [?|[<-|?]]; [done|cbn in Hb; lia|].
    rewrite Z.pow_neg_r in Hb by lia. lia. }
  assert (Z.log2 n < b) by (apply Z.log2_lt_pow2; lia).
  destruct (Z.log2_spec n Hpos) as [Hlo Hhi].
  replace (Z.log2 n + 1 - 1) with (Z.log2 n) by lia.
  replace (Z.succ (Z.log2 n)) with (Z.log2 n + 1) in Hhi by lia. lia.
Qed.

Lemma pow2_split a b : 0 <= a -> 0 <= b -> 2 ^ (a + b) = 2 ^ a * 2 ^ b.
Proof. intros. by apply Z.pow_add_r. Qed.

End Float64Facts.

Section LoadFactor.

Local Abbreviation round_aux := (binary_round_aux Float64.prec Float64.emax).
Local Abbreviation T := 6755399441055744.

(** Four comparisons of [n] and [d] from comparisons of their scaled
    mantissas. *)
Lemma scaled_lt_1 n d P c :
  0 <= d -> 1 <= P -> 2 <= c -> 2 ^ 52 <= n * P -> d * (P * c) < 2 ^ 53 -> d < n.
Proof.
  intros Hd HP Hc Hn Hdc.
  assert (d * P * 2 <= d * P * c) by (apply Z.mul_le_mono_nonneg_l; nia).
  apply (Z.mul_lt_mono_pos_r P); lia.
Qed.

Lemma scaled_lt_2 n d P c :
  0 <= n -> 1 <= P -> 2 <= c -> n * (P * c) < d * P -> 2 * n < d.
Proof.
  intros Hn HP Hc Hlt.
  assert (n * P * 2 <= n * P * c) by (apply Z.mul_le_mono_nonneg_l; nia).
  apply (Z.mul_lt_mono_pos_r P); lia.
Qed.

Lemma scaled_le_3 n d P c :
  0 <= d -> 1 <= P -> 1 <= c -> d * (P * c) <= n * P -> d <= n.
Proof.
  intros Hd HP Hc Hle.
  assert (d * P * 1 <= d * P * c) by (apply Z.mul_le_mono_nonneg_l; nia).
  apply (Z.mul_le_mono_pos_r _ _ P); lia.
Qed.

Lemma scaled_lt_4 n d P c :
  0 <= n -> 1 <= P -> 4 <= c -> n * (P * c) < 2 ^ 53 -> 2 ^ 52 <= d * P -> 2 * n < d.
Proof.
  intros Hn HP Hc Hnc Hd.
  assert (n * P * 4 <= n * P * c) by (apply Z.mul_le_mono_nonneg_l; nia).
  apply (Z.mul_lt_mono_pos_r P); lia.
Qed.

(** Below [2^52] buckets and [2^53] entries the test [> 0.75] on
    [float64] quotients is the test on the exact quotient. *)
Lemma load_gt_exact n d :
  0 <= n < 2 ^ 53 -> 1 <= d < 2 ^ 52 ->
  Float64.load_gt n d = (3 * d <? 4 * n).
Proof.
  intros Hn Hd. unfold Float64.load_gt.
  destruct (digits_of d 52) as [Hk2 Hd2]; [lia|].
  set (k2 := Z.log2 d + 1) in *.
  destruct (of_int_normal d k2) as (m2 & -> & HM2 & Hdig2); [lia|done|].
  destruct (Z.eq_dec n 0) as [->|Hn0].
  { cbn. by rewrite (proj2 (Z.ltb_ge _ _)) by lia. }
  destruct (digits_of n 53) as [Hk1 Hd1]; [lia|].
  set (k1 := Z.log2 n + 1) in *.
  destruct (of_int_normal n k1) as (m1 & -> & HM1 & Hdig1); [lia|done|].
  rewrite div_normal by (done || lia).
  set (M1 := Zpos m1) in *. set (M2 := Zpos m2) in *.
  pose proof (digits_bounds m1) as HB1. pose proof (digits_bounds m2) as HB2.
  rewrite Hdig1 in HB1. rewrite Hdig2 in HB2. fold M1 in HB1. fold M2 in HB2.
  change (53 - 1) with 52 in *.
  set (P1 := 2 ^ (53 - k1)) in *. set (P2 := 2 ^ (53 - k2)) in *.
  assert (HP1 : 1 <= P1) by (unfold P1; apply (Z.pow_le_mono_r 2 0); lia).
  assert (HP2 : 2 <= P2) by (unfold P2; apply (Z.pow_le_mono_r 2 1); lia).
  set (Q := M1 * 2 ^ 53 / M2). set (R := (M1 * 2 ^ 53) mod M2).
  assert (HQR : M1 * 2 ^ 53 = M2 * Q + R) by (apply Z.div_mod; lia).
  assert (HR : 0 <= R < M2) by (apply Z.mod_pos_bound; lia).
  assert (HQ : 2 ^ 52 <= Q < 2 ^ 54).
  { split.
    - apply Z.div_le_lower_bound; [lia|]. nia.
    - apply Z.div_lt_upper_bound; [lia|]. nia. }
  set (E := k1 - k2) in *.
  replace (k1 - 53 - (k2 - 53) - 53) with (E - 53) by lia.
  (* how the two scalings compare *)
  assert (HPP : (E = 0 /\ P1 = P2) \/
                (1 <= E /\ exists c, 2 <= c /\ P2 = P1 * c) \/
                (E = -1 /\ P1 = P2 * 2) \/
                (E <= -2 /\ exists c, 4 <= c /\ P1 = P2 * c)).
  { destruct (Z.lt_trichotomy E 0) as [Hneg|[Hz|Hpos]].
    - destruct (Z.eq_dec E (-1)) as [Hm1|Hm1].
      + right. right. left. split; [done|]. unfold P1, P2.
        replace (53 - k1) with ((53 - k2) + 1) by lia.
        rewrite pow2_split by lia. done.
      + right. right. right. split; [lia|]. exists (2 ^ (k2 - k1)). split.
        * apply (Z.pow_le_mono_r 2 2); lia.
        * unfold P1, P2. rewrite <- pow2_split by lia. f_equal. lia.
    - left. split; [done|]. unfold P1, P2. f_equal. lia.
    - right. left. split; [lia|]. exists (2 ^ (k1 - k2)). split.
      + apply (Z.pow_le_mono_r 2 1); lia.
      + unfold P1, P2. rewrite <- pow2_split by lia. f_equal. lia. }
  (* the critical comparison *)
  assert (Hcrit : ((2 * T + 1) * d <? 2 ^ 54 * n) = (3 * d <? 4 * n)).
  { destruct (Z.ltb_spec ((2 * T + 1) * d) (2 ^ 54 * n)), (Z.ltb_spec (3 * d) (4 * n));
      (done || lia). }
  destruct (Z.ltb_spec Q (2 ^ 53)) as [HQ53|HQ54].
  - (* a quotient of 53 bits *)
    assert (HM : M1 < M2).
    { assert (M2 * (Q + 1) <= M2 * 2 ^ 53) by (apply Z.mul_le_mono_nonneg_l; lia).
      apply (Z.mul_lt_mono_pos_r (2 ^ 53)); lia. }
    rewrite round_aux_53 by lia. cbn zeta.
    pose proof (round_nearest_even_range Q (new_location M2 R)) as HQ'.
    pose proof (round_gt_even T Q M2 R eq_refl ltac:(lia) HR) as Hrn.
    set (Q' := round_nearest_even Q (new_location M2 R)) in *.
    assert (Hval : (if Q' <? 2 ^ 53
                    then SFltb Float64.threshold (S754_finite false (Z.to_pos Q') (E - 53))
                    else SFltb Float64.threshold
                           (S754_finite false (Z.to_pos (2 ^ 52)) (E - 53 + 1))) =
                   (0 <? E) || ((E =? 0) && (T <? Q'))).
    { rewrite !gt_threshold, !Z2Pos.id by lia.
      destruct (Z.ltb_spec Q' (2 ^ 53)), (Z.ltb_spec (-53) (E - 53)),
               (Z.eqb_spec (E - 53) (-53)), (Z.ltb_spec 0 E), (Z.eqb_spec E 0),
               (Z.ltb_spec T Q'), (Z.ltb_spec (-53) (E - 53 + 1)),
               (Z.eqb_spec (E - 53 + 1) (-53));
        cbn; (done || lia). }
    transitivity ((0 <? E) || ((E =? 0) && (T <? Q'))); [by destruct (Q' <? 2 ^ 53)|].
    clear Hval.
    destruct HPP as [[HE HP]|[[HE (c & Hc & HP)]|[[HE HP]|[HE (c & Hc & HP)]]]].
    + rewrite HE. cbn [Z.ltb Z.eqb Z.compare orb andb].
      rewrite Hrn, <- Hcrit. replace (Q * M2 + R) with (M1 * 2 ^ 53) by lia.
      rewrite HM1, HM2, <- HP.
      replace ((2 * T + 1) * (d * P1)) with ((2 * T + 1) * d * P1) by lia.
      replace (2 * (n * P1 * 2 ^ 53)) with (2 ^ 54 * n * P1) by lia.
      apply ltb_scale. lia.
    + rewrite (proj2 (Z.ltb_lt 0 E)) by lia. cbn [orb]. symmetry. apply Z.ltb_lt.
      assert (d < n); [|lia].
      apply (scaled_lt_1 n d P1 c); [lia|lia|lia| |].
      * rewrite <- HM1. lia.
      * rewrite <- HP, <- HM2. lia.
    + rewrite HE. cbn [Z.ltb Z.eqb Z.compare orb andb]. symmetry. apply Z.ltb_ge.
      assert (2 * n < d); [|lia].
      apply (scaled_lt_2 n d P2 2); [lia|lia|lia|]. rewrite <- HP, <- HM1, <- HM2. lia.
    + rewrite (proj2 (Z.ltb_ge 0 E)), (proj2 (Z.eqb_neq E 0)) by lia. cbn [orb andb].
      symmetry. apply Z.ltb_ge.
      assert (2 * n < d); [|lia].
      apply (scaled_lt_2 n d P2 c); [lia|lia|lia|]. rewrite <- HP, <- HM1, <- HM2. lia.
  - (* a quotient of 54 bits *)
    assert (HM : M2 <= M1).
    { assert (M2 * 2 ^ 53 <= M2 * Q) by (apply Z.mul_le_mono_nonneg_l; lia).
      apply (Z.mul_le_mono_pos_r _ _ (2 ^ 53)); lia. }
    rewrite round_aux_54 by lia. cbn zeta.
    pose proof (round_shifted_gt_even T Q M2 R eq_refl ltac:(lia) HR ltac:(lia)) as Hrn.
    cbn zeta in Hrn.
    pose proof (shr_1_m Q (new_location M2 R) ltac:(lia)) as Hm.
    set (mrs := shr_1 (shr_record_of_loc Q (new_location M2 R))) in *.
    pose proof (round_nearest_even_range (shr_m mrs) (loc_of_shr_record mrs)) as HQ'.
    set (Q' := round_nearest_even (shr_m mrs) (loc_of_shr_record mrs)) in *.
    assert (2 ^ 52 <= Q / 2 < 2 ^ 53).
    { split; [apply Z.div_le_lower_bound; lia|apply Z.div_lt_upper_bound; lia]. }
    assert (Hval : (if Q' <? 2 ^ 53
                    then SFltb Float64.threshold
                           (S754_finite false (Z.to_pos Q') (E - 53 + 1))
                    else SFltb Float64.threshold
                           (S754_finite false (Z.to_pos (2 ^ 52)) (E - 53 + 1 + 1))) =
                   (0 <=? E) || ((E =? -1) && (T <? Q'))).
    { rewrite !gt_threshold, !Z2Pos.id by lia.
      destruct (Z.ltb_spec Q' (2 ^ 53)), (Z.ltb_spec (-53) (E - 53 + 1)),
               (Z.eqb_spec (E - 53 + 1) (-53)), (Z.leb_spec 0 E), (Z.eqb_spec E (-1)),
               (Z.ltb_spec T Q'), (Z.ltb_spec (-53) (E - 53 + 1 + 1)),
               (Z.eqb_spec (E - 53 + 1 + 1) (-53));
        cbn; (done || lia). }
    transitivity ((0 <=? E) || ((E =? -1) && (T <? Q'))); [by destruct (Q' <? 2 ^ 53)|].
    clear Hval.
    destruct HPP as [[HE HP]|[[HE (c & Hc & HP)]|[[HE HP]|[HE (c & Hc & HP)]]]].
    + rewrite HE. cbn [Z.leb Z.compare orb]. symmetry. apply Z.ltb_lt.
      assert (d <= n); [|lia].
      apply (scaled_le_3 n d P1 1); [lia|lia|lia|]. rewrite Z.mul_1_r, <- HM1, HP, <- HM2. lia.
    + rewrite (proj2 (Z.leb_le 0 E)) by lia. cbn [orb]. symmetry. apply Z.ltb_lt.
      assert (d <= n); [|lia].
      apply (scaled_le_3 n d P1 c); [lia|lia|lia|]. rewrite <- HP, <- HM1, <- HM2. lia.
    + rewrite HE. cbn [Z.leb Z.eqb Z.compare orb andb].
      rewrite Hrn, <- Hcrit. replace (Q * M2 + R) with (M1 * 2 ^ 53) by lia.
      rewrite HM1, HM2, HP.
      replace ((2 * T + 1) * (2 * (d * P2))) with ((2 * T + 1) * d * (2 * P2)) by lia.
      replace (2 * (n * (P2 * 2) * 2 ^ 53)) with (2 ^ 54 * n * (2 * P2)) by lia.
      apply ltb_scale. lia.
    + rewrite (proj2 (Z.leb_gt 0 E)), (proj2 (Z.eqb_neq E (-1))) by lia. cbn [orb andb].
      symmetry. apply Z.ltb_ge.
      assert (2 * n < d); [|lia].
      apply (scaled_lt_4 n d P2 c); [lia|lia|lia| |].
      * rewrite <- HP, <- HM1. lia.
      * rewrite <- HM2. lia.
Qed.

(** The quotient of two such integers is zero or a finite positive
    number. *)
Lemma div_of_int_shape n d :
  0 <= n < 2 ^ 53 -> 1 <= d < 2 ^ 53 ->
  Float64.div (Float64.of_int n) (Float64.of_int d) = S754_zero false \/
  exists m e, Float64.div (Float64.of_int n) (Float64.of_int d) = S754_finite false m e.
Proof.
  intros Hn Hd.
  destruct (digits_of d 53) as [Hk2 Hd2]; [lia|].
  set (k2 := Z.log2 d + 1) in *.
  destruct (of_int_normal d k2) as (m2 & -> & HM2 & Hdig2); [lia|done|].
  destruct (Z.eq_dec n 0) as [->|Hn0]; [by left|right].
  destruct (digits_of n 53) as [Hk1 Hd1]; [lia|].
  set (k1 := Z.log2 n + 1) in *.
  destruct (of_int_normal n k1) as (m1 & -> & HM1 & Hdig1); [lia|done|].
  rewrite div_normal by (done || lia).
  set (M1 := Zpos m1) in *. set (M2 := Zpos m2) in *.
  pose proof (digits_bounds m1) as HB1. pose proof (digits_bounds m2) as HB2.
  rewrite Hdig1 in HB1. rewrite Hdig2 in HB2. fold M1 in HB1. fold M2 in HB2.
  change (53 - 1) with 52 in *.
  set (Q := M1 * 2 ^ 53 / M2). set (R := (M1 * 2 ^ 53) mod M2).
  assert (HQ : 2 ^ 52 <= Q < 2 ^ 54).
  { split.
    - apply Z.div_le_lower_bound; [lia|]. nia.
    - apply Z.div_lt_upper_bound; [lia|]. nia. }
  destruct (Z.ltb_spec Q (2 ^ 53)) as [HQ53|HQ54].
  - rewrite round_aux_53 by lia. cbn zeta. destruct (_ <? _); eauto.
  - rewrite round_aux_54 by lia. cbn zeta. destruct (_ <? _); eauto.
Qed.

(** The test [<= 0.75] of [tryResize], likewise. *)
Lemma load_le_exact n d :
  0 <= n < 2 ^ 53 -> 1 <= d < 2 ^ 52 ->
  Float64.load_le n d = (4 * n <=? 3 * d).
Proof.
  intros Hn Hd. pose proof (load_gt_exact n d Hn Hd) as Hgt.
  unfold Float64.load_gt in Hgt. unfold Float64.load_le.
  assert (Hneg : SFleb (Float64.div (Float64.of_int n) (Float64.of_int d)) Float64.threshold
                 = negb (SFltb Float64.threshold
                               (Float64.div (Float64.of_int n) (Float64.of_int d)))).
  { destruct (div_of_int_shape n d Hn) as [->|(m & e & ->)]; [lia|done|].
    apply le_threshold. }
  rewrite Hneg, Hgt. destruct (Z.ltb_spec (3 * d) (4 * n)), (Z.leb_spec (4 * n) (3 * d));
    (done || lia).
Qed.

End LoadFactor.

(** ** Runs that cannot panic

    A table of fewer than [2^52] buckets holding fewer than [2^50] entries
    is doubled only when three times its bucket count is below four times
    its size, so the bucket count stays below [2^52] and [make] never sees
    a length that is not an [int]. *)

Section Totality.
Context {K V : Type} `{EqDecision K} `{Format K} `{Zero V}.
Variable retries : nat.
Implicit Types (k : K) (v : V) (t : HashTable K V) (l : list event).
Implicit Types (c : @call K V) (cs : list (@call K V)) (f : @ledger K).

Lemma step_total c t l f :
  inv t -> counted t -> agrees f t ->
  bucketSize t < 2 ^ 52 -> size t + 1 <= 2 ^ 50 ->
  exists r t' evs,
    step retries c t l = Done r t' (l ++ evs) /\
    inv t' /\ counted t' /\ agrees (tally_step f (c, r)) t' /\
    size t' <= size t + 1 /\
    (forall k, stored t' k = apply_call (stored t) c k) /\
    (forall k, k ∈ keys t' -> k ∈ keys t \/ k = called c) /\
    bucketSize t' < 2 ^ 52.
Proof.
  intros Ht Hc Hf Hb Hs. pose proof (inv_bucketSize _ Ht) as Hn.
  assert (0 <= size t) by (rewrite Hc; lia).
  destruct (step_cases retries c t l f Ht Hc Hf)
    as [[_ Hbig]|(r & t' & evs & Hrun & Ht' & Hc' & Hf' & Hs' & Hst & Hk & Hbs)].
  - unfold Int64.max_int. lia.
  - unfold Int64.max_int in Hbig. lia.
  - exists r, t', evs. do 7 (split; [done|]).
    destruct Hbs as [->|[-> Hle]]; [done|].
    rewrite load_le_exact in Hle by lia. apply Z.leb_gt in Hle. lia.
Qed.

Lemma run_total cs t l f :
  inv t -> counted t -> agrees f t ->
  bucketSize t < 2 ^ 52 -> size t + Z.of_nat (length cs) <= 2 ^ 50 ->
  exists tr t' evs,
    run retries cs t l = Done tr t' (l ++ evs) /\
    inv t' /\ counted t' /\ agrees (fold_left tally_step tr f) t' /\
    fst <$> tr = cs /\
    (forall k, stored t' k = fold_left apply_call cs (stored t) k) /\
    (forall k, k ∈ keys t' -> k ∈ keys t \/ k ∈ called <$> cs) /\
    bucketSize t' < 2 ^ 52.
Proof.
  revert t l f. induction cs as [|c cs IH]; intros t l f Ht Hc Hf Hb Hs.
  - exists [], t, []. rewrite app_nil_r. do 6 (split; [done|]).
    split; [|done]. intros k ?. by left.
  - cbn [length] in Hs.
    destruct (step_total c t l f Ht Hc Hf Hb)
      as (r & t1 & evs1 & Hrun1 & Ht1 & Hc1 & Hf1 & Hs1 & Hst1 & Hk1 & Hb1); [lia|].
    destruct (IH t1 (l ++ evs1) _ Ht1 Hc1 Hf1 Hb1)
      as (tr & t2 & evs2 & Hrun2 & Ht2 & Hc2 & Hf2 & Htr & Hst2 & Hk2 & Hb2); [lia|].
    exists ((c, r) :: tr), t2, (evs1 ++ evs2).
    cbn [run]. unfold Op.bind, Op.ret. rewrite Hrun1, Hrun2, <- app_assoc.
    do 4 (split; [done|]). split; [by rewrite fmap_cons, Htr|]. split; [|split; [|done]].
    + intros k. rewrite Hst2. cbn [fold_left]. by apply fold_apply_call_ext.
    + intros k Hk. rewrite fmap_cons, elem_of_cons.
      destruct (Hk2 k Hk) as [Hk'|?]; [|tauto].
      destruct (Hk1 k Hk'); tauto.
Qed.

(** From a new table. *)
Lemma run_New_total n cs :
  n < 2 ^ 52 -> Z.of_nat (length cs) <= 2 ^ 50 ->
  exists tr t l, run retries cs (@New K V n) [] = Done tr t l.
Proof.
  intros Hn Hlen.
  destruct (run_total cs (@New K V n) [] (fun _ => (0%nat, 0%nat)))
    as (tr & t & evs & Hrun & _).
  - apply New_inv. unfold Int64.max_int. lia.
  - apply New_counted.
  - intros k. rewrite New_keys. by rewrite decide_False by apply not_elem_of_nil.
  - rewrite New_bucketSize. destruct (Z.ltb_spec n 1); lia.
  - cbn [New size]. lia.
  - eauto.
Qed.

End Totality.

(** * The properties of the specification *)

Section Properties.
Context {K V : Type} `{EqDecision K} `{Format K} `{Zero V}.
Variable retries : nat.
Implicit Types (k : K) (v : V) (t : HashTable K V) (l : list event).
Implicit Types (c : @call K V) (cs : list (@call K V)).

(** C7.  The bucket count is at least 1 in every reachable state (and is
    the length of the bucket array).  [New] sets it to 16 when the requested
    size is below 1 and to the requested size otherwise.  No call changes
    it except [Put], through [tryResize], and what these do to it is to
    double it exactly: it never shrinks. *)
Theorem bucket_count_positive_and_only_doubles t :
  reachable retries t ->
  1 <= bucketSize t /\
  Z.of_nat (length (buckets t)) = bucketSize t /\
  (forall n, n < 1 -> bucketSize (@New K V n) = 16) /\
  (forall n, 1 <= n -> bucketSize (@New K V n) = n) /\
  (forall l t' l', tryResize t l = Done tt t' l' ->
     (bucketSize t' = bucketSize t \/ bucketSize t' = 2 * bucketSize t) /\
     bucketSize t <= bucketSize t') /\
  (forall k v l t' l', Put retries k v t l = Done tt t' l' ->
     (bucketSize t' = bucketSize t \/ bucketSize t' = 2 * bucketSize t) /\
     bucketSize t <= bucketSize t') /\
  (forall k l r t' l', Get retries k t l = Done r t' l' -> bucketSize t' = bucketSize t) /\
  (forall k l r t' l', Delete retries k t l = Done r t' l' -> bucketSize t' = bucketSize t) /\
  (forall l n t' l', Size t l = Done n t' l' -> bucketSize t' = bucketSize t).
Proof.
  intros Ht%reachable_inv. pose proof (inv_bucketSize _ Ht) as Hn.
  split; [lia|]. split; [apply (inv_length _ Ht)|].
  split; [intros n Hlt; rewrite New_bucketSize; by rewrite (proj2 (Z.ltb_lt _ _))|].
  split; [intros n Hge; rewrite New_bucketSize; by rewrite (proj2 (Z.ltb_ge _ _))|].
  split; [|split; [|split; [|split]]].
  - intros l t' l' Hrun.
    destruct (tryResize_cases t l Ht) as [(Hp & _)|(t2 & evs & Hd & _ & _ & _ & Hb)];
      [congruence|].
    rewrite Hd in Hrun. injection Hrun as <- _. rewrite Hb.
    destruct (Float64.load_le _ _); lia.
  - intros k v l t' l' Hrun.
    destruct (Put_cases retries k v t l Ht) as [(Hp & _)|(t2 & evs & Hd & _ & _ & _ & _ & Hb)];
      [congruence|].
    rewrite Hd in Hrun. injection Hrun as <- _. lia.
  - intros k l r t' l' Hrun. rewrite (Get_stored retries _ _ _ Ht) in Hrun.
    by injection Hrun as _ <- _.
  - intros k l r t' l' Hrun.
    destruct (Delete_cases retries k t l Ht) as (t2 & evs & Hd & _ & _ & _ & _ & Hb).
    rewrite Hd in Hrun. by injection Hrun as _ <- _.
  - intros l n t' l' Hrun. rewrite Size_run in Hrun. by injection Hrun as _ <- _.
Qed.

(** C8.  In every reachable state [hash] returns, for every key, an index
    [i] with [0 <= i < bucketSize], which is a valid index of the bucket
    array; the index depends on the key and on the bucket count only. *)
Theorem hash_in_range_and_deterministic t k l :
  reachable retries t ->
  exists i,
    hash k t l = Done i t (l ++ [MuRLock; Read FBucketSize; MuRUnlock]) /\
    0 <= i < bucketSize t /\
    is_Some (buckets t !! Z.to_nat i) /\
    (forall t2 l2, reachable retries t2 -> bucketSize t2 = bucketSize t ->
       hash k t2 l2 = Done i t2 (l2 ++ [MuRLock; Read FBucketSize; MuRUnlock])).
Proof.
  intros Ht%reachable_inv. pose proof (inv_bucketSize _ Ht) as Hn.
  pose proof (slot_range k _ (proj1 Hn)) as Hr.
  exists (slot k (bucketSize t)). split; [apply hash_run; lia|]. split; [done|].
  split.
  - apply lookup_lt_is_Some_2. pose proof (inv_length _ Ht). lia.
  - intros t2 l2 Ht2%reachable_inv Heq. rewrite <- Heq. apply hash_run.
    pose proof (inv_bucketSize _ Ht2). lia.
Qed.

(** C9.  In every reachable state, [Get] of a key that is not in the table
    returns the zero value and [false], in the same state: the size counter
    and the entries of every bucket are what they were. *)
Theorem Get_absent_key t k l :
  reachable retries t -> k ∉ keys t ->
  exists l',
    Get retries k t l = Done (zero, false) t l' /\
    forall r t' l'', Get retries k t l = Done r t' l'' ->
      r = (zero, false) /\ size t' = size t /\ buckets t' = buckets t.
Proof.
  intros Ht%reachable_inv Hk%stored_None.
  pose proof (Get_stored retries k t l Ht) as Hrun. rewrite Hk in Hrun.
  eexists. split; [exact Hrun|]. intros r t' l'' Hrun'.
  rewrite Hrun in Hrun'. by injection Hrun' as <- <- _.
Qed.

(** C6.  In every reachable state, [Delete] of a key that is not in the
    table returns [false] in the same state.  [Delete] of a key that is in
    the table returns [true], the key is no longer in the table, the other
    keys keep their values, and the size counter is decremented; a second
    [Delete] of the same key then returns [false]. *)
Theorem Delete_absent_and_present t k l :
  reachable retries t ->
  (k ∉ keys t ->
     exists l', Delete retries k t l = Done false t l') /\
  (k ∈ keys t ->
     exists t' l',
       Delete retries k t l = Done true t' l' /\
       keys t ≡ₚ k :: keys t' /\ (k ∉ keys t') /\
       (forall k', k' <> k -> stored t' k' = stored t k') /\
       size t' = Int64.wrap (size t - 1) /\
       (counted t -> size t' = size t - 1 /\ counted t') /\
       exists l'', Delete retries k t' l' = Done false t' l'').
Proof.
  intros Ht%reachable_inv. split; intros Hk.
  - eexists. by apply Delete_absent.
  - destruct (Delete_cases retries k t l Ht) as (t' & evs & Hrun & Ht' & Hst & Hkeys & Hsz & _).
    rewrite bool_decide_eq_true_2 in Hrun by done.
    destruct (decide (k ∈ keys t)); [|done].
    assert (Hk' : k ∉ keys t').
    { pose proof (inv_nodup _ Ht) as Hnd. rewrite Hkeys in Hnd.
      by apply NoDup_cons in Hnd as [? _]. }
    exists t', (l ++ evs). split; [done|]. split; [done|]. split; [done|].
    split; [intros k' Hne; by rewrite Hst, decide_False|].
    split; [done|]. split.
    + intros Hc%counted_keys.
      assert (Hlen : length (keys t) = S (length (keys t'))) by (by rewrite Hkeys).
      assert (Hw : Int64.wrap (size t + -1) = size t - 1).
      { apply Int64_wrap_small. pose proof (inv_size _ Ht) as [? ?].
        unfold Int64.in_range, Int64.min_int. lia. }
      split; [lia|]. apply counted_keys. lia.
    + eexists. by apply Delete_absent.
Qed.

(** [Put] returns whenever the bucket count can still be doubled. *)
Lemma Put_done k v t l :
  inv t -> bucketSize t * 2 <= Int64.max_int ->
  exists t' evs,
    Put retries k v t l = Done tt t' (l ++ evs) /\
    inv t' /\
    (forall k', stored t' k' = if decide (k' = k) then Some v else stored t k') /\
    keys t' ≡ₚ (if decide (k ∈ keys t) then keys t else k :: keys t) /\
    size t' = (if decide (k ∈ keys t) then size t else Int64.wrap (size t + 1)) /\
    (bucketSize t' = bucketSize t \/
     bucketSize t' = bucketSize t * 2 /\
     Float64.load_le (Int64.wrap (size t + 1)) (bucketSize t) = false).
Proof.
  intros Ht Hfit. destruct (Put_cases retries k v t l Ht) as [(_ & Hbig & _)|Hd]; [lia|done].
Qed.

Lemma Get_found k v t l :
  inv t -> stored t k = Some v ->
  exists l', Get retries k t l = Done (v, true) t l'.
Proof. intros Ht Hst. eexists. rewrite (Get_stored retries _ _ _ Ht), Hst. done. Qed.

(** C5.  In every reachable state, [Put] of a key that is in the table
    locks the bucket, overwrites the value and unlocks: these are all its
    events, so the size counter is not touched and the load factor is not
    looked at.  The size counter, the bucket count and the sequence of keys
    of every bucket are unchanged, the key has the new value and the other
    keys keep theirs.  In particular, after [Put(k, v1); Put(k, v2)] on a
    new table, [Get(k)] returns [(v2, true)] and [Size()] returns 1. *)
Theorem Put_existing_key_updates_in_place :
  (forall t k v l,
     reachable retries t -> k ∈ keys t ->
     exists t',
       Put retries k v t l =
         Done tt t' (l ++ route ++ [BucketLock Current (slot k (bucketSize t));
                                    BucketUnlock Current (slot k (bucketSize t))]) /\
       size t' = size t /\ bucketSize t' = bucketSize t /\
       (fun b => key <$> entries b) <$> buckets t' =
         (fun b => key <$> entries b) <$> buckets t /\
       stored t' k = Some v /\
       (forall k', k' <> k -> stored t' k' = stored t k') /\
       (forall l2, exists l3, Get retries k t' l2 = Done (v, true) t' l3) /\
       (forall l2, Size t' l2 = Done (size t) t' (l2 ++ [SizeLoad]))) /\
  (forall n k v1 v2,
     Int64.in_range n -> n * 2 <= Int64.max_int ->
     exists t1 l1 t2 l2 l3,
       Put retries k v1 (New n) [] = Done tt t1 l1 /\
       Put retries k v2 t1 l1 = Done tt t2 l2 /\
       Get retries k t2 l2 = Done (v2, true) t2 l3 /\
       Size t2 l3 = Done 1 t2 (l3 ++ [SizeLoad])).
Proof.
  split.
  - intros t k v l Ht%reachable_inv Hin.
    destruct (Put_present retries k v t l Ht Hin)
      as (t' & Hrun & Ht' & Hkeys & Hk & Hother & Hsz & Hn).
    exists t'. split; [done|]. split; [done|]. split; [done|]. split; [done|].
    split; [done|]. split; [done|]. split.
    + intros l2. by apply Get_found.
    + intros l2. by rewrite Size_run, Hsz.
  - intros n k v1 v2 Hn Hfit.
    pose proof (New_inv (K:=K) (V:=V) n (proj2 Hn)) as Ht0.
    assert (Hfit0 : bucketSize (@New K V n) * 2 <= Int64.max_int).
    { rewrite New_bucketSize. destruct (Z.ltb_spec n 1); [|done].
      unfold Int64.max_int. lia. }
    destruct (Put_done k v1 _ [] Ht0 Hfit0)
      as (t1 & evs1 & Hrun1 & Ht1 & Hst1 & Hkeys1 & Hsz1 & _).
    rewrite New_keys in Hkeys1, Hsz1.
    destruct (decide (k ∈ [])) as [Hx|_]; [by apply elem_of_nil in Hx|].
    assert (Hin1 : k ∈ keys t1) by (rewrite Hkeys1; by left).
    destruct (Put_present retries k v2 t1 ([] ++ evs1) Ht1 Hin1)
      as (t2 & Hrun2 & Ht2 & _ & Hk2 & _ & Hsz2 & _).
    destruct (Get_found k v2 t2 (([] ++ evs1) ++ route ++
                [BucketLock Current (slot k (bucketSize t1));
                 BucketUnlock Current (slot k (bucketSize t1))]) Ht2 Hk2) as (l3 & Hget).
    eexists t1, ([] ++ evs1), t2, _, l3.
    split; [done|]. split; [exact Hrun2|]. split; [done|].
    rewrite Size_run, Hsz2, Hsz1. done.
Qed.

(** C10.  Two distinct keys with the same formatted string go to the same
    bucket and are kept as two entries: after [Put(k1, v1); Put(k2, v2)],
    [Get(k1)] returns [(v1, true)], [Get(k2)] returns [(v2, true)], both
    entries are in the bucket the keys hash to, and when neither key was in
    the table before, the size counter has grown by two. *)
Theorem same_format_distinct_keys_kept_apart t k1 k2 v1 v2 l :
  reachable retries t -> k1 <> k2 -> format k1 = format k2 ->
  bucketSize t * 4 <= Int64.max_int ->
  exists t1 l1 t2 l2 b,
    Put retries k1 v1 t l = Done tt t1 l1 /\
    Put retries k2 v2 t1 l1 = Done tt t2 l2 /\
    (exists l3, Get retries k1 t2 l2 = Done (v1, true) t2 l3) /\
    (exists l3, Get retries k2 t2 l2 = Done (v2, true) t2 l3) /\
    slot k1 (bucketSize t2) = slot k2 (bucketSize t2) /\
    buckets t2 !! Z.to_nat (slot k1 (bucketSize t2)) = Some b /\
    Entry k1 v1 ∈ entries b /\ Entry k2 v2 ∈ entries b /\
    (k1 ∉ keys t -> k2 ∉ keys t ->
       keys t2 ≡ₚ k2 :: k1 :: keys t /\
       (counted t -> size t + 2 <= Int64.max_int ->
          size t2 = size t + 2 /\ counted t2)).
Proof.
  intros Ht%reachable_inv Hne Hfmt Hfit.
  pose proof (inv_bucketSize _ Ht) as Hn.
  destruct (Put_done k1 v1 t l Ht) as (t1 & evs1 & Hrun1 & Ht1 & Hst1 & Hkeys1 & Hsz1 & Hb1);
    [lia|].
  destruct (Put_done k2 v2 t1 (l ++ evs1) Ht1)
    as (t2 & evs2 & Hrun2 & Ht2 & Hst2 & Hkeys2 & Hsz2 & Hb2); [lia|].
  assert (Hk1 : stored t2 k1 = Some v1).
  { rewrite Hst2, decide_False by done. by rewrite Hst1, decide_True. }
  assert (Hk2 : stored t2 k2 = Some v2) by (by rewrite Hst2, decide_True).
  assert (Hslot : slot k1 (bucketSize t2) = slot k2 (bucketSize t2)).
  { unfold slot, sum. by rewrite Hfmt. }
  destruct (home_lookup t2 k1 Ht2) as (b & Hb & Hhome1).
  assert (Hhome2 : home t2 k2 = entries b) by (unfold home; by rewrite <- Hslot, Hb).
  exists t1, (l ++ evs1), t2, ((l ++ evs1) ++ evs2), b.
  split; [done|]. split; [done|].
  split; [by apply Get_found|]. split; [by apply Get_found|].
  split; [done|]. split; [done|].
  split; [apply find_Some_elem; by rewrite <- Hhome1, <- (stored_home _ _ Ht2)|].
  split; [apply find_Some_elem; by rewrite <- Hhome2, <- (stored_home _ _ Ht2)|].
  intros Hk1' Hk2'. destruct (decide (k1 ∈ keys t)); [done|].
  assert (Hk21 : k2 ∉ keys t1).
  { rewrite Hkeys1. apply not_elem_of_cons. split; [congruence|done]. }
  destruct (decide (k2 ∈ keys t1)); [done|].
  split; [by rewrite Hkeys2, Hkeys1|].
  intros Hc%counted_keys Hmax.
  assert (Hw1 : Int64.wrap (size t + 1) = size t + 1).
  { apply Int64_wrap_small. unfold Int64.in_range, Int64.min_int. lia. }
  assert (Hw2 : Int64.wrap (size t + 1 + 1) = size t + 2).
  { rewrite Int64_wrap_small; [lia|]. unfold Int64.in_range, Int64.min_int. lia. }
  rewrite Hsz1, Hw1 in Hsz2. rewrite Hw2 in Hsz2. split; [done|].
  apply counted_keys. rewrite Hsz2, Hkeys2, Hkeys1. cbn [length]. lia.
Qed.

(** X14.  Calls of [Put] and [Delete] made one after the other on a new
    table all return, unless the run stops at the panic of [make] for a
    bucket array too long for an [int], which takes at least [2^52] buckets
    or more than [2^50] calls.  When they have all returned, [Size()]
    returns the number of distinct keys whose inserts (Puts of a key that
    is not in the table) outnumber their successful Deletes (those that
    returned [true]); these keys are the keys in the table, that is, the
    keys that [Get] finds. *)
Theorem Size_is_number_of_live_keys n cs :
  Int64.in_range n -> Z.of_nat (length cs) <= Int64.max_int ->
  (run retries cs (New n) [] = Panicked MakeSliceLenOutOfRange \/
   exists tr t l,
     run retries cs (New n) [] = Done tr t l /\ fst <$> tr = cs /\
     Size t l = Done (Z.of_nat (length (live tr))) t (l ++ [SizeLoad]) /\
     NoDup (live tr) /\ live tr ≡ₚ keys t /\
     (forall k l2,
        k ∈ live tr <-> exists v l3, Get retries k t l2 = Done (v, true) t l3)) /\
  (n < 2 ^ 52 -> Z.of_nat (length cs) <= 2 ^ 50 ->
   exists tr t l, run retries cs (New n) [] = Done tr t l).
Proof.
  intros Hn Hlen. split; [|by apply run_New_total].
  destruct (run_cases retries cs (@New K V n) [] (fun _ => (0%nat, 0%nat)))
    as [Hp|(tr & t & evs & Hrun & Ht & Hc & Hf & Htr & _ & Hk)].
  - apply New_inv, Hn.
  - apply New_counted.
  - intros k. rewrite New_keys. by rewrite decide_False by apply not_elem_of_nil.
  - cbn [New size]. lia.
  - by left.
  - right. exists tr, t, ([] ++ evs). split; [done|]. split; [done|].
    fold (tally tr) in Hf.
    assert (Hlive : forall k, k ∈ live tr <-> k ∈ keys t).
    { intros k. unfold live. rewrite list_elem_of_filter, elem_of_remove_dups.
      pose proof (Hf k) as Hfk. split.
      - intros [Hlt _]. destruct (decide (k ∈ keys t)); [done|lia].
      - intros Hin. rewrite decide_True in Hfk by done. split; [lia|].
        destruct (Hk k Hin) as [Hnew|Hcs].
        + rewrite New_keys in Hnew. by apply elem_of_nil in Hnew.
        + by rewrite list_fmap_compose, Htr. }
    assert (Hnd : NoDup (live tr)).
    { unfold live. apply NoDup_filter, NoDup_remove_dups. }
    assert (Hperm : live tr ≡ₚ keys t).
    { apply NoDup_Permutation; [done|apply (inv_nodup _ Ht)|done]. }
    split.
    { rewrite Size_run. apply counted_keys in Hc. by rewrite Hc, Hperm. }
    split; [done|]. split; [done|].
    intros k l2. rewrite Hlive, <- stored_is_Some.
    rewrite (Get_stored retries _ _ _ Ht). split.
    + intros [v Hv]. rewrite Hv. eauto.
    + intros (v & l3 & Hget). destruct (stored t k); [done|]. by injection Hget.
Qed.


(** The resize request of [Put], for C4: in a reachable state, [Put] of a
    key that is not in the table appends the entry, adds one to the size
    counter, and calls [tryResize] exactly when
    [float64(newSize)/float64(ht.bucketSize) > 0.75]; the call doubles the
    bucket count, unless the doubled count is not an [int]. *)
Lemma Put_new_key_requests_resize t k v l :
  reachable retries t -> k ∉ keys t ->
  let t1 :=
    Table (<[Z.to_nat (slot k (bucketSize t)) := Bucket (home t k ++ [Entry k v])]>
             (buckets t))
          (Int64.wrap (size t + 1)) (bucketSize t) (resizing t) in
  let l1 :=
    l ++ route ++ [BucketLock Current (slot k (bucketSize t));
                   BucketUnlock Current (slot k (bucketSize t));
                   SizeAdd 1; Read FBucketSize] in
  Put retries k v t l =
    (if Float64.load_gt (Int64.wrap (size t + 1)) (bucketSize t)
     then tryResize t1 l1 else Done tt t1 l1) /\
  (Float64.load_gt (Int64.wrap (size t + 1)) (bucketSize t) = true ->
   (tryResize t1 l1 = Panicked MakeSliceLenOutOfRange /\
    Int64.max_int < bucketSize t * 2) \/
   exists t' l', tryResize t1 l1 = Done tt t' l' /\ bucketSize t' = 2 * bucketSize t).
Proof.
  intros Ht%reachable_inv Hnin t1 l1.
  assert (Hu : update k v (home t k) = None).
  { apply update_None. rewrite <- (stored_home _ _ Ht). by apply stored_None. }
  split; [by rewrite (Put_run retries _ _ _ _ Ht), Hu|].
  intros Hgt%load_gt_not_le.
  destruct (append_inv k v t Ht Hnin) as [Ht1 _]. fold t1 in Ht1.
  destruct (tryResize_cases t1 l1 Ht1) as [(Hp & Hbig & _)|(t' & evs & Hrun & _ & _ & _ & Hb)].
  - by left.
  - right. exists t', (l1 ++ evs). split; [done|].
    change (size t1) with (Int64.wrap (size t + 1)) in Hb.
    change (bucketSize t1) with (bucketSize t) in Hb. rewrite Hgt in Hb. lia.
Qed.

End Properties.

(** * The scenarios, and instances of the theorems *)

(** Above [2^52] buckets the quotient of the two [float64] can be 0.75
    when the exact quotient is above it. *)
Lemma load_gt_inexact_above_bound :
  Float64.load_gt (3 * 2 ^ 50 + 1) (2 ^ 52 + 1) = false /\
  3 * (2 ^ 52 + 1) < 4 * (3 * 2 ^ 50 + 1).
Proof. split; [vm_compute; reflexivity|lia]. Qed.

(** C4.  In a reachable state, [Put] of a key that is not in the table
    appends the entry, adds one to the size counter and then calls
    [tryResize] exactly when [float64(newSize)/float64(ht.bucketSize)] is
    above 0.75; the call doubles the bucket count (or panics, when the
    double is not an [int]).  Below [2^53] entries and [2^52] buckets the
    quotient of the two [float64] is above 0.75 exactly when the size
    divided by the bucket count is.  Scenario A: on a table made with 4 buckets,
    after [Put(i, "v"+i)] for [i] from 0 to 9, [Size()] returns 10,
    [Get(i)] returns [("v"+i, true)] for each of them, and the bucket count
    is at least 16. *)
Theorem resize_requested_above_load_factor :
  (forall (K V : Type) `(EqDecision K) `(Format K) `(Zero V) (retries : nat)
          (t : HashTable K V) (k : K) (v : V) (l : list event),
     reachable retries t -> k ∉ keys t ->
     let t1 :=
       Table (<[Z.to_nat (slot k (bucketSize t)) := Bucket (home t k ++ [Entry k v])]>
                (buckets t))
             (Int64.wrap (size t + 1)) (bucketSize t) (resizing t) in
     let l1 :=
       l ++ route ++ [BucketLock Current (slot k (bucketSize t));
                      BucketUnlock Current (slot k (bucketSize t));
                      SizeAdd 1; Read FBucketSize] in
     Put retries k v t l =
       (if Float64.load_gt (Int64.wrap (size t + 1)) (bucketSize t)
        then tryResize t1 l1 else Done tt t1 l1) /\
     (Float64.load_gt (Int64.wrap (size t + 1)) (bucketSize t) = true ->
      (tryResize t1 l1 = Panicked MakeSliceLenOutOfRange /\
       Int64.max_int < bucketSize t * 2) \/
      exists t' l', tryResize t1 l1 = Done tt t' l' /\ bucketSize t' = 2 * bucketSize t)) /\
  (forall n d : Z,
     0 <= n < 2 ^ 53 -> 1 <= d < 2 ^ 52 ->
     Float64.load_gt n d = true <-> 3 * d < 4 * n) /\
  (forall retries : nat,
     exists tr t l,
       run retries scenarioA (New 4) [] = Done tr t l /\
       Size t l = Done 10 t (l ++ [SizeLoad]) /\
       (fun i => returned (Get retries i t l)) <$> seqZ 0 10 = scenarioA_values /\
       16 <= bucketSize t).
Proof.
  split; [|split].
  - intros K V ? ? ? retries t k v l Ht Hk. by apply Put_new_key_requests_resize.
  - intros n d Hn Hd. rewrite load_gt_exact by done. apply Z.ltb_lt.
  - intros retries. eexists _, _, _. split; [vm_compute; reflexivity|].
    split; [vm_compute; reflexivity|]. split; [vm_compute; reflexivity|].
    vm_compute. discriminate.
Qed.

(** ** Instances *)

Lemma in_range_4 : Int64.in_range 4.
Proof. unfold Int64.in_range, Int64.min_int, Int64.max_int. lia. Defined.

Lemma in_range_16 : Int64.in_range 16.
Proof. unfold Int64.in_range, Int64.min_int, Int64.max_int. lia. Defined.

Lemma tableA_reachable : reachable 0 tableA.
Proof.
  apply (run_reachable 0 scenarioA (New 4) [] (zip scenarioA (replicate 10 PutDone))
           tableA (snd (match run 0 scenarioA (@New Z string 4) [] with
                        | Done _ _ l => (tt, l) | _ => (tt, []) end))).
  - apply reach_New, in_range_4.
  - vm_compute. reflexivity.
Defined.

(** Scenario A went through two resizes. *)
Lemma tableA_bucketSize : bucketSize tableA = 16.
Proof. vm_compute. reflexivity. Qed.

Lemma bucket_count_witness :
  reachable 0 tableA /\ 1 <= bucketSize tableA /\
  Z.of_nat (length (buckets tableA)) = bucketSize tableA.
Proof.
  split; [exact tableA_reachable|].
  pose proof (bucket_count_positive_and_only_doubles 0 tableA tableA_reachable)
    as (H1 & H2 & _).
  exact (conj H1 H2).
Defined.

Lemma hash_witness :
  reachable 0 tableA /\
  exists i, hash 7 tableA [] = Done i tableA [MuRLock; Read FBucketSize; MuRUnlock] /\
            0 <= i < 16.
Proof.
  split; [exact tableA_reachable|].
  destruct (hash_in_range_and_deterministic 0 tableA 7 [] tableA_reachable)
    as (i & Hrun & Hr & _).
  exists i. split; [exact Hrun|]. rewrite tableA_bucketSize in Hr. exact Hr.
Defined.

Lemma Get_absent_witness :
  reachable 0 tableA /\ (10 ∉ keys tableA) /\
  exists l', Get 0 10 tableA [] = Done (zero, false) tableA l'.
Proof.
  assert (Hk : 10 ∉ keys tableA).
  { apply (bool_decide_unpack (10 ∉ keys tableA)). vm_compute. exact I. }
  split; [exact tableA_reachable|]. split; [exact Hk|].
  destruct (Get_absent_key 0 tableA 10 [] tableA_reachable Hk) as (l' & Hrun & _).
  exists l'. exact Hrun.
Defined.

Lemma Delete_witness :
  reachable 0 tableA /\ 3 ∈ keys tableA /\
  exists t' l' l'',
    Delete 0 3 tableA [] = Done true t' l' /\
    size t' = 9 /\
    Delete 0 3 t' l' = Done false t' l''.
Proof.
  assert (Hk : 3 ∈ keys tableA).
  { apply (bool_decide_unpack (3 ∈ keys tableA)). vm_compute. exact I. }
  split; [exact tableA_reachable|]. split; [exact Hk|].
  destruct (proj2 (Delete_absent_and_present 0 tableA 3 [] tableA_reachable) Hk)
    as (t' & l' & Hrun & _ & _ & _ & Hsz & _ & (l'' & Hrun')).
  exists t', l', l''. split; [exact Hrun|]. split; [|exact Hrun'].
  rewrite Hsz. vm_compute. reflexivity.
Defined.

Lemma Put_twice_witness :
  Int64.in_range 16 /\ 16 * 2 <= Int64.max_int /\
  exists (t1 : HashTable string Z) l1 t2 l2 l3,
    Put 0 "a"%string 1 (New 16) [] = Done tt t1 l1 /\
    Put 0 "a"%string 2 t1 l1 = Done tt t2 l2 /\
    Get 0 "a"%string t2 l2 = Done (2, true) t2 l3 /\
    Size t2 l3 = Done 1 t2 (l3 ++ [SizeLoad]).
Proof.
  assert (Hfit : 16 * 2 <= Int64.max_int) by (unfold Int64.max_int; lia).
  split; [exact in_range_16|]. split; [exact Hfit|].
  exact (proj2 (Put_existing_key_updates_in_place (K:=string) (V:=Z) 0)
               16 "a"%string 1 2 in_range_16 Hfit).
Defined.

Lemma same_format_witness :
  reachable 0 (New 16 : HashTable any Z) /\
  AnyInt 1 <> AnyString "1" /\
  format (AnyInt 1) = format (AnyString "1") /\
  exists (t1 : HashTable any Z) l1 t2 l2,
    Put 0 (AnyInt 1) 10 (New 16) [] = Done tt t1 l1 /\
    Put 0 (AnyString "1") 20 t1 l1 = Done tt t2 l2 /\
    (exists l3, Get 0 (AnyInt 1) t2 l2 = Done (10, true) t2 l3) /\
    (exists l3, Get 0 (AnyString "1") t2 l2 = Done (20, true) t2 l3) /\
    size t2 = 2.
Proof.
  assert (Hr : reachable 0 (New 16 : HashTable any Z)) by apply reach_New, in_range_16.
  assert (Hne : AnyInt 1 <> AnyString "1") by discriminate.
  assert (Hfmt : format (AnyInt 1) = format (AnyString "1")) by reflexivity.
  assert (Hfit : bucketSize (New 16 : HashTable any Z) * 4 <= Int64.max_int).
  { vm_compute. discriminate. }
  split; [exact Hr|]. split; [exact Hne|]. split; [exact Hfmt|].
  destruct (same_format_distinct_keys_kept_apart 0 (New 16) (AnyInt 1) (AnyString "1")
              10 20 [] Hr Hne Hfmt Hfit)
    as (t1 & l1 & t2 & l2 & b & Hrun1 & Hrun2 & Hg1 & Hg2 & _ & _ & _ & _ & Hsize).
  exists t1, l1, t2, l2. split; [exact Hrun1|]. split; [exact Hrun2|].
  split; [exact Hg1|]. split; [exact Hg2|].
  refine (proj1 (proj2 (Hsize _ _) _ _)).
  - rewrite New_keys. apply not_elem_of_nil.
  - rewrite New_keys. apply not_elem_of_nil.
  - apply New_counted.
  - vm_compute. discriminate.
Defined.

Lemma Size_witness :
  Int64.in_range 4 /\ Z.of_nat (length scenarioD) <= Int64.max_int /\
  exists tr t l,
    run 0 scenarioD (New 4) [] = Done tr t l /\
    live tr = ["a"%string] /\
    Size t l = Done 1 t (l ++ [SizeLoad]).
Proof.
  assert (Hlen : Z.of_nat (length scenarioD) <= Int64.max_int) by (vm_compute; discriminate).
  split; [exact in_range_4|]. split; [exact Hlen|].
  destruct (proj1 (Size_is_number_of_live_keys (K:=string) (V:=Z) 0 4 scenarioD
                     in_range_4 Hlen))
    as [Hp|(tr & t & l & Hrun & _ & Hsize & _)].
  - vm_compute in Hp. discriminate.
  - exists tr, t, l. split; [exact Hrun|].
    assert (Hlive : live tr = ["a"%string]).
    { vm_compute in Hrun. injection Hrun as <- _ _. vm_compute. reflexivity. }
    split; [exact Hlive|]. rewrite Hsize, Hlive. reflexivity.
Defined.


Lemma resize_request_witness :
  reachable 0 tableA /\ (10 ∉ keys tableA) /\
  Float64.load_gt (Int64.wrap (size tableA + 1)) (bucketSize tableA) = false /\
  exists t1 l1, Put 0 10 "v10"%string tableA [] = Done tt t1 l1 /\ bucketSize t1 = 16.
Proof.
  assert (Hk : 10 ∉ keys tableA).
  { apply (bool_decide_unpack (10 ∉ keys tableA)). vm_compute. exact I. }
  assert (Hload : Float64.load_gt (Int64.wrap (size tableA + 1)) (bucketSize tableA) = false)
    by (vm_compute; reflexivity).
  split; [exact tableA_reachable|]. split; [exact Hk|]. split; [exact Hload|].
  pose proof (proj1 (proj1 resize_requested_above_load_factor Z string _ _ _ 0%nat tableA 10
                       "v10"%string [] tableA_reachable Hk)) as Hput.
  rewrite Hload in Hput. eexists _, _. split; [exact Hput|]. vm_compute. reflexivity.
Defined.

(** C3, as stated, fails: [Get(3)] on a new table of 4 buckets reads the
    bucket array and locks the bucket when it no longer holds [ht.mu]. *)
Lemma Get_breaks_the_lock_discipline :
  ~ (forall r t' l',
       Get 0 3 (New 4 : HashTable Z string) [] = Done r t' l' ->
       guarded false l' = true).
Proof.
  intros Hc.
  specialize (Hc (zero, false) (New 4)
                [MuRLock; Read FBucketSize; MuRUnlock; Read FBuckets; Read FBuckets;
                 BucketRLock 2; BucketRUnlock 2] eq_refl).
  vm_compute in Hc. discriminate.
Qed.

(** ** Calls that overlap

    The theorems above are about calls made one after the other.  They do
    not extend to calls of several goroutines, because the index that
    [hash] returns is used after [ht.mu] is released, and an index that is
    out of date is retried only when it is not below the length of the
    bucket array, which never happens once the array has grown.  In the
    two executions below goroutine A calls [Put(9, "v9")] on a table of 4
    buckets with the keys 0, 1 and 2, and is suspended when [hash] has
    returned (line 66); other goroutines make their calls, which return;
    then A goes on from line 67 to the end of its call.  When the
    executions end no call is in flight. *)

(** A call of [Put] is [hash] followed by the rest of the loop body. *)
Lemma Put_after_hash {K V : Type} `{EqDecision K} `{Format K} `{Zero V}
    (retries : nat) (k : K) (v : V) (t : HashTable K V) l :
  Put retries k v t l =
  match hash k t l with
  | Done i t' l' => Put_at i k v (Put_loop retries k v) t' l'
  | Panicked p => Panicked p
  | OutOfFuel => OutOfFuel
  end.
Proof. reflexivity. Qed.

(** C2.  Goroutine B calls [Put(3, "v3")] while A is suspended: it doubles
    the table to 8 buckets and returns.  A then appends its entry to
    bucket 0, the index it got for 4 buckets, while key 9 belongs to
    bucket 4 of 8.  [Put(9, "v9")] has returned, no [Delete] was called
    and there was one resize, and [Get(9)] returns the zero value and
    [false].  Had A made its call after B's had returned, [Get(9)] would
    return [("v9", true)]. *)
Theorem Put_overlapping_a_resize_is_not_found :
  exists i l0 l1 t2 l2 l3,
    hash 9 tableA3 [] = Done i tableA3 l0 /\
    Put 0 3 "v3"%string tableA3 l0 = Done tt tableA4 l1 /\
    bucketSize tableA3 = 4 /\ bucketSize tableA4 = 8 /\
    Put_at i 9 "v9"%string (Put_loop 0 9 "v9"%string) tableA4 l1 = Done tt t2 l2 /\
    i = 0 /\ slot 9 (bucketSize t2) = 4 /\
    9 ∈ keys t2 /\ size t2 = 5 /\
    Get 0 9 t2 l2 = Done (zero, false) t2 l3 /\
    exists t2' l2' l3',
      Put 0 9 "v9"%string tableA4 l1 = Done tt t2' l2' /\
      Get 0 9 t2' l2' = Done ("v9"%string, true) t2' l3'.
Proof.
  eexists _, _, _, _, _, _.
  split; [vm_compute; reflexivity|]. split; [vm_compute; reflexivity|].
  split; [vm_compute; reflexivity|]. split; [vm_compute; reflexivity|].
  split; [vm_compute; reflexivity|]. split; [reflexivity|].
  split; [vm_compute; reflexivity|].
  split; [apply (bool_decide_unpack _); vm_compute; exact I|].
  split; [vm_compute; reflexivity|]. split; [vm_compute; reflexivity|].
  eexists _, _, _. split; vm_compute; reflexivity.
Qed.

(** C1.  Goroutine B calls [Put(3, "v3")] and goroutine C calls
    [Put(9, "w9")] while A is suspended; both return, and C's entry is in
    bucket 4 of 8.  A then looks for key 9 in bucket 0, does not find it,
    and appends a second entry for it.  Five distinct keys have been put
    and none deleted (the ledger of the six calls has five live keys), and
    [Size()] returns 6. *)
Theorem overlapping_Puts_count_a_key_twice :
  exists i l0 l1 t2 l2 t3 l3,
    hash 9 tableA3 [] = Done i tableA3 l0 /\
    Put 0 3 "v3"%string tableA3 l0 = Done tt tableA4 l1 /\
    Put 0 9 "w9"%string tableA4 l1 = Done tt t2 l2 /\
    Put_at i 9 "v9"%string (Put_loop 0 9 "v9"%string) t2 l2 = Done tt t3 l3 /\
    Size t3 l3 = Done 6 t3 (l3 ++ [SizeLoad]) /\
    remove_dups (keys t3) ≡ₚ [0; 1; 2; 3; 9] /\
    length (filter (fun k => k = 9) (keys t3)) = 2%nat /\
    live (zip (take 4 scenarioA ++ [CallPut 9 "w9"; CallPut 9 "v9"]%string)
              (replicate 6 PutDone)) = [0; 1; 2; 3; 9].
Proof.
  eexists _, _, _, _, _, _, _.
  split; [vm_compute; reflexivity|]. split; [vm_compute; reflexivity|].
  split; [vm_compute; reflexivity|]. split; [vm_compute; reflexivity|].
  split; [vm_compute; reflexivity|].
  split; [|split; vm_compute; reflexivity].
  apply (bool_decide_unpack _). vm_compute. exact I.
Qed.

(** * Further properties of the operations *)

Lemma Int64_wrap_succ_pred z :
  Int64.in_range z -> Int64.wrap (Int64.wrap (z + 1) + -1) = z.
Proof.
  unfold Int64.wrap, Int64.in_range, Int64.min_int, Int64.max_int, Int64.modulus.
  intros Hz.
  pose proof (Z.div_mod (z + 1 + 2 ^ 63) (2 ^ 64) ltac:(lia)) as Hdm.
  set (q := (z + 1 + 2 ^ 63) / 2 ^ 64) in *.
  set (m := (z + 1 + 2 ^ 63) mod 2 ^ 64) in *.
  replace (m - 2 ^ 63 + -1 + 2 ^ 63) with (z + 2 ^ 63 + - q * 2 ^ 64) by lia.
  rewrite Z_mod_plus_full, Z.mod_small; lia.
Qed.

Section Behaviour.
Context {K V : Type} `{EqDecision K} `{Format K} `{Zero V}.
Variable retries : nat.

Lemma stored_elem (t : HashTable K V) k v :
  inv t -> stored t k = Some v <-> Entry k v ∈ flat (buckets t).
Proof.
  intros Ht. split.
  - apply find_Some_elem.
  - apply find_elem, (inv_nodup _ Ht).
Qed.

Lemma same_Get_stored (t t' : HashTable K V) k :
  inv t -> inv t' -> stored t' k = stored t k -> same_Get retries t t' k.
Proof.
  intros Ht Ht' Hst. unfold same_Get.
  rewrite (Get_stored retries k t [] Ht), (Get_stored retries k t' [] Ht'), Hst.
  eauto.
Qed.

(** X1.  In a reachable state no call panics on an index or a division and
    no retry loop retries for ever: [Get], [Delete] and [Size] return, and
    [Put] returns unless it has to double a bucket count whose double is
    not an [int], where [make] panics. *)
Theorem calls_return_unless_make_panics (t : HashTable K V) k v l :
  reachable retries t ->
  (exists r l', Get retries k t l = Done r t l') /\
  (exists t' l', Delete retries k t l = Done (bool_decide (k ∈ keys t)) t' l') /\
  (exists l', Size t l = Done (size t) t l') /\
  ((exists t' l', Put retries k v t l = Done tt t' l') \/
   Put retries k v t l = Panicked MakeSliceLenOutOfRange /\
   (k ∉ keys t) /\ Int64.max_int < bucketSize t * 2) /\
  (bucketSize t * 2 <= Int64.max_int ->
   exists t' l', Put retries k v t l = Done tt t' l').
Proof.
  intros Ht%reachable_inv. split; [|split; [|split; [|split]]].
  - rewrite (Get_stored retries k t l Ht). eauto.
  - destruct (Delete_cases retries k t l Ht) as (t' & evs & Hrun & _). eauto.
  - rewrite Size_run. eauto.
  - destruct (Put_cases retries k v t l Ht) as [(Hp & Hbig & Hk)|(t' & evs & Hrun & _)].
    + by right.
    + left. eauto.
  - intros Hfit.
    destruct (Put_cases retries k v t l Ht) as [(Hp & Hbig & Hk)|(t' & evs & Hrun & _)];
      [lia|eauto].
Qed.

(** X2.  In a reachable state [Get(k)] returns [(v, true)] exactly when the
    pair of [k] and [v] is an entry of some bucket, and [(zero, false)]
    exactly when no entry has the key [k]; the table is left as it is. *)
Theorem Get_finds_exactly_the_entries (t : HashTable K V) k v l :
  reachable retries t ->
  (Entry k v ∈ flat (buckets t) <->
     exists l', Get retries k t l = Done (v, true) t l') /\
  (k ∉ keys t <-> exists l', Get retries k t l = Done (zero, false) t l') /\
  (forall r t' l', Get retries k t l = Done r t' l' -> t' = t).
Proof.
  intros Ht%reachable_inv. rewrite (Get_stored retries k t l Ht).
  rewrite <- (stored_elem t k v Ht), <- stored_None.
  split; [|split].
  - split.
    + intros ->. eauto.
    + intros (l' & Hrun). destruct (stored t k); by simplify_eq.
  - split.
    + intros ->. eauto.
    + intros (l' & Hrun). destruct (stored t k); by simplify_eq.
  - intros r t' l' Hrun. by simplify_eq.
Qed.

(** X3.  In a reachable state [Put(k, v)] returns, unless [k] is new and
    the bucket count cannot be doubled.  When it has returned, [Get(k)]
    returns [(v, true)], [Get] of every other key returns what it returned
    before the [Put], and the keys of the table are those it had, and
    [k]. *)
Theorem Put_then_Get_returns_it (t : HashTable K V) k v l :
  reachable retries t ->
  (Put retries k v t l = Panicked MakeSliceLenOutOfRange /\
   (k ∉ keys t) /\ Int64.max_int < bucketSize t * 2) \/
  exists t' l',
    Put retries k v t l = Done tt t' l' /\
    (exists l'', Get retries k t' l' = Done (v, true) t' l'') /\
    (forall k', k' <> k -> same_Get retries t t' k') /\
    (forall k', k' ∈ keys t' <-> k' = k \/ k' ∈ keys t).
Proof.
  intros Hr. pose proof (reachable_inv retries t Hr) as Ht.
  destruct (Put_cases retries k v t l Ht)
    as [(Hp & Hbig & Hk)|(t' & evs & Hrun & Ht' & Hst & Hkeys & _)]; [by left|right].
  exists t', (l ++ evs). split; [done|]. split; [|split].
  - rewrite (Get_stored retries k t' _ Ht'), Hst, decide_True by done. eauto.
  - intros k' Hne. apply same_Get_stored; [done..|].
    by rewrite Hst, decide_False.
  - intros k'. rewrite Hkeys. destruct (decide (k ∈ keys t)) as [Hin|Hnin].
    + split; [by right|]. by intros [->|?].
    + by rewrite elem_of_cons.
Qed.

(** X4.  In a reachable state, when [Put(k, v)] of a key that is not in the
    table has returned (it does, unless the bucket count cannot be
    doubled), [Delete(k)] returns [true] and undoes it: the size counter is
    what it was before the [Put], the table has the keys it had, and every
    [Get] returns what it returned before. *)
Theorem Put_then_Delete_restores (t : HashTable K V) k v l :
  reachable retries t -> k ∉ keys t ->
  (Put retries k v t l = Panicked MakeSliceLenOutOfRange /\
   Int64.max_int < bucketSize t * 2) \/
  exists t1 l1 t2 l2,
    Put retries k v t l = Done tt t1 l1 /\
    Delete retries k t1 l1 = Done true t2 l2 /\
    size t2 = size t /\ keys t2 ≡ₚ keys t /\
    (forall k', same_Get retries t t2 k').
Proof.
  intros Hr Hnin.
  pose proof (reachable_inv retries t Hr) as Ht.
  destruct (Put_cases retries k v t l Ht)
    as [(Hp & Hbig & _)|(t1 & evs & Hrun & Ht1 & Hst1 & Hkeys1 & Hsize1 & _)];
    [by left|right].
  rewrite decide_False in Hkeys1 by done. rewrite decide_False in Hsize1 by done.
  assert (Hin1 : k ∈ keys t1) by (rewrite Hkeys1; left).
  destruct (Delete_cases retries k t1 (l ++ evs) Ht1)
    as (t2 & evs2 & Hrun2 & Ht2 & Hst2 & Hkeys2 & Hsize2 & _).
  rewrite bool_decide_eq_true_2 in Hrun2 by done.
  rewrite decide_True in Hkeys2 by done. rewrite decide_True in Hsize2 by done.
  exists t1, (l ++ evs), t2, ((l ++ evs) ++ evs2).
  split; [done|]. split; [done|]. split; [|split].
  - rewrite Hsize2, Hsize1. apply Int64_wrap_succ_pred, (inv_size _ Ht).
  - rewrite Hkeys1 in Hkeys2. by apply (inj (cons k)) in Hkeys2.
  - intros k'. apply same_Get_stored; [done..|].
    rewrite Hst2, Hst1. destruct (decide (k' = k)) as [->|]; [|done].
    symmetry. by apply stored_None.
Qed.

(** X5.  In a reachable state every entry is in the bucket whose index
    [hash] returns for its key, no key is the key of two entries, the
    bucket array has [bucketSize] buckets, and the resizing flag is
    clear. *)
Theorem entries_in_their_bucket_and_distinct (t : HashTable K V) :
  reachable retries t ->
  (forall i b e l, buckets t !! i = Some b -> e ∈ entries b ->
     exists l', hash (key e) t l = Done (Z.of_nat i) t l') /\
  NoDup (keys t) /\
  Z.of_nat (length (buckets t)) = bucketSize t /\
  resizing t = false.
Proof.
  intros Ht%reachable_inv. split; [|split; [|split]].
  - intros i b e l Hb He. pose proof (inv_bucketSize _ Ht) as Hn.
    rewrite hash_run by lia. rewrite (inv_homed _ Ht i b e Hb He). eauto.
  - apply (inv_nodup _ Ht).
  - apply (inv_length _ Ht).
  - apply (inv_idle _ Ht).
Qed.

Lemma Put_bucketSize_mono (t : HashTable K V) k v l t' l' :
  inv t -> Put retries k v t l = Done tt t' l' -> bucketSize t <= bucketSize t'.
Proof.
  intros Ht Hrun. pose proof (inv_bucketSize _ Ht) as Hn.
  destruct (Put_cases retries k v t l Ht)
    as [(Hp & _)|(t'' & evs & Hrun' & _ & _ & _ & _ & Hb)]; [congruence|].
  rewrite Hrun in Hrun'. simplify_eq. lia.
Qed.

Lemma reachable_load (t : HashTable K V) :
  reachable retries t -> bucketSize t < 2 ^ 52 ->
  counted t /\ 4 * size t <= 3 * bucketSize t.
Proof.
  induction 1 as [n Hn|t k v l t' l' Hr IH Hrun|t k r l t' l' Hr IH Hrun
                 |t k r l t' l' Hr IH Hrun|t n l t' l' Hr IH Hrun]; intros Hb.
  - split; [apply New_counted|]. rewrite New_bucketSize in *. cbn [New size].
    destruct (n <? 1) eqn:Hlt; [lia|]. apply Z.ltb_ge in Hlt. lia.
  - pose proof (reachable_inv retries t Hr) as Ht.
    pose proof (inv_bucketSize _ Ht) as Hn.
    pose proof (Put_bucketSize_mono t k v l t' l' Ht Hrun) as Hmono.
    destruct IH as [Hc Hload]; [lia|].
    pose proof Hc as Hc'. apply counted_keys in Hc'.
    destruct (Put_cases retries k v t l Ht)
      as [(Hp & _)|(t'' & evs & Hrun' & Ht' & _ & Hkeys & Hsize & Hbs)]; [congruence|].
    rewrite Hrun in Hrun'. simplify_eq.
    destruct (decide (k ∈ keys t)) as [Hin|Hnin].
    + split; [|lia]. apply counted_keys. by rewrite Hsize, Hkeys.
    + assert (Hw : Int64.wrap (size t + 1) = size t + 1).
      { apply Int64_wrap_small.
        unfold Int64.in_range, Int64.min_int, Int64.max_int. lia. }
      rewrite Hw in Hsize. split.
      { apply counted_keys. rewrite Hsize, Hkeys. cbn [length]. lia. }
      destruct (Put_new_key_requests_resize retries t k v l Hr Hnin) as [Heq Hgrow].
      rewrite Hw in Heq, Hgrow.
      rewrite (load_gt_exact (size t + 1) (bucketSize t)) in Heq, Hgrow by lia.
      destruct (3 * bucketSize t <? 4 * (size t + 1)) eqn:Hgt.
      * destruct (Hgrow eq_refl) as [(Hp & _)|(t2 & l2 & Hrun2 & Hb2)].
        { rewrite Hrun in Heq. congruence. }
        rewrite Hrun, Hrun2 in Heq. simplify_eq. lia.
      * apply Z.ltb_ge in Hgt. rewrite Hrun in Heq. simplify_eq.
        cbn [size bucketSize] in *. lia.
  - pose proof (reachable_inv retries t Hr) as Ht.
    rewrite (Get_stored retries k t l Ht) in Hrun. simplify_eq. by apply IH.
  - pose proof (reachable_inv retries t Hr) as Ht.
    destruct (Delete_cases retries k t l Ht)
      as (t'' & evs & Hrun' & Ht' & _ & Hkeys & Hsize & Hbs).
    rewrite Hrun in Hrun'. simplify_eq.
    destruct IH as [Hc Hload]; [lia|].
    pose proof Hc as Hc'. apply counted_keys in Hc'.
    destruct (decide (k ∈ keys t)) as [Hin|Hnin].
    + rewrite Hkeys in Hc'. cbn [length] in Hc'.
      assert (Hw : Int64.wrap (size t + -1) = size t - 1).
      { apply Int64_wrap_small.
        unfold Int64.in_range, Int64.min_int, Int64.max_int. lia. }
      rewrite Hw in Hsize. split; [|lia]. apply counted_keys. lia.
    + split; [|lia]. apply counted_keys. by rewrite Hsize, <- Hkeys.
  - rewrite Size_run in Hrun. simplify_eq. by apply IH.
Qed.

(** X6.  In a reachable state of a table of less than [2^52] buckets, the
    size counter is the number of entries, and four times the size is at
    most three times the bucket count: between calls the load factor is at
    most 0.75.  So a call of [tryResize] made then takes the flag and the
    lock, looks at the load factor, and returns with the table as it
    was. *)
Theorem load_factor_at_most_three_quarters (t : HashTable K V) l :
  reachable retries t -> bucketSize t < 2 ^ 52 ->
  size t = Z.of_nat (length (flat (buckets t))) /\
  4 * size t <= 3 * bucketSize t /\
  tryResize t l =
    Done tt t (l ++ [ResizingCAS true; MuLock; SizeLoad; Read FBucketSize;
                     MuUnlock; ResizingStore false]).
Proof.
  intros Hr Hb. destruct (reachable_load t Hr Hb) as [Hc Hload].
  pose proof (reachable_inv retries t Hr) as Ht.
  pose proof (inv_bucketSize _ Ht) as Hn.
  split; [exact Hc|]. split; [exact Hload|].
  apply tryResize_idle; [done|].
  assert (0 <= size t) by (rewrite Hc; lia).
  rewrite load_le_exact by lia. apply Z.leb_le. lia.
Qed.

End Behaviour.

(** ** Sessions against the reference list *)

Section SessionFacts.
Context {K V : Type} `{EqDecision K} `{Format K} `{Zero V}.
Variable retries : nat.
Implicit Types (k : K) (v : V) (t : HashTable K V) (l : list event).
Implicit Types (m : list (K * V)) (q : @request K V) (qs : list (@request K V)).

Lemma assoc_is_Some k m : is_Some (assoc k m) <-> k ∈ m.*1.
Proof.
  induction m as [|[k' v] m IH]; cbn [assoc].
  - rewrite fmap_nil, elem_of_nil. split; [by intros [? ?]|done].
  - rewrite fmap_cons, elem_of_cons. cbn. destruct (decide (k' = k)) as [->|Hne].
    + split; [by left|eauto].
    + rewrite IH. split; [by right|]. by intros [->|?].
Qed.

Lemma assoc_unbind k k' m :
  assoc k' (unbind k m) = if decide (k' = k) then None else assoc k' m.
Proof.
  unfold unbind. induction m as [|[k1 v1] m IH]; [by destruct (decide (k' = k))|].
  rewrite filter_cons. cbn [fst]. destruct (decide (k1 <> k)) as [Hne|Heq].
  - cbn [assoc]. rewrite IH. destruct (decide (k1 = k')) as [->|]; [|done].
    by rewrite decide_False.
  - apply dec_stable in Heq. subst k1. rewrite IH. cbn [assoc].
    destruct (decide (k' = k)) as [->|Hne]; [done|]. by rewrite decide_False.
Qed.

Lemma NoDup_unbind k m : NoDup m.*1 -> NoDup (unbind k m).*1.
Proof.
  unfold unbind. induction m as [|[k1 v1] m IH]; [done|].
  rewrite fmap_cons. intros [Hk1 Hm]%NoDup_cons. rewrite filter_cons.
  destruct (decide _); [|by apply IH].
  rewrite fmap_cons. apply NoDup_cons. split; [|by apply IH].
  intros Hin. apply Hk1. apply list_elem_of_fmap in Hin as (kv & -> & Hkv).
  apply list_elem_of_filter in Hkv as [_ Hkv]. apply list_elem_of_fmap. eauto.
Qed.

Lemma unbind_notin k m : k ∉ (unbind k m).*1.
Proof.
  intros Hin%assoc_is_Some. rewrite assoc_unbind, decide_True in Hin by done.
  by destruct Hin.
Qed.

Lemma represents_keys m t : represents m t -> inv t -> keys t ≡ₚ m.*1.
Proof.
  intros [Hnd Hm] Ht. apply NoDup_Permutation; [apply (inv_nodup _ Ht)|done|].
  intros k. by rewrite <- stored_is_Some, Hm, assoc_is_Some.
Qed.

Lemma represents_size m t :
  represents m t -> inv t -> counted t -> size t = Z.of_nat (length m).
Proof.
  intros Hm Ht Hc. apply counted_keys in Hc.
  rewrite Hc, (represents_keys m t Hm Ht). by rewrite length_fmap.
Qed.

Lemma serve_cases q t l m :
  inv t -> counted t -> represents m t -> size t < Int64.max_int ->
  (serve retries q t l = Panicked MakeSliceLenOutOfRange /\
   Int64.max_int < bucketSize t * 2) \/
  exists t' evs,
    serve retries q t l = Done (ref_serve q m).1 t' (l ++ evs) /\
    inv t' /\ counted t' /\ represents (ref_serve q m).2 t' /\
    size t' <= size t + 1 /\
    (bucketSize t' = bucketSize t \/
     bucketSize t' = bucketSize t * 2 /\
     Float64.load_le (size t + 1) (bucketSize t) = false).
Proof.
  intros Ht Hc Hm Hsz. pose proof Hc as Hc'. apply counted_keys in Hc'.
  assert (Hw : Int64.wrap (size t + 1) = size t + 1).
  { apply Int64_wrap_small. unfold Int64.in_range, Int64.min_int. lia. }
  destruct q as [k v|k|k|]; cbn [serve ref_serve fst snd].
  - destruct (Put_cases retries k v t l Ht)
      as [(Hp & Hbig & _)|(t' & evs & Hrun & Ht' & Hst & Hkeys & Hsize & Hbs)].
    { left. unfold Op.bind. by rewrite Hp. }
    rewrite Hw in Hbs, Hsize.
    right. exists t', evs. unfold Op.bind, Op.ret. rewrite Hrun.
    split; [done|]. split; [done|].
    split; [|split; [|split; [|done]]].
    + apply counted_keys. rewrite Hkeys, Hsize.
      destruct (decide (k ∈ keys t)); cbn [length]; lia.
    + destruct Hm as [Hnd Hm]. split.
      * rewrite fmap_cons. apply NoDup_cons. split; [apply unbind_notin|].
        by apply NoDup_unbind.
      * intros k'. rewrite Hst. cbn [assoc]. rewrite assoc_unbind, Hm.
        destruct (decide (k' = k)) as [->|Hne].
        -- by rewrite decide_True.
        -- by rewrite decide_False by congruence.
    + rewrite Hsize. destruct (decide (k ∈ keys t)); lia.
  - right. eexists t, _. unfold Op.bind, Op.ret.
    rewrite (Get_stored retries k t l Ht). destruct Hm as [Hnd Hm'].
    rewrite Hm'. split; [by destruct (assoc k m)|].
    split; [done|]. split; [done|]. split; [done|]. split; [lia|by left].
  - destruct (Delete_cases retries k t l Ht)
      as (t' & evs & Hrun & Ht' & Hst & Hkeys & Hsize & Hbs).
    right. exists t', evs. unfold Op.bind, Op.ret. rewrite Hrun.
    destruct Hm as [Hnd Hm].
    split.
    { do 3 f_equal. apply bool_decide_ext. by rewrite <- stored_is_Some, Hm. }
    split; [done|]. split; [|split; [|split; [|left; lia]]].
    + apply counted_keys. destruct (decide (k ∈ keys t)) as [Hin|Hnin].
      * rewrite Hkeys in Hc'. cbn [length] in Hc'.
        assert (Hw' : Int64.wrap (size t + -1) = size t - 1).
        { apply Int64_wrap_small. unfold Int64.in_range, Int64.min_int. lia. }
        lia.
      * rewrite Hsize, <- Hkeys. lia.
    + split; [by apply NoDup_unbind|].
      intros k'. rewrite Hst, assoc_unbind, Hm. done.
    + destruct (decide (k ∈ keys t)) as [Hin|Hnin]; [|lia].
      rewrite Hkeys in Hc'. cbn [length] in Hc'.
      assert (Hw' : Int64.wrap (size t + -1) = size t - 1).
      { apply Int64_wrap_small. unfold Int64.in_range, Int64.min_int. lia. }
      lia.
  - right. eexists t, _. unfold Op.bind, Op.ret. rewrite Size_run.
    rewrite (represents_size m t Hm Ht Hc).
    split; [done|]. split; [done|]. split; [done|]. split; [done|]. split; [lia|by left].
Qed.

Lemma session_cases qs t l m :
  inv t -> counted t -> represents m t ->
  size t + Z.of_nat (length qs) <= Int64.max_int ->
  session retries qs t l = Panicked MakeSliceLenOutOfRange \/
  exists t' evs,
    session retries qs t l = Done (ref_session qs m) t' (l ++ evs) /\
    inv t' /\ counted t'.
Proof.
  revert t l m. induction qs as [|q qs IH]; intros t l m Ht Hc Hm Hs.
  - right. exists t, []. by rewrite app_nil_r.
  - cbn [length] in Hs. cbn [session ref_session]. unfold Op.bind, Op.ret.
    destruct (serve_cases q t l m Ht Hc Hm)
      as [[Hp _]|(t1 & evs1 & Hrun1 & Ht1 & Hc1 & Hm1 & Hs1 & _)]; [lia| |].
    { left. by rewrite Hp. }
    rewrite Hrun1.
    destruct (IH t1 (l ++ evs1) _ Ht1 Hc1 Hm1)
      as [Hp|(t2 & evs2 & Hrun2 & Ht2 & Hc2)]; [lia| |].
    { left. by rewrite Hp. }
    right. exists t2, (evs1 ++ evs2). by rewrite Hrun2, <- app_assoc.
Qed.

Lemma session_total qs t l m :
  inv t -> counted t -> represents m t ->
  bucketSize t < 2 ^ 52 -> size t + Z.of_nat (length qs) <= 2 ^ 50 ->
  exists t' evs,
    session retries qs t l = Done (ref_session qs m) t' (l ++ evs).
Proof.
  revert t l m. induction qs as [|q qs IH]; intros t l m Ht Hc Hm Hb Hs.
  - exists t, []. by rewrite app_nil_r.
  - cbn [length] in Hs. cbn [session ref_session]. unfold Op.bind, Op.ret.
    pose proof (inv_bucketSize _ Ht) as Hn.
    assert (0 <= size t) by (rewrite Hc; lia).
    destruct (serve_cases q t l m Ht Hc Hm)
      as [[_ Hbig]|(t1 & evs1 & Hrun1 & Ht1 & Hc1 & Hm1 & Hs1 & Hbs)].
    { unfold Int64.max_int. lia. }
    { unfold Int64.max_int in Hbig. lia. }
    rewrite Hrun1.
    destruct (IH t1 (l ++ evs1) _ Ht1 Hc1 Hm1) as (t2 & evs2 & Hrun2).
    { destruct Hbs as [->|[-> Hle]]; [done|].
      rewrite load_le_exact in Hle by lia. apply Z.leb_gt in Hle. lia. }
    { lia. }
    exists t2, (evs1 ++ evs2). by rewrite Hrun2, <- app_assoc.
Qed.

Lemma represents_New n : represents [] (@New K V n).
Proof.
  split; [constructor|]. intros k. cbn [assoc].
  apply stored_None. rewrite New_keys. apply not_elem_of_nil.
Qed.

(** X7.  Requests served one after the other on a new table are answered
    as the reference list answers them: [Get] returns the value of the
    latest [Put] of the key that no [Delete] of it followed, or the zero
    value and [false]; [Delete] returns whether the key was there; [Size]
    returns the number of keys there.  The session stops only at the panic
    of [make] for a bucket array too long for an [int], which takes [2^52]
    buckets or more than [2^50] requests. *)
Theorem session_answers_as_the_reference n qs :
  Int64.in_range n -> Z.of_nat (length qs) <= Int64.max_int ->
  (session retries qs (@New K V n) [] = Panicked MakeSliceLenOutOfRange \/
   exists t l, session retries qs (@New K V n) [] = Done (ref_session qs []) t l) /\
  (n < 2 ^ 52 -> Z.of_nat (length qs) <= 2 ^ 50 ->
   exists t l, session retries qs (@New K V n) [] = Done (ref_session qs []) t l).
Proof.
  intros Hn Hlen. split.
  - destruct (session_cases qs (@New K V n) [] [])
      as [Hp|(t & evs & Hrun & _)].
    + apply New_inv, Hn.
    + apply New_counted.
    + apply represents_New.
    + cbn [New size]. lia.
    + by left.
    + right. eauto.
  - intros Hn' Hlen'.
    destruct (session_total qs (@New K V n) [] [])
      as (t & evs & Hrun).
    + apply New_inv, Hn.
    + apply New_counted.
    + apply represents_New.
    + rewrite New_bucketSize. destruct (Z.ltb_spec n 1); lia.
    + cbn [New size]. lia.
    + eauto.
Qed.

End SessionFacts.

(** ** The locks of a call *)

Lemma held_after_app h evs1 evs2 :
  held_after h (evs1 ++ evs2) =
  match held_after h evs1 with
  | Some h' => held_after h' evs2
  | None => None
  end.
Proof.
  revert h. induction evs1 as [|e evs1 IH]; intros h; [done|].
  cbn [app held_after]. destruct (acquired e) as [lm|].
  - destruct (forallb _ h); [apply IH|done].
  - destruct (released e) as [lm|]; [|apply IH].
    destruct h as [|x h]; [done|]. destruct (decide (x = lm)); [apply IH|done].
Qed.

Lemma balanced_nil : balanced [].
Proof. by intros h Hh. Qed.

Lemma balanced_app evs1 evs2 : balanced evs1 -> balanced evs2 -> balanced (evs1 ++ evs2).
Proof.
  intros H1 H2 h Hh. rewrite held_after_app, (H1 h Hh). by apply H2.
Qed.

Lemma balanced_other e :
  acquired e = None -> released e = None -> balanced [e].
Proof. intros Ha Hr h Hh. cbn [held_after]. by rewrite Ha, Hr. Qed.

Lemma balanced_bucket a i : balanced [BucketLock a i; BucketUnlock a i].
Proof.
  intros h Hh. cbn [held_after acquired released].
  assert (Hok : forallb (fun x : lock * mode =>
                  negb (is_bucket x.1) && negb (bool_decide (x.1 = (BucketMu a i, Exclusive).1)))
                  h = true).
  { induction h as [|[x md] h IH]; [done|]. cbn [forallb fst] in *.
    apply andb_true_iff in Hh as [Hx Hh]. rewrite (IH Hh), Hx.
    destruct x; [|done]. by rewrite bool_decide_eq_false_2. }
  rewrite Hok. by rewrite decide_True.
Qed.

Lemma balanced_read i : balanced [BucketRLock i; BucketRUnlock i].
Proof.
  intros h Hh. cbn [held_after acquired released].
  assert (Hok : forallb (fun x : lock * mode =>
                  negb (is_bucket x.1) && negb (bool_decide (x.1 = (BucketMu Current i, Shared).1)))
                  h = true).
  { induction h as [|[x md] h IH]; [done|]. cbn [forallb fst] in *.
    apply andb_true_iff in Hh as [Hx Hh]. rewrite (IH Hh), Hx.
    destruct x; [|done]. by rewrite bool_decide_eq_false_2. }
  rewrite Hok. by rewrite decide_True.
Qed.

Ltac locks_run :=
  unfold route;
  repeat (cbn [app held_after acquired released forallb]; rewrite ?decide_True by done).

Lemma held_after_route evs : held_after [] (route ++ evs) = held_after [] evs.
Proof. unfold route. cbn [app held_after acquired released forallb]. by rewrite decide_True. Qed.

Section LockFacts.
Context {K V : Type} `{EqDecision K} `{Format K} `{Zero V}.
Variable retries : nat.
Implicit Types (k : K) (v : V) (t : HashTable K V) (l : list event).

(** A loop adds the events of its rounds. *)
Lemma for_range_balanced {A B} (f : Z -> A -> B -> @Op.M (HashTable K V) B) :
  (forall i a acc t l acc' t' l',
     f i a acc t l = Done acc' t' l' -> exists evs, l' = l ++ evs /\ balanced evs) ->
  forall xs i acc t l acc' t' l',
    Op.for_range f i xs acc t l = Done acc' t' l' ->
    exists evs, l' = l ++ evs /\ balanced evs.
Proof.
  intros Hf xs. induction xs as [|a xs IH]; intros i acc t l acc' t' l' Hrun.
  - cbn in Hrun. injection Hrun as <- <- <-. exists []. split; [by rewrite app_nil_r|].
    apply balanced_nil.
  - cbn [Op.for_range] in Hrun. unfold Op.bind in Hrun.
    destruct (f i a acc t l) as [acc1 t1 l1| |] eqn:Hrun1; [|done..].
    destruct (Hf _ _ _ _ _ _ _ _ Hrun1) as (evs1 & -> & Hb1).
    destruct (IH _ _ _ _ _ _ _ Hrun) as (evs2 & -> & Hb2).
    exists (evs1 ++ evs2). split; [by rewrite app_assoc|]. by apply balanced_app.
Qed.

Lemma place_balanced n e nb t l nb' t' l' :
  place n e nb t l = Done nb' t' l' -> exists evs, l' = l ++ evs /\ balanced evs.
Proof.
  unfold place. op_cbn. unfold Op.rem. destruct (n =? 0); [done|]. op_cbn.
  unfold Op.index. destruct (_ <? 0); [done|]. destruct (nb !! _); [|done].
  op_cbn. intros [= <- <- <-]. eexists. split; [by log_norm|]. apply balanced_bucket.
Qed.

Lemma migrate_bucket_balanced n i ob nb t l nb' t' l' :
  migrate_bucket n i ob nb t l = Done nb' t' l' ->
  exists evs, l' = l ++ evs /\ balanced evs.
Proof.
  unfold migrate_bucket. op_cbn. intros Hrun.
  apply (for_range_balanced (fun _ => place n)) in Hrun as (evs & -> & Hevs).
  - exists ([BucketLock Current i; BucketUnlock Current i] ++ evs).
    split; [by log_norm|]. apply balanced_app; [apply balanced_bucket|done].
  - intros ? ? ? ? ? ? ? ?. apply place_balanced.
Qed.

Lemma tryResize_locks t l t' l' :
  tryResize t l = Done tt t' l' ->
  exists evs, l' = l ++ evs /\ held_after [] evs = Some [].
Proof.
  unfold tryResize. op_cbn. destruct (resizing t).
  { intros [= <- <-]. by exists [ResizingCAS false]. }
  op_cbn. destruct (Float64.load_le _ _).
  { intros [= <- <-].
    exists ([ResizingCAS true; MuLock; SizeLoad; Read FBucketSize; MuUnlock; ResizingStore false]).
    split; [by log_norm|done]. }
  unfold make_buckets. destruct (_ <? 0); [done|]. op_cbn.
  match goal with |- context [Op.for_range ?f ?i ?xs ?acc ?t0 ?l0] =>
    destruct (Op.for_range f i xs acc t0 l0) as [nb t1 l1| |] eqn:Hm end; [|done..].
  apply (for_range_balanced (migrate_bucket _)) in Hm as (evs & -> & Hevs);
    [|intros ? ? ? ? ? ? ? ?; apply migrate_bucket_balanced].
  intros [= <- <-].
  exists ([ResizingCAS true; MuLock; SizeLoad; Read FBucketSize; Read FBucketSize;
           Read FBuckets]
          ++ evs ++ [Write FBuckets; Write FBucketSize; MuUnlock; ResizingStore false]).
  split; [by log_norm|].
  rewrite held_after_app. cbn [held_after acquired released forallb].
  rewrite held_after_app, (Hevs [(TableMu, Exclusive)]) by done.
  cbn [held_after acquired released]. by rewrite decide_True.
Qed.

(** X8.  In a reachable state every call takes its locks in one order and
    holds none when it returns: it holds at most [ht.mu] and one bucket
    lock at a time, takes no lock while it holds a bucket lock, never takes
    a lock it already holds, and releases what it took last first.  This
    covers the resize a [Put] may run, which locks the old and the new
    buckets one at a time under [ht.mu]. *)
Theorem locks_ordered_and_released t k v l :
  reachable retries t ->
  (exists r evs,
     Get retries k t l = Done r t (l ++ evs) /\ held_after [] evs = Some []) /\
  (exists r t' evs,
     Delete retries k t l = Done r t' (l ++ evs) /\ held_after [] evs = Some []) /\
  (Put retries k v t l = Panicked MakeSliceLenOutOfRange \/
   exists t' evs,
     Put retries k v t l = Done tt t' (l ++ evs) /\ held_after [] evs = Some []) /\
  (tryResize t l = Panicked MakeSliceLenOutOfRange \/
   exists t' evs,
     tryResize t l = Done tt t' (l ++ evs) /\ held_after [] evs = Some []).
Proof.
  intros Ht%reachable_inv. split; [|split; [|split]].
  - rewrite (Get_run retries k t l Ht). eexists _, _. split; [done|].
    rewrite held_after_route. apply balanced_read. done.
  - rewrite (Delete_run retries k t l Ht).
    destruct (remove k (home t k)); eexists _, _, _; (split; [done|]);
      rewrite held_after_route.
    + cbn [held_after acquired released forallb]. by rewrite decide_True.
    + by apply balanced_bucket.
  - destruct (Put_cases retries k v t l Ht)
      as [(Hp & _)|(t' & evs & Hrun & _)]; [by left|right].
    exists t', evs. split; [done|].
    rewrite (Put_run retries k v t l Ht) in Hrun.
    destruct (update k v (home t k)).
    + injection Hrun as _ Hl. apply (inj (app l)) in Hl as <-. by locks_run.
    + cbn zeta in Hrun. destruct (Float64.load_gt _ _).
      * apply tryResize_locks in Hrun as (evs2 & Hl & Hevs2).
        rewrite <- !app_assoc in Hl. apply (inj (app l)) in Hl as ->. by locks_run.
      * injection Hrun as _ Hl. apply (inj (app l)) in Hl as <-. by locks_run.
  - destruct (tryResize_cases t l Ht) as [(Hp & _)|(t' & evs & Hrun & _)]; [by left|right].
    exists t', evs. split; [done|].
    apply tryResize_locks in Hrun as (evs2 & Hl & Hevs2).
    by apply (inj (app l)) in Hl as ->.
Qed.

End LockFacts.

(** ** Edge cases *)

Section EdgeCases.
Context {K V : Type} `{EqDecision K} `{Format K} `{Zero V}.
Variable retries : nat.
Implicit Types (k : K) (v : V) (e : entry K V) (es : list (entry K V)).
Implicit Types (b : bucket K V) (t : HashTable K V) (l : list event).

Lemma update_same k v es : find k es = Some v -> update k v es = Some es.
Proof.
  induction es as [|e es IH]; [done|]. cbn [find update].
  destruct (decide (key e = k)) as [Hk|Hk].
  - intros [= <-]. by rewrite entry_eta.
  - intros Hf. by rewrite (IH Hf).
Qed.

Lemma bucket_eta b : Bucket (entries b) = b.
Proof. by destruct b. Qed.

Lemma table_eta t : Table (buckets t) (size t) (bucketSize t) (resizing t) = t.
Proof. by destruct t. Qed.

(** X9.  A new table is empty, whatever the size asked for: [Size()]
    returns 0, [Get] returns the zero value and [false] and [Delete]
    returns [false] for every key, and no bucket has an entry. *)
Theorem New_table_is_empty n k l :
  Int64.in_range n ->
  Size (@New K V n) l = Done 0 (New n) (l ++ [SizeLoad]) /\
  (exists l', Get retries k (@New K V n) l = Done (zero, false) (New n) l') /\
  (exists l', Delete retries k (@New K V n) l = Done false (New n) l') /\
  flat (buckets (@New K V n)) = [].
Proof.
  intros Hn. pose proof (New_inv (K:=K) (V:=V) n (proj2 Hn)) as Ht.
  assert (Hk : k ∉ keys (@New K V n)) by (rewrite New_keys; apply not_elem_of_nil).
  split; [by rewrite Size_run|]. split; [|split].
  - rewrite (Get_stored retries k _ l Ht). apply stored_None in Hk. rewrite Hk. eauto.
  - rewrite (Delete_absent retries k _ l Ht Hk). eauto.
  - pose proof (New_keys (K:=K) (V:=V) n) as Hkeys. unfold keys in Hkeys.
    by apply fmap_nil_inv in Hkeys.
Qed.

(** X10.  In a reachable state, [Put] of a key with the value it already
    has changes nothing: the table after the call is the table before
    it. *)
Theorem Put_of_a_stored_pair_changes_nothing t k v l :
  reachable retries t -> Entry k v ∈ flat (buckets t) ->
  exists l', Put retries k v t l = Done tt t l'.
Proof.
  intros Ht%reachable_inv Hin. apply (stored_elem t k v Ht) in Hin.
  rewrite (stored_home _ _ Ht) in Hin.
  destruct (home_lookup t k Ht) as (b & Hb & Hhome).
  rewrite (Put_run retries k v t l Ht), (update_same _ _ _ Hin), Hhome, bucket_eta.
  rewrite list_insert_id by done. rewrite table_eta. eauto.
Qed.

(** X11.  The only check [Put] makes on the index [hash] returned is that
    it is below the length of the bucket array.  When [Put] goes on with an
    index that is below it and is not the one [hash] returns now (the bucket
    count has changed since: another goroutine has resized the table), and
    no resize follows, the entry is appended to the bucket of that index:
    the size counter counts it, and [Get] of the key does not find it. *)
Theorem Put_at_another_index_loses_the_entry t k v i l (retry : @Op.M (HashTable K V) unit) :
  reachable retries t -> k ∉ keys t ->
  0 <= i < bucketSize t -> i <> slot k (bucketSize t) ->
  Float64.load_gt (Int64.wrap (size t + 1)) (bucketSize t) = false ->
  exists t' l' b,
    Put_at i k v retry t l = Done tt t' l' /\
    buckets t' !! Z.to_nat i = Some b /\ Entry k v ∈ entries b /\
    size t' = Int64.wrap (size t + 1) /\
    exists l'', Get retries k t' l' = Done (zero, false) t' l''.
Proof.
  intros Ht%reachable_inv Hk Hi Hne Hgt.
  pose proof (inv_bucketSize _ Ht) as Hn. pose proof (inv_length _ Ht) as Hlen.
  pose proof (slot_range k _ (proj1 Hn)) as Hr.
  destruct (lookup_lt_is_Some_2 (buckets t) (Z.to_nat i)) as [b Hb]; [lia|].
  destruct (home_lookup t k Ht) as (bk & Hbk & Hhome).
  assert (Hfind : forall j b', buckets t !! j = Some b' -> find k (entries b') = None).
  { intros j b' Hj. apply find_None. intros Hin. apply Hk.
    unfold keys. apply list_elem_of_fmap in Hin as (e & -> & He).
    apply list_elem_of_fmap_2, flat_elem. eauto. }
  assert (Hu : update k v (entries b) = None) by (apply update_None; eauto).
  eexists _, _, (Bucket (entries b ++ [Entry k v])).
  split; [|split; [|split; [|split]]].
  - unfold Put_at. op_cbn. rewrite (proj2 (Z.leb_gt _ _)) by lia. op_cbn.
    unfold Op.index. rewrite (proj2 (Z.ltb_ge _ _)) by lia. rewrite Hb. op_cbn.
    rewrite Hu. op_cbn. rewrite Hgt. done.
  - cbn [buckets]. apply list_lookup_insert_eq. apply lookup_lt_Some in Hb. done.
  - cbn [entries]. apply elem_of_app. right. by apply list_elem_of_singleton.
  - done.
  - eexists. unfold Get. cbn [Get_loop]. op_cbn. rewrite hash_run by (cbn; lia).
    op_cbn. rewrite length_insert. rewrite (proj2 (Z.leb_gt _ _)) by lia. op_cbn.
    unfold Op.index. rewrite (proj2 (Z.ltb_ge _ _)) by lia.
    rewrite list_lookup_insert_ne by lia. rewrite Hbk. op_cbn.
    by rewrite (Hfind _ _ Hbk).
Qed.

Lemma slot_double k n : 1 <= n -> slot k (2 * n) mod n = slot k n.
Proof.
  intros Hn. unfold slot. pose proof (Fnv_sum32a_range (format k)) as Hs.
  fold (sum k) in Hs |- *.
  rewrite !Z.rem_mod_nonneg by lia.
  apply Z.mod_mod_divide. by exists 2.
Qed.

Lemma slot_double_cases k n :
  1 <= n -> slot k (2 * n) = slot k n \/ slot k (2 * n) = slot k n + n.
Proof.
  intros Hn. pose proof (slot_double k n Hn) as Hd.
  pose proof (slot_range k (2 * n) ltac:(lia)) as Hr.
  pose proof (Z.div_mod (slot k (2 * n)) n ltac:(lia)) as Hdm.
  assert (Hq : 0 <= slot k (2 * n) / n < 2).
  { split; [apply Z.div_pos; lia|apply Z.div_lt_upper_bound; lia]. }
  rewrite Hd in Hdm.
  assert (Hq' : slot k (2 * n) / n = 0 \/ slot k (2 * n) / n = 1) by lia.
  destruct Hq' as [Hq'|Hq']; rewrite Hq' in Hdm; lia.
Qed.

(** X12.  When a [Put] in a reachable state has doubled the bucket count
    from [n] to [2n], every entry of bucket [i] of the old array is in
    bucket [i] or in bucket [i + n] of the new array, and the entry put is
    in the bucket of its key.  The new array holds nothing else: each of
    its entries is the entry put or an entry of bucket [j mod n] of the old
    array, and it has one entry more than the old array. *)
Theorem resize_splits_each_bucket t k v l t' l' :
  reachable retries t ->
  Put retries k v t l = Done tt t' l' -> bucketSize t' = 2 * bucketSize t ->
  (forall i b0 e,
     buckets t !! i = Some b0 -> e ∈ entries b0 ->
     exists j b,
       buckets t' !! j = Some b /\ e ∈ entries b /\
       (Z.of_nat j = Z.of_nat i \/ Z.of_nat j = Z.of_nat i + bucketSize t)) /\
  (exists b,
     buckets t' !! Z.to_nat (slot k (bucketSize t')) = Some b /\ Entry k v ∈ entries b) /\
  (forall j b e,
     buckets t' !! j = Some b -> e ∈ entries b ->
     e = Entry k v \/
     exists b0,
       buckets t !! Z.to_nat (Z.of_nat j mod bucketSize t) = Some b0 /\ e ∈ entries b0) /\
  length (flat (buckets t')) = S (length (flat (buckets t))).
Proof.
  intros Hr Hrun Hdouble.
  pose proof (reachable_inv retries t Hr) as Ht.
  pose proof (inv_bucketSize _ Ht) as Hn.
  assert (Ht' : inv t') by (by eapply Put_inv).
  destruct (decide (k ∈ keys t)) as [Hin|Hnin].
  { destruct (Put_present retries k v t l Ht Hin) as (t2 & Hrun2 & _ & _ & _ & _ & _ & Hb).
    rewrite Hrun in Hrun2. simplify_eq. lia. }
  destruct (Put_absent retries k v t l Ht Hnin)
    as [(Hp & _)|(t2 & evs & Hrun2 & _ & Hflat & _)]; [congruence|].
  rewrite Hrun in Hrun2. simplify_eq.
  split; [|split; [|split]].
  - intros i b0 e Hi He.
    assert (Hin' : e ∈ flat (buckets t2)).
    { rewrite Hflat. apply elem_of_cons. right. apply flat_elem. eauto. }
    apply flat_elem in Hin' as (j & b & Hj & Hej). exists j, b.
    split; [done|]. split; [done|].
    pose proof (inv_homed _ Ht' j b e Hj Hej) as Hslot'.
    pose proof (inv_homed _ Ht i b0 e Hi He) as Hslot.
    rewrite Hdouble in Hslot'.
    destruct (slot_double_cases (key e) (bucketSize t)); lia.
  - assert (Hin' : Entry k v ∈ flat (buckets t2)) by (rewrite Hflat; left).
    apply flat_elem in Hin' as (j & b & Hj & Hej). exists b.
    pose proof (inv_homed _ Ht' j b _ Hj Hej) as Hslot'. cbn [key] in Hslot'.
    rewrite Hslot', Nat2Z.id. done.
  - intros j b e Hj He.
    assert (Hin' : e ∈ flat (buckets t2)) by (apply flat_elem; eauto).
    rewrite Hflat in Hin'. apply elem_of_cons in Hin' as [->|Hin']; [by left|right].
    apply flat_elem in Hin' as (i & b0 & Hi & He0). exists b0. split; [|done].
    pose proof (inv_homed _ Ht' j b e Hj He) as Hslot'.
    pose proof (inv_homed _ Ht i b0 e Hi He0) as Hslot.
    rewrite Hdouble in Hslot'. rewrite <- Hslot', slot_double, Hslot by lia.
    by rewrite Nat2Z.id.
  - by rewrite Hflat.
Qed.

End EdgeCases.

(** ** Instances of the further properties *)

Lemma tableA3_reachable : reachable 0 tableA3.
Proof.
  apply (run_reachable 0 (take 3 scenarioA) (New 4) []
           (zip (take 3 scenarioA) (replicate 3 PutDone)) tableA3
           (events (run 0 (take 3 scenarioA) (@New Z string 4) []))).
  - apply reach_New, in_range_4.
  - vm_compute. reflexivity.
Defined.

Lemma tableA4_Put :
  Put 0 3 "v3"%string tableA3 [] =
  Done tt tableA4 (events (Put 0 3 "v3"%string tableA3 [])).
Proof. vm_compute. reflexivity. Defined.

Lemma tableA4_reachable : reachable 0 tableA4.
Proof. exact (reach_Put 0 tableA3 3 "v3"%string [] _ _ tableA3_reachable tableA4_Put). Defined.

Lemma calls_return_witness :
  reachable 0 tableA /\
  (exists r l', Get 0 3 tableA [] = Done r tableA l') /\
  (exists t' l', Delete 0 3 tableA [] = Done (bool_decide (3 ∈ keys tableA)) t' l').
Proof.
  split; [exact tableA_reachable|].
  pose proof (calls_return_unless_make_panics 0 tableA 3 "x"%string [] tableA_reachable)
    as (Hg & Hd & _).
  exact (conj Hg Hd).
Defined.

Lemma Get_finds_witness :
  reachable 0 tableA /\
  (exists l', Get 0 3 tableA [] = Done ("v3"%string, true) tableA l') /\
  Entry 3 "v3"%string ∈ flat (buckets tableA).
Proof.
  assert (Hget : exists l', Get 0 3 tableA [] = Done ("v3"%string, true) tableA l').
  { eexists. vm_compute. reflexivity. }
  split; [exact tableA_reachable|]. split; [exact Hget|].
  exact (proj2 (proj1 (Get_finds_exactly_the_entries 0 tableA 3 "v3"%string []
                         tableA_reachable)) Hget).
Defined.

Lemma Put_then_Get_witness :
  reachable 0 tableA3 /\
  exists t' l' l'',
    Put 0 3 "v3"%string tableA3 [] = Done tt t' l' /\
    Get 0 3 t' l' = Done ("v3"%string, true) t' l''.
Proof.
  split; [exact tableA3_reachable|].
  destruct (Put_then_Get_returns_it 0 tableA3 3 "v3"%string [] tableA3_reachable)
    as [(Hp & _)|(t' & l' & Hrun & (l'' & Hget) & _)].
  - vm_compute in Hp. discriminate.
  - exists t', l', l''. exact (conj Hrun Hget).
Defined.

Lemma Put_then_Delete_witness :
  reachable 0 tableA3 /\ (3 ∉ keys tableA3) /\
  exists t1 l1 t2 l2,
    Put 0 3 "v3"%string tableA3 [] = Done tt t1 l1 /\
    Delete 0 3 t1 l1 = Done true t2 l2 /\
    size t2 = size tableA3 /\ keys t2 ≡ₚ keys tableA3.
Proof.
  assert (Hk : 3 ∉ keys tableA3).
  { apply (bool_decide_unpack (3 ∉ keys tableA3)). vm_compute. exact I. }
  split; [exact tableA3_reachable|]. split; [exact Hk|].
  destruct (Put_then_Delete_restores 0 tableA3 3 "v3"%string [] tableA3_reachable Hk)
    as [(Hp & _)|(t1 & l1 & t2 & l2 & Hrun1 & Hrun2 & Hsize & Hkeys & _)].
  - vm_compute in Hp. discriminate.
  - exists t1, l1, t2, l2. exact (conj Hrun1 (conj Hrun2 (conj Hsize Hkeys))).
Defined.

Lemma entries_in_their_bucket_witness :
  reachable 0 tableA /\ NoDup (keys tableA) /\
  Z.of_nat (length (buckets tableA)) = bucketSize tableA.
Proof.
  split; [exact tableA_reachable|].
  pose proof (entries_in_their_bucket_and_distinct 0 tableA tableA_reachable)
    as (_ & Hnd & Hlen & _).
  exact (conj Hnd Hlen).
Defined.

Lemma load_factor_witness :
  reachable 0 tableA /\ bucketSize tableA < 2 ^ 52 /\
  size tableA = Z.of_nat (length (flat (buckets tableA))) /\
  4 * size tableA <= 3 * bucketSize tableA.
Proof.
  assert (Hb : bucketSize tableA < 2 ^ 52) by (vm_compute; reflexivity).
  split; [exact tableA_reachable|]. split; [exact Hb|].
  pose proof (load_factor_at_most_three_quarters 0 tableA [] tableA_reachable Hb)
    as (Hc & Hload & _).
  exact (conj Hc Hload).
Defined.

Lemma session_witness :
  Int64.in_range 16 /\ Z.of_nat (length basicOperations) <= Int64.max_int /\
  16 < 2 ^ 52 /\ Z.of_nat (length basicOperations) <= 2 ^ 50 /\
  exists t l,
    session 0 basicOperations (New 16) [] =
    Done [ResPut; ResPut; ResPut; ResSize 3; ResGet 1 true; ResGet 0 false;
          ResPut; ResGet 100 true; ResDelete true; ResGet 0 false; ResDelete false] t l.
Proof.
  assert (Hlen : Z.of_nat (length basicOperations) <= Int64.max_int)
    by (vm_compute; discriminate).
  assert (Hn : 16 < 2 ^ 52) by (vm_compute; reflexivity).
  assert (Hlen' : Z.of_nat (length basicOperations) <= 2 ^ 50) by (vm_compute; discriminate).
  split; [exact in_range_16|]. split; [exact Hlen|]. split; [exact Hn|].
  split; [exact Hlen'|].
  exact (proj2 (session_answers_as_the_reference 0 16 basicOperations in_range_16 Hlen)
               Hn Hlen').
Defined.

Lemma locks_witness :
  reachable 0 tableA3 /\
  exists t' evs,
    Put 0 3 "v3"%string tableA3 [] = Done tt t' evs /\
    bucketSize t' = 8 /\ held_after [] evs = Some [].
Proof.
  split; [exact tableA3_reachable|].
  destruct (locks_ordered_and_released 0 tableA3 3 "v3"%string [] tableA3_reachable)
    as (_ & _ & [Hp|(t' & evs & Hrun & Hheld)] & _).
  - vm_compute in Hp. discriminate.
  - exists t', evs. split; [exact Hrun|]. split; [|exact Hheld].
    vm_compute in Hrun. injection Hrun as <- _. reflexivity.
Defined.

Lemma New_table_witness :
  Int64.in_range 0 /\
  Size (@New Z string 0) [] = Done 0 (New 0) [SizeLoad] /\
  flat (buckets (@New Z string 0)) = [].
Proof.
  assert (Hn : Int64.in_range 0) by (split; vm_compute; discriminate).
  split; [exact Hn|].
  pose proof (New_table_is_empty (K:=Z) (V:=string) 0 0 5 [] Hn) as (Hs & _ & _ & Hf).
  exact (conj Hs Hf).
Defined.

Lemma Put_of_a_stored_pair_witness :
  reachable 0 tableA /\ Entry 3 "v3"%string ∈ flat (buckets tableA) /\
  exists l', Put 0 3 "v3"%string tableA [] = Done tt tableA l'.
Proof.
  assert (Hin : Entry 3 "v3"%string ∈ flat (buckets tableA)).
  { apply (stored_elem tableA 3 "v3"%string (reachable_inv 0 tableA tableA_reachable)).
    vm_compute. reflexivity. }
  split; [exact tableA_reachable|]. split; [exact Hin|].
  exact (Put_of_a_stored_pair_changes_nothing 0 tableA 3 "v3"%string []
           tableA_reachable Hin).
Defined.

Lemma Put_at_another_index_witness :
  reachable 0 tableA4 /\ (9 ∉ keys tableA4) /\
  0 <= slot 9 (bucketSize tableA3) < bucketSize tableA4 /\
  slot 9 (bucketSize tableA3) <> slot 9 (bucketSize tableA4) /\
  Float64.load_gt (Int64.wrap (size tableA4 + 1)) (bucketSize tableA4) = false /\
  exists t' l' l'',
    Put_at (slot 9 (bucketSize tableA3)) 9 "v9"%string (Put_loop 0 9 "v9"%string) tableA4 []
      = Done tt t' l' /\
    size t' = 5 /\
    Get 0 9 t' l' = Done (zero, false) t' l''.
Proof.
  assert (Hk : 9 ∉ keys tableA4).
  { apply (bool_decide_unpack (9 ∉ keys tableA4)). vm_compute. exact I. }
  assert (Hi : 0 <= slot 9 (bucketSize tableA3) < bucketSize tableA4).
  { split; vm_compute; [discriminate|reflexivity]. }
  assert (Hne : slot 9 (bucketSize tableA3) <> slot 9 (bucketSize tableA4)).
  { vm_compute. discriminate. }
  assert (Hload : Float64.load_gt (Int64.wrap (size tableA4 + 1)) (bucketSize tableA4) = false)
    by (vm_compute; reflexivity).
  split; [exact tableA4_reachable|]. split; [exact Hk|]. split; [exact Hi|].
  split; [exact Hne|]. split; [exact Hload|].
  destruct (Put_at_another_index_loses_the_entry 0 tableA4 9 "v9"%string
              (slot 9 (bucketSize tableA3)) [] (Put_loop 0 9 "v9"%string)
              tableA4_reachable Hk Hi Hne Hload)
    as (t' & l' & b & Hrun & _ & _ & Hsize & (l'' & Hget)).
  exists t', l', l''. split; [exact Hrun|]. split; [|exact Hget].
  rewrite Hsize. vm_compute. reflexivity.
Defined.

Lemma resize_splits_witness :
  reachable 0 tableA3 /\
  Put 0 3 "v3"%string tableA3 [] =
    Done tt tableA4 (events (Put 0 3 "v3"%string tableA3 [])) /\
  bucketSize tableA4 = 2 * bucketSize tableA3 /\
  (forall i b0 e,
     buckets tableA3 !! i = Some b0 -> e ∈ entries b0 ->
     exists j b,
       buckets tableA4 !! j = Some b /\ e ∈ entries b /\
       (Z.of_nat j = Z.of_nat i \/ Z.of_nat j = Z.of_nat i + bucketSize tableA3)) /\
  length (flat (buckets tableA4)) = S (length (flat (buckets tableA3))).
Proof.
  assert (Hd : bucketSize tableA4 = 2 * bucketSize tableA3) by (vm_compute; reflexivity).
  split; [exact tableA3_reachable|]. split; [exact tableA4_Put|]. split; [exact Hd|].
  pose proof (resize_splits_each_bucket 0 tableA3 3 "v3"%string [] tableA4 _
                tableA3_reachable tableA4_Put Hd) as (Hfw & _ & _ & Hlen).
  exact (conj Hfw Hlen).
Defined.

(** ** Calls on different keys *)

Lemma Int64_wrap_add_l x y : Int64.wrap (Int64.wrap x + y) = Int64.wrap (x + y).
Proof.
  unfold Int64.wrap, Int64.modulus.
  replace ((x + 2 ^ 63) mod 2 ^ 64 - 2 ^ 63 + y + 2 ^ 63)
    with ((x + 2 ^ 63) mod 2 ^ 64 + y) by lia.
  rewrite Zplus_mod_idemp_l. f_equal. f_equal. lia.
Qed.

Section Independence.
Context {K V : Type} `{EqDecision K} `{Format K} `{Zero V}.
Variable retries : nat.
Implicit Types (k : K) (v : V) (t : HashTable K V) (l : list event) (c : @call K V).

Lemma step_effect c t l r t' l' :
  inv t -> step retries c t l = Done r t' l' ->
  inv t' /\
  (forall k, stored t' k = apply_call (stored t) c k) /\
  r = match c with
      | CallPut _ _ => PutDone
      | CallDelete k => Deleted (bool_decide (k ∈ keys t))
      end /\
  size t' =
    Int64.wrap (size t +
                match c with
                | CallPut k _ => if decide (k ∈ keys t) then 0 else 1
                | CallDelete k => if decide (k ∈ keys t) then -1 else 0
                end).
Proof.
  intros Ht Hrun. pose proof (inv_size _ Ht) as Hs.
  destruct c as [k v|k]; cbn [step] in Hrun; unfold Op.bind, Op.ret in Hrun.
  - destruct (Put_cases retries k v t l Ht)
      as [(Hp & _)|(t1 & evs & Hrun1 & Ht1 & Hst & _ & Hsize & _)].
    { by rewrite Hp in Hrun. }
    rewrite Hrun1 in Hrun. simplify_eq. split; [done|]. split; [done|]. split; [done|].
    rewrite Hsize. destruct (decide (k ∈ keys t)); [|done].
    by rewrite Z.add_0_r, Int64_wrap_small.
  - destruct (Delete_cases retries k t l Ht)
      as (t1 & evs & Hrun1 & Ht1 & Hst & _ & Hsize & _).
    rewrite Hrun1 in Hrun. simplify_eq. split; [done|]. split; [done|]. split; [done|].
    rewrite Hsize. destruct (decide (k ∈ keys t)); [done|].
    by rewrite Z.add_0_r, Int64_wrap_small.
Qed.

Lemma apply_call_other (m : K -> option V) c k :
  k <> called c -> apply_call m c k = m k.
Proof. intros Hne. destruct c; cbn [apply_call called] in *; by rewrite decide_False. Qed.

(** X13.  Two calls of [Put] or [Delete] on different keys can be made in
    either order: when both orders return, each call returns the same in
    both, and afterwards [Size()] and every [Get] return the same. *)
Theorem calls_on_different_keys_commute t c1 c2 l tr12 t12 l12 tr21 t21 l21 :
  reachable retries t -> called c1 <> called c2 ->
  run retries [c1; c2] t l = Done tr12 t12 l12 ->
  run retries [c2; c1] t l = Done tr21 t21 l21 ->
  (exists r1 r2, tr12 = [(c1, r1); (c2, r2)] /\ tr21 = [(c2, r2); (c1, r1)]) /\
  size t12 = size t21 /\
  forall k, same_Get retries t12 t21 k.
Proof.
  intros Ht%reachable_inv Hne Hrun12 Hrun21.
  cbn [run] in Hrun12, Hrun21. unfold Op.bind, Op.ret in Hrun12, Hrun21.
  destruct (step retries c1 t l) as [r1 t1 l1| |] eqn:H1; [|done..].
  destruct (step retries c2 t1 l1) as [r2 t1' l1'| |] eqn:H12; [|done..].
  destruct (step retries c2 t l) as [r2' t2 l2| |] eqn:H2; [|done..].
  destruct (step retries c1 t2 l2) as [r1' t2' l2'| |] eqn:H21; [|done..].
  simplify_eq.
  destruct (step_effect _ _ _ _ _ _ Ht H1) as (Ht1 & Hst1 & -> & Hs1).
  destruct (step_effect _ _ _ _ _ _ Ht1 H12) as (Ht12 & Hst12 & -> & Hs12).
  destruct (step_effect _ _ _ _ _ _ Ht H2) as (Ht2 & Hst2 & -> & Hs2).
  destruct (step_effect _ _ _ _ _ _ Ht2 H21) as (Ht21 & Hst21 & -> & Hs21).
  assert (Hin1 : called c1 ∈ keys t2 <-> called c1 ∈ keys t).
  { by rewrite <- !stored_is_Some, Hst2, apply_call_other. }
  assert (Hin2 : called c2 ∈ keys t1 <-> called c2 ∈ keys t).
  { rewrite <- !stored_is_Some, Hst1, apply_call_other; done. }
  split; [|split].
  - eexists _, _. split; [done|].
    destruct c1 as [k1 v1|k1], c2 as [k2 v2|k2]; cbn [called] in *;
      rewrite ?(bool_decide_ext _ _ Hin1), ?(bool_decide_ext _ _ Hin2); done.
  - rewrite Hs12, Hs21, Hs1, Hs2, !Int64_wrap_add_l. f_equal.
    destruct c1 as [k1 v1|k1], c2 as [k2 v2|k2]; cbn [called] in *;
      repeat match goal with
             | |- context [decide (?k ∈ keys ?t0)] => destruct (decide (k ∈ keys t0))
             end; try lia; exfalso; tauto.
  - intros k. apply same_Get_stored; [done..|].
    rewrite Hst21, Hst12.
    destruct (decide (k = called c1)) as [->|Hk1].
    + rewrite (apply_call_other _ c2) by done. rewrite Hst1.
      destruct c1; cbn [apply_call called]; by rewrite !decide_True.
    + rewrite (apply_call_other _ c1) by done. rewrite Hst2.
      destruct (decide (k = called c2)) as [->|Hk2].
      * destruct c2; cbn [apply_call called]; by rewrite !decide_True.
      * rewrite !apply_call_other by done. rewrite Hst1. by rewrite apply_call_other.
Qed.

End Independence.

(** ** The hash function on known inputs *)

(** The FNV-1a sums of the empty string, of ["a"] and of ["foobar"], as
    the reference implementation lists them: 0x811c9dc5, 0xe40c292c and
    0xbf9cf968. *)
Lemma Fnv_sum32a_vectors :
  Fnv.sum32a (format ""%string) = 2166136261 /\
  Fnv.sum32a (format "a"%string) = 3826002220 /\
  Fnv.sum32a (format "foobar"%string) = 3214735720.
Proof. repeat split; vm_compute; reflexivity. Qed.

Lemma format_int_examples :
  format 0 = format "0"%string /\ format 42 = format "42"%string /\
  format (-7) = format "-7"%string.
Proof. repeat split; vm_compute; reflexivity. Qed.

Lemma calls_commute_witness :
  reachable 0 tableA3 /\ called (CallPut 3 "v3"%string) <> called (@CallDelete Z string 1) /\
  exists tr12 t12 l12 tr21 t21 l21,
    run 0 [CallPut 3 "v3"%string; CallDelete 1] tableA3 [] = Done tr12 t12 l12 /\
    run 0 [CallDelete 1; CallPut 3 "v3"%string] tableA3 [] = Done tr21 t21 l21 /\
    bucketSize t12 = 8 /\ bucketSize t21 = 4 /\
    size t12 = size t21.
Proof.
  assert (Hne : called (CallPut 3 "v3"%string) <> called (@CallDelete Z string 1))
    by discriminate.
  split; [exact tableA3_reachable|]. split; [exact Hne|].
  eexists _, _, _, _, _, _.
  split; [vm_compute; reflexivity|]. split; [vm_compute; reflexivity|].
  split; [reflexivity|]. split; [reflexivity|].
  refine (proj1 (proj2 (calls_on_different_keys_commute 0 tableA3
            (CallPut 3 "v3"%string) (CallDelete 1) [] _ _ _ _ _ _
            tableA3_reachable Hne _ _))); vm_compute; reflexivity.
Defined.

(** ** The events of the calls, in full *)

Lemma place_events_app {K V : Type} `{Format K} n (es1 es2 : list (entry K V)) :
  place_events n (es1 ++ es2) = place_events n es1 ++ place_events n es2.
Proof. induction es1 as [|e es1 IH]; [done|]. cbn [app place_events]. by rewrite IH. Qed.

Lemma place_events_quiet {K V : Type} `{Format K} n (es : list (entry K V)) :
  Forall (fun e => shared_mu e = false) (place_events n es) /\ balanced (place_events n es).
Proof.
  induction es as [|e es [IH1 IH2]]; [split; [constructor|apply balanced_nil]|].
  cbn [place_events]. split.
  - cbn [app]. by repeat constructor.
  - apply balanced_app; [apply balanced_bucket|done].
Qed.

Lemma migrate_events_quiet {K V : Type} `{Format K} n i (old : list (bucket K V)) :
  Forall (fun e => shared_mu e = false) (migrate_events n i old) /\
  balanced (migrate_events n i old).
Proof.
  revert i. induction old as [|b old IH]; intros i; [split; [constructor|apply balanced_nil]|].
  destruct (IH (i + 1)) as [IH1 IH2]. destruct (place_events_quiet n (entries b)) as [Hp1 Hp2].
  cbn [migrate_events]. split.
  - cbn [app]. do 2 (constructor; [done|]). by apply Forall_app.
  - apply balanced_app; [apply balanced_bucket|]. by apply balanced_app.
Qed.

Lemma tryResize_events_quiet {K V : Type} `{Format K} (t : HashTable K V) :
  Forall (fun e => shared_mu e = false) (tryResize_events t) /\
  held_after [] (tryResize_events t) = Some [].
Proof.
  unfold tryResize_events. destruct (Float64.load_le _ _); [split; [by repeat constructor|done]|].
  destruct (migrate_events_quiet (Int64.wrap (bucketSize t * 2)) 0 (buckets t)) as [Hm1 Hm2].
  split.
  - cbn [app]. do 6 (constructor; [done|]). rewrite <- app_assoc.
    apply Forall_app. split; [done|]. by repeat constructor.
  - cbn [app held_after acquired released forallb]. rewrite <- app_assoc.
    rewrite held_after_app, (Hm2 [(TableMu, Exclusive)]) by done.
    cbn [app held_after acquired released]. by rewrite decide_True.
Qed.

Section CallLogs.
Context {K V : Type} `{EqDecision K} `{Format K} `{Zero V}.
Variable retries : nat.
Implicit Types (k : K) (v : V) (t : HashTable K V) (l : list event).

Lemma place_log n e (nb : list (bucket K V)) t l nb' t' l' :
  place n e nb t l = Done nb' t' l' -> l' = l ++ place_events n [e].
Proof.
  unfold place. op_cbn. unfold Op.rem. destruct (n =? 0); [done|]. op_cbn.
  unfold Op.index. destruct (_ <? 0); [done|]. destruct (nb !! _); [|done].
  op_cbn. intros [= <- <- <-]. by log_norm.
Qed.

Lemma place_loop_log n i (es : list (entry K V)) nb t l nb' t' l' :
  Op.for_range (fun _ => place n) i es nb t l = Done nb' t' l' ->
  l' = l ++ place_events n es.
Proof.
  revert i nb t l. induction es as [|e es IH]; intros i nb t l Hrun.
  - cbn in Hrun. injection Hrun as <- <- <-. by rewrite app_nil_r.
  - cbn [Op.for_range] in Hrun. unfold Op.bind in Hrun.
    destruct (place n e nb t l) as [nb1 t1 l1| |] eqn:Hrun1; [|done..].
    apply place_log in Hrun1 as ->. apply IH in Hrun as ->.
    by rewrite <- app_assoc, <- place_events_app.
Qed.

Lemma migrate_bucket_log n i (ob : bucket K V) nb t l nb' t' l' :
  migrate_bucket n i ob nb t l = Done nb' t' l' ->
  l' = l ++ [BucketLock Current i; BucketUnlock Current i] ++ place_events n (entries ob).
Proof.
  unfold migrate_bucket. op_cbn. intros Hrun. apply place_loop_log in Hrun as ->.
  by log_norm.
Qed.

Lemma migrate_loop_log n i (old : list (bucket K V)) nb t l nb' t' l' :
  Op.for_range (migrate_bucket n) i old nb t l = Done nb' t' l' ->
  l' = l ++ migrate_events n i old.
Proof.
  revert i nb t l. induction old as [|ob old IH]; intros i nb t l Hrun.
  - cbn in Hrun. injection Hrun as <- <- <-. by rewrite app_nil_r.
  - cbn [Op.for_range] in Hrun. unfold Op.bind in Hrun.
    destruct (migrate_bucket n i ob nb t l) as [nb1 t1 l1| |] eqn:Hrun1; [|done..].
    apply migrate_bucket_log in Hrun1 as ->. apply IH in Hrun as ->.
    cbn [migrate_events]. by rewrite <- !app_assoc.
Qed.

Lemma tryResize_log t l t' l' :
  resizing t = false -> tryResize t l = Done tt t' l' -> l' = l ++ tryResize_events t.
Proof.
  intros Hidle. unfold tryResize, tryResize_events. op_cbn. rewrite Hidle. op_cbn.
  destruct (Float64.load_le _ _).
  { intros [= <- <-]. by log_norm. }
  unfold make_buckets. destruct (_ <? 0); [done|]. op_cbn.
  match goal with |- context [Op.for_range ?f ?i ?xs ?acc ?t0 ?l0] =>
    destruct (Op.for_range f i xs acc t0 l0) as [nb t1 l1| |] eqn:Hm end; [|done..].
  apply migrate_loop_log in Hm as ->. intros [= <- <-]. by log_norm.
Qed.

Lemma Delete_log k t l :
  inv t ->
  exists t',
    Delete retries k t l =
    Done (bool_decide (k ∈ keys t)) t' (l ++ route ++ Delete_events k t).
Proof.
  intros Ht. rewrite (Delete_run retries k t l Ht). unfold Delete_events.
  destruct (remove k (home t k)) as [es|] eqn:Hrm.
  - assert (Hin : k ∈ keys t).
    { apply stored_is_Some. rewrite (stored_home _ _ Ht).
      destruct (find k (home t k)) eqn:Hf; [done|]. apply remove_None in Hf. congruence. }
    rewrite bool_decide_eq_true_2, decide_True by done. eauto.
  - assert (Hnin : k ∉ keys t).
    { apply stored_None. rewrite (stored_home _ _ Ht). by apply remove_None. }
    rewrite bool_decide_eq_false_2, decide_False by done. eauto.
Qed.

Lemma Put_log k v t l :
  inv t ->
  (Put retries k v t l = Panicked MakeSliceLenOutOfRange /\
   (k ∉ keys t) /\ Int64.max_int < bucketSize t * 2) \/
  exists t', Put retries k v t l = Done tt t' (l ++ route ++ Put_events k v t).
Proof.
  intros Ht. unfold Put_events.
  destruct (decide (k ∈ keys t)) as [Hin|Hnin].
  - right. destruct (Put_present retries k v t l Ht Hin) as (t' & Hrun & _).
    exists t'. by rewrite app_nil_r.
  - rewrite (Put_run retries k v t l Ht).
    assert (Hu : update k v (home t k) = None).
    { apply update_None. rewrite <- (stored_home _ _ Ht). by apply stored_None. }
    rewrite Hu. cbn zeta. cbn [size]. fold (appended k v t).
    destruct (append_inv k v t Ht Hnin) as [Ht1 _]. fold (appended k v t) in Ht1.
    destruct (Float64.load_gt _ _).
    + match goal with |- context [tryResize ?t1 ?l1] =>
        destruct (tryResize_cases t1 l1 Ht1) as [(Hp & Hbig & _)|(t' & evs & Hrun & _)];
        [by left|right];
        pose proof (tryResize_log _ _ _ _ (inv_idle _ Ht1) Hrun) as Hlog
      end.
      exists t'. rewrite Hrun, Hlog. f_equal; unfold route; by log_norm.
    + right. exists (appended k v t). f_equal; rewrite ?app_nil_r; unfold route; by log_norm.
Qed.

(** C3, as the code has it.  In every reachable state, [Put], [Get] and
    [Delete] take [ht.mu] in shared mode inside [hash] only, around the
    read of the bucket count, and release it there: the bucket array is
    read, and the bucket locked and unlocked, after [ht.mu.RUnlock()].
    The events of each call are given in full: after [route], [Get] takes
    and releases the read lock of the bucket; [Delete] locks the bucket,
    subtracts one from the size counter if the key was there, and unlocks
    it; [Put] locks and unlocks the bucket and, for a new key, adds one to
    the size counter, reads the bucket count and, above the load factor,
    does what [tryResize] does (where [make] panics if the bucket count
    cannot be doubled).  None of these events takes or releases
    [ht.mu] in shared mode, and every lock taken is released.  The body of
    the loop runs once.  The loop itself is a retry loop: in a state where
    the index is not below the length of the bucket array, nothing else
    running, it retries until the model stops it. *)
Theorem lock_order_as_implemented t k v l :
  reachable retries t ->
  (exists r, Get retries k t l =
     Done r t (l ++ route ++ [BucketRLock (slot k (bucketSize t));
                              BucketRUnlock (slot k (bucketSize t))])) /\
  (exists t', Delete retries k t l =
     Done (bool_decide (k ∈ keys t)) t' (l ++ route ++ Delete_events k t)) /\
  ((Put retries k v t l = Panicked MakeSliceLenOutOfRange /\
    (k ∉ keys t) /\ Int64.max_int < bucketSize t * 2) \/
   exists t', Put retries k v t l = Done tt t' (l ++ route ++ Put_events k v t)) /\
  Forall (fun e => shared_mu e = false) (Delete_events k t) /\
  Forall (fun e => shared_mu e = false) (Put_events k v t) /\
  held_after [] (route ++ Delete_events k t) = Some [] /\
  held_after [] (route ++ Put_events k v t) = Some [] /\
  guarded false (route ++ [BucketRLock (slot k (bucketSize t))]) = false /\
  guarded false (route ++ [BucketLock Current (slot k (bucketSize t))]) = false /\
  (forall t0 : HashTable K V,
     bucketSize t0 <> 0 ->
     Z.of_nat (length (buckets t0)) <= slot k (bucketSize t0) ->
     Get retries k t0 l = OutOfFuel /\
     Put retries k v t0 l = OutOfFuel /\
     Delete retries k t0 l = OutOfFuel).
Proof.
  intros Ht%reachable_inv.
  destruct (tryResize_events_quiet (appended k v t)) as [Hq1 Hq2].
  split; [eexists; by apply Get_stored|]. split; [by apply Delete_log|].
  split; [by apply Put_log|].
  split; [|split; [|split; [|split; [|split; [done|split; [done|]]]]]].
  - unfold Delete_events. destruct (decide _); by repeat constructor.
  - unfold Put_events. destruct (decide _); [by repeat constructor|].
    cbn [app]. do 4 (constructor; [done|]).
    destruct (Float64.load_gt _ _); [done|constructor].
  - rewrite held_after_route. unfold Delete_events. destruct (decide _); by locks_run.
  - rewrite held_after_route. unfold Put_events. destruct (decide _); [by locks_run|].
    destruct (Float64.load_gt _ _); [|by locks_run].
    cbn [app held_after acquired released forallb]. by rewrite decide_True.
  - intros t0 Hn Hstale. unfold Get, Put, Delete. generalize (S retries). intros fuel.
    revert l. induction fuel as [|fuel IH]; intros l; [done|].
    cbn [Get_loop Put_loop Delete_loop]. unfold Put_at. op_cbn.
    rewrite !hash_run by done. op_cbn.
    rewrite (proj2 (Z.leb_le _ _)) by done. apply IH.
Qed.

End CallLogs.

Lemma lock_order_witness :
  reachable 0 tableA3 /\
  (exists r, Get 0 7 tableA3 [] =
     Done r tableA3 (route ++ [BucketRLock (slot 7 (bucketSize tableA3));
                               BucketRUnlock (slot 7 (bucketSize tableA3))])) /\
  (exists t', Put 0 3 "v3"%string tableA3 [] =
     Done tt t' (route ++ Put_events 3 "v3"%string tableA3)) /\
  bucketSize tableA4 = 8.
Proof.
  split; [exact tableA3_reachable|].
  destruct (lock_order_as_implemented 0 tableA3 7 "x"%string [] tableA3_reachable)
    as (Hget & _).
  split; [exact Hget|].
  destruct (lock_order_as_implemented 0 tableA3 3 "v3"%string [] tableA3_reachable)
    as (_ & _ & [(Hp & _)|Hput] & _).
  - vm_compute in Hp. discriminate.
  - split; [exact Hput|]. vm_compute. reflexivity.
Defined.
